(** * StreamCat: upstream accumulation over the NHDPlus flow graph

    A shallow embedding of the graph and array core of
    [StreamCat_functions.py]: the adjacency builder of [UpcomDict], the
    closure traversals [children] and [bastards], the index resolution of
    [swapper], the reduction of [Accumulation], the boundary correction
    [AdjustCOMs] and the node sets of [makeNumpyVectors].

    Conventions of the embedding.
    - COMIDs are [Z]; numpy integer arrays are [list Z].
    - A [defaultdict(list)] is a [gmap Z (list Z)]; reading a missing key
      yields the empty list and stores it under that key, as the Python
      object does.
    - A Python [set] of COMIDs is a [gset Z]; where the code iterates over a
      set (an order Python leaves unspecified) the embedding uses
      [elements].
    - A pandas frame is a key column of COMIDs and a list of labelled
      columns of cells; a cell is an exact rational, NaN or an infinity.
    - A Python exception is [None] in the [option] monad.
    - Tables and arrays read from disk are arguments. *)

From Stdlib Require Import ZArith QArith Qreduction.
From Stdlib Require Import Floats.PrimFloat.
From stdpp Require Import base option gmap sets list strings sorting.

(** ** Ancestor closures: [children] and [bastards] *)

Module Closure.

(** [tree[current]] on a [defaultdict(list)]: the stored list or, for a
    missing key, a fresh empty list that is stored under the key. *)
Definition getitem (tree : gmap Z (list Z)) (k : Z) : list Z * gmap Z (list Z) :=
  match tree !! k with
  | Some ps => (ps, tree)
  | None => ([], <[k := []]> tree)
  end.

(** [deque.extendleft(it)]: the items are pushed on the left one by one,
    so they end up in reverse order in front of the old content. *)
Definition extendleft (items : list Z) (q : list Z) : list Z := rev items ++ q.

(** The loop state: the shared adjacency, the [visited] set and the
    [to_crawl] deque (head of the list = left end). *)
Record crawl_state := CrawlState {
  tree_of : gmap Z (list Z);
  visited : gset Z;
  to_crawl : list Z
}.

(** One iteration of [while to_crawl: ...]; [None] when the deque is empty
    and the loop exits. *)
Definition crawl_step (st : crawl_state) : option crawl_state :=
  match to_crawl st with
  | [] => None
  | current :: rest =>
      if decide (current ∈ visited st) then
        Some (CrawlState (tree_of st) (visited st) rest)
      else
        let visited' := visited st ∪ {[current]} in
        let '(ps, tree') := getitem (tree_of st) current in
        let node_children : gset Z := list_to_set ps in
        Some (CrawlState tree' visited'
                (extendleft (elements (node_children ∖ visited')) rest))
  end.

(** The node a step expands, if it expands one. *)
Definition expanded_by (st : crawl_state) : list Z :=
  match to_crawl st with
  | [] => []
  | current :: _ => if decide (current ∈ visited st) then [] else [current]
  end.

(** The [while] loop, bounded by [fuel] iterations. *)
Fixpoint crawl (fuel : nat) (st : crawl_state) : option crawl_state :=
  match crawl_step st with
  | None => Some st
  | Some st' =>
      match fuel with
      | O => None
      | S fuel' => crawl fuel' st'
      end
  end.

(** The nodes expanded during the first [fuel] iterations, in order. *)
Fixpoint expansions (fuel : nat) (st : crawl_state) : list Z :=
  match fuel with
  | O => []
  | S fuel' =>
      match crawl_step st with
      | None => []
      | Some st' => expanded_by st ++ expansions fuel' st'
      end
  end.

(** Parent entries still to be pushed: the lists of the unvisited keys. *)
Definition pending (tree : gmap Z (list Z)) (vis : gset Z) : nat :=
  sum_list_with (λ kv : Z * list Z,
                   if decide (kv.1 ∈ vis) then O else length kv.2)
                (map_to_list tree).

(** A bound on the number of iterations left. *)
Definition potential (st : crawl_state) : nat :=
  (length (to_crawl st) + pending (tree_of st) (visited st))%nat.

Definition init (token : Z) (tree : gmap Z (list Z)) : crawl_state :=
  CrawlState tree ∅ [token].

(** [visited.intersection(chkset)] when a universe set is given. *)
Definition restrict (vis : gset Z) (chkset : option (gset Z)) : gset Z :=
  match chkset with
  | None => vis
  | Some chk => vis ∩ chk
  end.

(** [children(token, tree, chkset)]: the list returned and the adjacency
    as the call leaves it.  The loop is given the potential of its first
    state as fuel, which it never uses up ([crawl_fuel_enough]). *)
Definition children (token : Z) (tree : gmap Z (list Z))
    (chkset : option (gset Z)) : option (list Z * gmap Z (list Z)) :=
  st ← crawl (potential (init token tree)) (init token tree);
  Some (elements (restrict (visited st) chkset), tree_of st).

(** [set.remove(x)] raises [KeyError] when [x] is absent. *)
Definition set_remove (x : Z) (s : gset Z) : option (gset Z) :=
  if decide (x ∈ s) then Some (s ∖ {[x]}) else None.

(** [bastards(token, tree, chkset)]. *)
Definition bastards (token : Z) (tree : gmap Z (list Z))
    (chkset : option (gset Z)) : option (list Z * gmap Z (list Z)) :=
  st ← crawl (potential (init token tree)) (init token tree);
  vis ← set_remove token (visited st);
  Some (elements (restrict vis chkset), tree_of st).

End Closure.


(** ** Double-precision cells *)

(** Table cells are IEEE doubles.  The embedding keeps the special values
    (NaN and the two infinities) and represents every finite double by the
    rational it denotes, kept in lowest terms, so arithmetic on finite
    values is exact: rounding, overflow and the sign of zero are not
    modelled.  A computed value is therefore the value of the code only
    where binary64 computes without rounding (sums of small integers, or
    of multiples of one power of two within 53 bits); the statements that
    name a computed value are made there, and the others say which cells
    enter which operation.  [Binary64] below has the rounded operations. *)
Module Double.

Inductive double :=
| NaN
| Inf (negative : bool)
| Num (q : Q).

Definition Qis_zero (q : Q) : bool := (Qnum q =? 0)%Z.
Definition Qis_neg (q : Q) : bool := (Qnum q <? 0)%Z.

Definition add (a b : double) : double :=
  match a, b with
  | NaN, _ | _, NaN => NaN
  | Inf s, Inf s' => if Bool.eqb s s' then Inf s else NaN
  | Inf s, Num _ | Num _, Inf s => Inf s
  | Num p, Num q => Num (Qred (p + q))
  end.

Definition sub (a b : double) : double :=
  match a, b with
  | NaN, _ | _, NaN => NaN
  | Inf s, Inf s' => if Bool.eqb s s' then NaN else Inf s
  | Inf s, Num _ => Inf s
  | Num _, Inf s => Inf (negb s)
  | Num p, Num q => Num (Qred (p - q))
  end.

Definition mul (a b : double) : double :=
  match a, b with
  | NaN, _ | _, NaN => NaN
  | Inf s, Inf s' => Inf (xorb s s')
  | Inf s, Num q | Num q, Inf s =>
      if Qis_zero q then NaN else Inf (xorb s (Qis_neg q))
  | Num p, Num q => Num (Qred (p * q))
  end.

Definition div (a b : double) : double :=
  match a, b with
  | NaN, _ | _, NaN => NaN
  | Inf _, Inf _ => NaN
  | Inf s, Num q => Inf (xorb s (Qis_neg q))
  | Num _, Inf _ => Num 0
  | Num p, Num q =>
      if Qis_zero q then (if Qis_zero p then NaN else Inf (Qis_neg p))
      else Num (Qred (p / q))
  end.

(** [x == 0] on doubles: false on NaN and on the infinities. *)
Definition eq_zero (a : double) : bool :=
  match a with
  | Num q => Qis_zero q
  | _ => false
  end.

Definition is_nan (a : double) : bool :=
  match a with
  | NaN => true
  | _ => false
  end.

(** The largest finite double, [(2^53 - 1) * 2^971]. *)
Definition DBL_MAX : Q := inject_Z ((2 ^ 53 - 1) * 2 ^ 971).

(** [np.nan_to_num]: NaN becomes zero, an infinity the finite double of
    largest magnitude and the same sign. *)
Definition nan_to_num (a : double) : double :=
  match a with
  | NaN => Num 0
  | Inf false => Num DBL_MAX
  | Inf true => Num (Qred (- DBL_MAX))
  | Num q => Num q
  end.

(** The exact sum of a list of rationals. *)
Definition Qsum (ws : list Q) : Q := foldr Qplus 0%Q ws.

(** [np.sum] of a one-dimensional array; the sum of no element is zero. *)
Definition sum (l : list double) : double := foldr add (Num 0) l.

(** [np.nansum]: NaNs count as zero. *)
Definition nansum (l : list double) : double :=
  sum ((λ a, if is_nan a then Num 0 else a) <$> l).

(** [np.ma.average(a, weights=w)] on unmasked one-dimensional data of the
    same length: the weighted sum divided by the sum of the weights. *)
Definition ma_average (a w : list double) : double :=
  div (sum (zip_with mul a w)) (sum w).

End Double.

(** The weighted average once more, on binary64 cells, to measure what the
    exact cells leave out.  numpy adds fewer than eight cells one after the
    other, which is the order of [foldl]. *)
Module Binary64.

Definition sum (l : list float) : float := foldl PrimFloat.add 0%float l.

Definition ma_average (a w : list float) : float :=
  PrimFloat.div (sum (zip_with PrimFloat.mul a w)) (sum w).

(** The doubles nearest to 0.1, 0.2 and 0.3. *)
Definition tenth : float := 0x1.999999999999ap-4%float.
Definition fifth : float := 0x1.999999999999ap-3%float.
Definition three_tenths : float := 0x1.3333333333333p-2%float.

End Binary64.

(** ** Text of column labels *)

Module Label.

(** [sub in s] on Python strings. *)
Fixpoint contains (sub s : string) : bool :=
  String.prefix sub s ||
  match s with
  | EmptyString => false
  | String _ s' => contains sub s'
  end.

(** [s.replace(old, new)] for a non-empty [old]: occurrences are replaced
    from the left and do not overlap.  [skip] counts the characters of a
    replaced occurrence that are still to be dropped. *)
Fixpoint replace_from (old new : string) (skip : nat) (s : string) : string :=
  match s with
  | EmptyString => EmptyString
  | String c s' =>
      match skip with
      | S k => replace_from old new k s'
      | O =>
          if String.prefix old s
          then (new ++ replace_from old new (String.length old - 1) s')%string
          else String c (replace_from old new O s')
      end
  end.

Definition replace (old new s : string) : string := replace_from old new 0 s.

End Label.

(** ** Tables *)

(** A pandas frame keyed by COMID: the key column (the [COMID] column of a
    metric table, or the index of a table after [set_index('COMID')]) and
    the remaining columns in order, each a label and its cells.  Labels are
    distinct and every column is as long as the key column, as pandas
    keeps them. *)
Record DataFrame := mkDataFrame {
  COMID : list Z;
  columns : list (string * list Double.double)
}.

(** The shape pandas keeps: distinct labels, columns as long as the key
    column. *)
Definition well_formed (t : DataFrame) : Prop :=
  NoDup (columns t).*1
  ∧ ∀ c, c ∈ columns t → length c.2 = length (COMID t).

(** Fancy indexing [a[idx]] of a one-dimensional array by an array of
    non-negative positions; a position past the end raises [IndexError]. *)
Definition take_indices {A} (a : list A) (idx : list nat) : option (list A) :=
  mapM (λ i, a !! i) idx.

(** The slice [a[x : x + n]]; slices never raise and are cut at the end. *)
Definition slice {A} (a : list A) (x n : nat) : list A := take n (drop x a).

(** ** Index resolution: [swapper] *)

Module Swapper.

(** The order of [np.argsort] on (value, position) pairs: by value. *)
Definition by_value (p q : Z * nat) : Prop := (p.1 ≤ q.1)%Z.

#[global] Instance by_value_dec p q : Decision (by_value p q) :=
  Z.le_dec p.1 q.1.

(** The (value, position) pairs of [coms], sorted by value. *)
Definition sorted_pairs (coms : list Z) : list (Z * nat) :=
  merge_sort by_value (zip coms (seq 0 (length coms))).

(** [np.argsort(coms)]: the positions of [coms] in increasing order of
    their values.  Where values repeat numpy leaves the order of their
    positions open; the embedding keeps them in some fixed order. *)
Definition argsort (coms : list Z) : list nat := (sorted_pairs coms).*2.

(** [np.searchsorted(a, v)] (side 'left') on a sorted array: the first
    position whose element is not below [v], or the length. *)
Fixpoint searchsorted1 (a : list Z) (v : Z) : nat :=
  match a with
  | [] => O
  | x :: a' => if decide (x < v)%Z then S (searchsorted1 a' v) else O
  end.

Definition searchsorted (a : list Z) (vs : list Z) : list nat :=
  searchsorted1 a <$> vs.

(** [swapper(coms, upStream)]. *)
Definition swapper (coms upStream : list Z) : option (list nat) :=
  let bsort := argsort coms in
  sorted ← take_indices coms bsort;
  let apos := searchsorted sorted upStream in
  take_indices bsort apos.

End Swapper.

(** ** The reduction: [Accumulation] *)

Module Accum.
Import Double Label Swapper.

(** [np.nansum(d[x:x + n])]. *)
Definition reduce_sum (d : list double) (x n : nat) : double :=
  nansum (slice d x n).

(** [np.ma.average(np.nan_to_num(d[x:x + n]), weights=ar[x:x + n])]. *)
Definition reduce_pct (d ar : list double) (x n : nat) : double :=
  ma_average (nan_to_num <$> slice d x n) (slice ar x n).

(** [for i in range(0, len(lengths)): z[i] = f(x, lengths[i]); x += lengths[i]];
    writing [z[i]] past the end of [z] raises [IndexError]. *)
Fixpoint segment_loop (f : nat → nat → double) (lengths : list nat)
    (i x : nat) (z : list double) : option (list double) :=
  match lengths with
  | [] => Some z
  | n :: rest =>
      if decide (i < length z)%nat
      then segment_loop f rest (S i) (x + n)%nat (<[i := f x n]> z)
      else None
  end.

(** The body of [for k in range(0, len(cols))] for one column, from the
    vector [z] the previous column left behind. *)
Definition accumulate_column (arr : DataFrame) (indices : list nat)
    (lengths : list nat) (col : string) (c : list double)
    (z : list double) : option (list double) :=
  d ← take_indices c indices;
  if contains "PctFull" col then
    area ← snd <$> columns arr !! O;
    ar ← take_indices area indices;
    segment_loop (reduce_pct d ar) lengths 0 0 z
  else
    segment_loop (reduce_sum d) lengths 0 0 z.

(** The loop over the columns; the result lists the columns of [outT]
    after the first.  [z] is allocated once and shared by all columns. *)
Fixpoint column_loop (arr : DataFrame) (indices : list nat)
    (lengths : list nat) (cols : list (string * list double))
    (z : list double) : option (list (list double)) :=
  match cols with
  | [] => Some []
  | (col, c) :: rest =>
      z' ← accumulate_column arr indices lengths col c z;
      outs ← column_loop arr indices lengths rest z';
      Some (z' :: outs)
  end.

(** Boolean-mask row selection [a[mask]]. *)
Fixpoint select {A} (mask : list bool) (a : list A) : list A :=
  match mask, a with
  | b :: mask', x :: a' => if b then x :: select mask' a' else select mask' a'
  | _, _ => []
  end.

(** The labels after the first of [outDF.columns].  With another
    [tbl_type] the labels stay integers and ['AreaSqKm' in name] raises
    [TypeError]. *)
Definition output_labels (tbl_type : string) (cols : list string)
    : option (list string) :=
  if decide (tbl_type = "Ws") then Some (replace "Cat" "Ws" <$> cols)
  else if decide (tbl_type = "UpCat") then Some ((λ c, "Up" ++ c)%string <$> cols)
  else None.

(** The position, among the columns after [COMID], of the last label that
    contains ['AreaSqKm']; with no such label the lookup of [area]
    fails. *)
Fixpoint area_column (labels : list string) : option nat :=
  match labels with
  | [] => None
  | name :: rest =>
      match area_column rest with
      | Some j => Some (S j)
      | None => if contains "AreaSqKm" name then Some O else None
      end
  end.

(** [col[mask] = np.nan]. *)
Definition blank (mask : list bool) (col : list double) : list double :=
  zip_with (λ (b : bool) v, if b then NaN else v) mask col.

(** [outDF.loc[mask, outDF.columns[2:]] = np.nan]: every column but [COMID]
    and the one next to it. *)
Definition blank_from_2 (mask : list bool) (cols : list (list double))
    : list (list double) :=
  match cols with
  | [] => []
  | first :: rest => first :: (blank mask <$> rest)
  end.

(** The array [outT] after the rows outside [coms] are removed: the kept
    COMIDs and the columns after the first.  The first column of [outT]
    holds the ids as doubles, which is exact for every id below [2^53]
    (the ids of the flat array are 32-bit integers); the ids are kept as
    integers here. *)
Definition outT (arr : DataFrame) (COMIDs : list Z) (lengths : list nat)
    (upStream : list Z) : option (list Z * list (list double)) :=
  let coms := COMID arr in
  indices ← swapper coms upStream;
  let z := replicate (length COMIDs) (Num 0) in
  outs ← column_loop arr indices lengths (columns arr) z;
  let keep := (λ c, bool_decide (c ∈ coms)) <$> COMIDs in
  Some (select keep COMIDs, select keep <$> (outs : list (list double))).

(** [Accumulation(arr, COMIDs, lengths, upStream, tbl_type)]. *)
Definition Accumulation (arr : DataFrame) (COMIDs : list Z)
    (lengths : list nat) (upStream : list Z) (tbl_type : string)
    : option DataFrame :=
  '(ids, outs) ← outT arr COMIDs lengths upStream;
  labels ← output_labels tbl_type (columns arr).*1;
  area ← area_column labels;
  areav ← outs !! area;
  Some (mkDataFrame ids (zip labels (blank_from_2 (eq_zero <$> areav) outs))).

End Accum.

(** ** The boundary correction: [AdjustCOMs] *)

Module Adjust.
Import Double.

(** The row of a COMID in the index of a table. *)
Definition row_position (t : DataFrame) (comid : Z) : option nat :=
  fst <$> list_find (λ c, c = comid) (COMID t).

(** The cells of the column with a given label. *)
Definition column (t : DataFrame) (label : string) : option (list double) :=
  (λ r : nat * (string * list double), r.2.2)
    <$> list_find (λ c : string * list double, c.1 = label) (columns t).

(** [t.ix[comid, label]]; a missing row or column raises [KeyError]. *)
Definition get_cell (t : DataFrame) (comid : Z) (label : string) : option double :=
  i ← row_position t comid;
  c ← column t label;
  c !! i.

(** [t.ix[comid, label] = v] on an existing row. *)
Definition set_cell (t : DataFrame) (comid : Z) (label : string) (v : double)
    : option DataFrame :=
  i ← row_position t comid;
  Some (mkDataFrame (COMID t)
          ((λ c : string * list double,
              if decide (c.1 = label) then (c.1, <[i := v]> c.2) else c)
           <$> columns t)).

(** [for idx in ...: tbl.ix[comid1, idx] = tbl.ix[comid1, idx] - tbl2.ix[comid2, idx]]. *)
Fixpoint adjust_loop (labels : list string) (tbl tbl2 : DataFrame)
    (comid1 comid2 : Z) : option DataFrame :=
  match labels with
  | [] => Some tbl
  | idx :: rest =>
      a ← get_cell tbl comid1 idx;
      b ← get_cell tbl2 comid2 idx;
      tbl' ← set_cell tbl comid1 idx (sub a b);
      adjust_loop rest tbl' tbl2 comid1 comid2
  end.

(** [AdjustCOMs(tbl, comid1, comid2, tbl2)]: the table [tbl] as the call
    leaves it.  Without [tbl2] the values subtracted are read from a copy
    of [tbl] taken on entry.  Each turn of the loop reads its two cells
    before it writes one, in a column no other turn touches, so a [tbl2]
    that is the very object [tbl] yields the same values as a copy. *)
Definition AdjustCOMs (tbl : DataFrame) (comid1 comid2 : Z)
    (tbl2 : option DataFrame) : option DataFrame :=
  let tbl2 := default tbl tbl2 in
  adjust_loop (removelast (columns tbl).*1) tbl tbl2 comid1 comid2.

End Adjust.

(** ** The adjacency builder: [UpcomDict] *)

(** The tables [UpcomDict] and [makeNumpyVectors] read from disk are
    arguments of the embedding.  The inter-VPU table is not part of the
    source; the code reads it by column name ([thruCOMIDs], [ToZone],
    [DropCOMID], [removeCOMs]) and, row by row, by position ([interLine[0]],
    [interLine[2]], [interLine[6]]).  A row keeps one field per read, so
    nothing is assumed on which name sits at which position. *)
Record flow_row := FlowRow { TOCOMID : Z; FROMCOMID : Z }.

Record flowline := Flowline { flowline_COMID : Z; FTYPE : string }.

Record interVPU_row := InterVPURow {
  thruCOMIDs : Z;
  ToZone : string;
  DropCOMID : Z;
  removeCOMs : Z;
  interLine0 : Z;
  interLine2 : string;
  interLine6 : Z
}.

Module FlowGraph.
Import Closure.
Local Open Scope Z_scope.

(** [UpCOMs[k].append(v)] on the [defaultdict(list)]. *)
Definition append (UpCOMs : gmap Z (list Z)) (k v : Z) : gmap Z (list Z) :=
  let '(ps, UpCOMs') := getitem UpCOMs k in <[k := ps ++ [v]]> UpCOMs'.

(** The body of the loop over the rows of [flow]. *)
Definition add_row (UpCOMs : gmap Z (list Z)) (row : flow_row) : gmap Z (list Z) :=
  if decide (FROMCOMID row = 0) then <[TOCOMID row := []]> UpCOMs
  else append UpCOMs (TOCOMID row) (FROMCOMID row).

(** The body of the loop over the rows of the inter-VPU table. *)
Definition add_interLine (zone : string) (UpCOMs : gmap Z (list Z))
    (interLine : interVPU_row) : gmap Z (list Z) :=
  if decide ((0 < interLine6 interLine)%Z ∧ interLine2 interLine = zone)
  then append UpCOMs (interLine6 interLine) (interLine0 interLine)
  else UpCOMs.

(** The rows of [flow] that reach the loop. *)
Definition filter_flow (flow : list flow_row) (coast : list flowline)
    (interVPUtbl : list interVPU_row) : list flow_row :=
  let flow := filter (λ r, TOCOMID r ≠ 0) flow in
  let coasties := flowline_COMID <$> filter (λ f, FTYPE f = "Coastline") coast in
  let flow := filter (λ r, FROMCOMID r ∉ coasties) flow in
  let remove := filter (λ c, c ≠ 0) (removeCOMs <$> interVPUtbl) in
  let flow := filter (λ r, FROMCOMID r ∉ remove) flow in
  let others :=
    filter (λ chk, (chk ∉ (flowline_COMID <$> coast)) ∧ (chk ≠ 0))
           (FROMCOMID <$> flow) in
  foldl (λ flow y,
           if decide (y ∈ (thruCOMIDs <$> interVPUtbl)) then flow
           else filter (λ r, FROMCOMID r ≠ y) flow)
        flow others.

(** [UpcomDict] on the flow table, the flowline table and the inter-VPU
    table of a zone. *)
Definition UpcomDict (flow : list flow_row) (coast : list flowline)
    (zone : string) (interVPUtbl : list interVPU_row) : gmap Z (list Z) :=
  let UpCOMs := foldl add_row ∅ (filter_flow flow coast interVPUtbl) in
  foldl (add_interLine zone) UpCOMs interVPUtbl.

End FlowGraph.

(** ** The node sets and closure arrays: [makeNumpyVectors] *)

(** The three arrays saved per zone and scope. *)
Record ClosureIndex := mkClosureIndex {
  upStream : list Z;
  comids : list Z;
  lengths : list nat
}.

Module Vectors.
Import Closure.
Local Open Scope Z_scope.

(** [AllCOMs]: the catchment ids of all zones, concatenated, without the
    zeros.  With no zone the name is unbound. *)
Definition AllCOMs (tables : list (list Z)) : option (list Z) :=
  match tables with
  | [] => None
  | _ => Some (filter (λ c, c ≠ 0) (concat tables))
  end.

(** [cats = set(cat); cats.discard(0)]. *)
Definition cats_of (cat : list Z) : gset Z := list_to_set cat ∖ {[0]}.

(** The query COMIDs of a zone: its catchments and the through-COMIDs
    that enter it and are not dropped, without the zeros. *)
Definition zone_COMIDs (catch : list Z) (interVPUtbl : list interVPU_row)
    (zone : string) : list Z :=
  let thru :=
    thruCOMIDs <$> filter (λ r, ToZone r = zone ∧ DropCOMID r = 0) interVPUtbl in
  let COMIDs := catch ++ thru in
  if decide (0 ∈ COMIDs) then filter (λ c, c ≠ 0) COMIDs else COMIDs.

(** [if zone == '14': cats.remove(17029298)]. *)
Definition zone_cats (zone : string) (cats : gset Z) : option (gset Z) :=
  if decide (zone = "14") then set_remove 17029298 cats else Some cats.

(** [np.int32] of an array of 64-bit integers: the value wraps around to
    32 bits. *)
Definition int32 (x : Z) : Z := ((x + 2 ^ 31) mod 2 ^ 32 - 2 ^ 31)%Z.

(** [np.int32] of a float64 array that holds ids.  An id that fits in 32
    bits is held exactly and comes out as it is.  Any other value is
    outside the range of the conversion from double, which gives [-2^31]
    then (the result of the conversion instruction of x86-64). *)
Definition int32_of_float (x : Z) : Z :=
  if decide (- 2 ^ 31 ≤ x < 2 ^ 31) then x else - 2 ^ 31.

(** [np.int32(np.hstack(np.array(a)))] for a non-empty list of closures.
    A closure without members is stacked as an empty float64 array, and
    the flat array is then float64; otherwise it is an array of 64-bit
    integers. *)
Definition flatten (a : list (list Z)) : list Z :=
  if decide (Exists (λ v : list Z, v = []) a)
  then int32_of_float <$> concat a
  else int32 <$> concat a.

(** [map(lambda x: f(x, UpStreamComs, cats), COMIDs)], the calls sharing
    the adjacency. *)
Fixpoint map_closure
    (f : Z → gmap Z (list Z) → option (gset Z) → option (list Z * gmap Z (list Z)))
    (COMIDs : list Z) (UpStreamComs : gmap Z (list Z)) (cats : gset Z)
    : option (list (list Z) * gmap Z (list Z)) :=
  match COMIDs with
  | [] => Some ([], UpStreamComs)
  | x :: rest =>
      '(v, tree') ← f x UpStreamComs (Some cats);
      '(vs, tree'') ← map_closure f rest tree' cats;
      Some (v :: vs, tree'')
  end.

(** The three arrays of one scope; [np.hstack] of no array raises
    [ValueError]. *)
Definition vectors
    (f : Z → gmap Z (list Z) → option (gset Z) → option (list Z * gmap Z (list Z)))
    (COMIDs : list Z) (UpStreamComs : gmap Z (list Z)) (cats : gset Z)
    : option (ClosureIndex * gmap Z (list Z)) :=
  '(a, tree') ← map_closure f COMIDs UpStreamComs cats;
  match a with
  | [] => None
  | _ => Some (mkClosureIndex (flatten a) COMIDs (length <$> a), tree')
  end.

(** The body of the loop over the zones for a zone whose arrays are not
    on disk yet: the universe set as the zone leaves it, the arrays of
    [bastards] and the arrays of [children]. *)
Definition zone_vectors (UpStreamComs : gmap Z (list Z)) (catch : list Z)
    (interVPUtbl : list interVPU_row) (zone : string) (cats : gset Z)
    : option (gset Z * ClosureIndex * ClosureIndex) :=
  let COMIDs := zone_COMIDs catch interVPUtbl zone in
  cats ← zone_cats zone cats;
  '(a, tree') ← vectors bastards COMIDs UpStreamComs cats;
  '(b, _) ← vectors children COMIDs tree' cats;
  Some (cats, a, b).

End Vectors.

(** ** The array files: [np.save] and [np.load] *)

Module Npy.

(** The [.npy] files are kept by path, a map from the path to the array;
    the lengths are stored as integers, like the ids.

    The six [np.save] calls of [makeNumpyVectors] for a zone, in their
    order: the arrays of [bastards] go to [directory + '/bastards'], those
    of [children] to [directory + '/children'].  The query ids of
    [children] are saved under ['/comids ' + zone + '.npy'], with a space
    after [comids]. *)
Definition save_zone (directory zone : string) (a b : ClosureIndex)
    (files : gmap string (list Z)) : gmap string (list Z) :=
  let wdb := directory +:+ "/bastards" in
  let files := <[wdb +:+ "/upStream" +:+ zone +:+ ".npy" := upStream a]> files in
  let files := <[wdb +:+ "/comids" +:+ zone +:+ ".npy" := comids a]> files in
  let files :=
    <[wdb +:+ "/lengths" +:+ zone +:+ ".npy" := Z.of_nat <$> lengths a]> files in
  let wdc := directory +:+ "/children" in
  let files := <[wdc +:+ "/upStream" +:+ zone +:+ ".npy" := upStream b]> files in
  let files := <[wdc +:+ "/comids " +:+ zone +:+ ".npy" := comids b]> files in
  <[wdc +:+ "/lengths" +:+ zone +:+ ".npy" := Z.of_nat <$> lengths b]> files.

End Npy.

(** [createAccumTable(table, directory, zone, tbl_type)]: the three arrays
    are loaded from the directory of the scope and passed to
    [Accumulation]; [np.load] of a path that is no file raises [IOError]. *)
Definition createAccumTable (files : gmap string (list Z))
    (table : DataFrame) (directory zone tbl_type : string)
    : option DataFrame :=
  let directory :=
    if decide (tbl_type = "UpCat") then directory +:+ "/bastards"
    else directory in
  let directory :=
    if decide (tbl_type = "Ws") then directory +:+ "/children"
    else directory in
  COMIDs ← files !! (directory +:+ "/comids" +:+ zone +:+ ".npy");
  lengths ← files !! (directory +:+ "/lengths" +:+ zone +:+ ".npy");
  upStream ← files !! (directory +:+ "/upStream" +:+ zone +:+ ".npy");
  Accum.Accumulation table COMIDs (Z.to_nat <$> lengths) upStream tbl_type.

(** ** The tables of the worked scenarios *)

Module Scenario.
Import Double.
Local Open Scope Z_scope.

(** Catchments A = 1, B = 2 and C = 3 of one zone, with the edges A → C
    and B → C. *)
Definition flow : list flow_row := [FlowRow 3 1; FlowRow 3 2].

Definition flowlines : list flowline :=
  [Flowline 1 "StreamRiver"; Flowline 2 "StreamRiver"; Flowline 3 "StreamRiver"].

Definition zone : string := "01".

Definition catch : list Z := [1; 2; 3].

(** Every catchment has an area of 1 and a metric of 10. *)
Definition metrics : DataFrame :=
  mkDataFrame [1; 2; 3]
    [("CatAreaSqKm"%string, [Num 1; Num 1; Num 1]);
     ("CatMetric"%string, [Num 10; Num 10; Num 10])].

(** The same catchments, fully covered, with areas 1, 2 and 3. *)
Definition coverage : DataFrame :=
  mkDataFrame [1; 2; 3]
    [("CatAreaSqKm"%string, [Num 1; Num 2; Num 3]);
     ("CatSum"%string, [Num 4; Num 5; Num 6]);
     ("CatPctFull"%string, [Num 100; Num 100; Num 100])].

(** The same catchments, fully covered, with areas 1/2, 1/4 and 3/4. *)
Definition quarters : DataFrame :=
  mkDataFrame [1; 2; 3]
    [("CatAreaSqKm"%string, [Num (1 # 2); Num (1 # 4); Num (3 # 4)]);
     ("CatSum"%string, [Num 4; Num 5; Num 6]);
     ("CatPctFull"%string, [Num 100; Num 100; Num 100])].

(** Catchment D = 4 has no area. *)
Definition no_area : DataFrame :=
  mkDataFrame [4]
    [("CatAreaSqKm"%string, [Num 0]);
     ("CatSum"%string, [Num 5]);
     ("CatPctFull"%string, [Num 100])].

(** A table for D whose area column is not next to [COMID]. *)
Definition area_second : DataFrame :=
  mkDataFrame [4]
    [("CatCount"%string, [Num 0]);
     ("CatAreaSqKm"%string, [Num 0])].

(** A table of accumulated boundary values, indexed by COMID. *)
Definition through : DataFrame :=
  mkDataFrame [1; 2]
    [("CatAreaSqKm"%string, [Num 5; Num 2]);
     ("CatSum"%string, [Num 50; Num 20]);
     ("CatPctFull"%string, [Num 100; Num 100])].

End Scenario.

(** ** Vocabulary for the properties of the closures *)

Module Ancestry.

(** The parents a [defaultdict(list)] lists for a node. *)
Definition parents (tree : gmap Z (list Z)) (n : Z) : list Z :=
  default [] (tree !! n).

(** [p] is listed as a parent of [n]. *)
Definition parent_of (tree : gmap Z (list Z)) (n p : Z) : Prop :=
  p ∈ parents tree n.

(** [a] is [n] or is reached from [n] by going from a node to one of its
    parents, any number of times. *)
Definition upstream (tree : gmap Z (list Z)) (n a : Z) : Prop :=
  rtc (parent_of tree) n a.

(** Membership in the universe set, when one is given. *)
Definition in_universe (chkset : option (gset Z)) (n : Z) : Prop :=
  match chkset with
  | None => True
  | Some chk => n ∈ chk
  end.

(** The invariant of the traversal started at [token] on [tree]: the stored
    parents are those of [tree]; the start node is visited or waiting; what
    is visited or waiting is upstream of the start node; and the parents of
    a visited node are visited or waiting. *)
Record crawl_inv (token : Z) (tree : gmap Z (list Z)) (st : Closure.crawl_state) : Prop := {
  inv_parents : ∀ n, parents (Closure.tree_of st) n = parents tree n;
  inv_start : token ∈ Closure.visited st ∨ token ∈ Closure.to_crawl st;
  inv_sound : ∀ n, n ∈ Closure.visited st ∨ n ∈ Closure.to_crawl st → upstream tree token n;
  inv_closed : ∀ n p, n ∈ Closure.visited st → parent_of tree n p →
                 p ∈ Closure.visited st ∨ p ∈ Closure.to_crawl st
}.

End Ancestry.

(** ** Further tables of the worked scenarios *)

Module Examples.
Import Double.
Local Open Scope Z_scope.

(** The adjacency of the scenario of three catchments, before and after the
    closures of a zone have been computed on it. *)
Definition adjacency : gmap Z (list Z) :=
  FlowGraph.UpcomDict Scenario.flow Scenario.flowlines Scenario.zone [].

Definition adjacency_after : gmap Z (list Z) :=
  <[1 := []]> (<[2 := []]> adjacency).

(** The arrays of [children] for the three catchments. *)
Definition children_arrays : ClosureIndex :=
  mkClosureIndex [1; 2; 3; 2; 1] [1; 2; 3] [1%nat; 1%nat; 3%nat].

(** The arrays of [bastards] for the three catchments. *)
Definition bastards_arrays : ClosureIndex :=
  mkClosureIndex [2; 1] [1; 2; 3] [0%nat; 0%nat; 2%nat].

(** The 'Ws' table of the fully covered catchments. *)
Definition coverage_Ws : DataFrame :=
  mkDataFrame [1; 2; 3]
    [("WsAreaSqKm"%string, [Num 1; Num 2; Num 6]);
     ("WsSum"%string, [Num 4; Num 5; Num 15]);
     ("WsPctFull"%string, [Num 100; Num 100; Num 100])].

End Examples.

(** ** Vocabulary for the properties of the reduction *)

Module Segment.
Import Double Label Accum.

(** Where the segment of query position [i] starts in the flat array. *)
Definition segment_start (lengths : list nat) (i : nat) : nat :=
  sum_list (take i lengths).

(** What the loop body of [Accumulation] computes for column [k] and query
    position [i]: the reduction of the column over the rows of the
    segment. *)
Definition segment_value (arr : DataFrame) (indices : list nat)
    (lengths : list nat) (k i : nat) : option double :=
  '(col, c) ← columns arr !! k;
  n ← lengths !! i;
  d ← take_indices c indices;
  if contains "PctFull" col then
    area ← snd <$> columns arr !! O;
    ar ← take_indices area indices;
    Some (reduce_pct d ar (segment_start lengths i) n)
  else
    Some (reduce_sum d (segment_start lengths i) n).

End Segment.

(** ** Sorting *)

Module PySort.

(** Python's [list.sort] and the sort pandas applies to labels are stable.
    An insertion sort that puts an entry in front of the first entry it is
    not greater than is a stable sort, and a stable sort has one result. *)
Fixpoint insert_by {A} (le : A → A → bool) (x : A) (l : list A) : list A :=
  match l with
  | [] => [x]
  | y :: l' => if le x y then x :: l else y :: insert_by le x l'
  end.

Definition sort_by {A} (le : A → A → bool) (l : list A) : list A :=
  foldr (insert_by le) [] l.

End PySort.

(** ** Rows of a frame *)

Module Frame.
Import Double PySort.

(** [t[mask]] for a Boolean mask built from the key column: the rows whose
    COMID passes the test, in every column. *)
Definition filter_rows (P : Z → bool) (t : DataFrame) : DataFrame :=
  let mask := P <$> COMID t in
  mkDataFrame (Accum.select mask (COMID t))
    ((λ c : string * list double, (c.1, Accum.select mask c.2)) <$> columns t).

(** [t.drop(t[t.COMID == comidx].index)] on a frame whose index labels are
    distinct: the rows with that COMID go. *)
Definition drop_COMID (comidx : Z) (t : DataFrame) : DataFrame :=
  filter_rows (λ c, bool_decide (c ≠ comidx)) t.

(** [t.ix[t.COMID.isin(values)]]. *)
Definition isin_rows (values : list Z) (t : DataFrame) : DataFrame :=
  filter_rows (λ c, bool_decide (c ∈ values)) t.

(** The labels of [a.append(b)]: those of [a] when [b] has the same labels
    in the same order, and otherwise the union of the labels of the two
    frames, sorted. *)
Definition append_labels (a b : DataFrame) : list string :=
  if decide ((columns a).*1 = (columns b).*1) then (columns a).*1
  else sort_by String.leb (remove_dups ((columns a).*1 ++ (columns b).*1)).

(** The column of a label in [a.append(b)]: the cells of [a], then those of
    [b]; a frame that lacks the label gives NaN in its rows. *)
Definition append_column (a b : DataFrame) (l : string)
    : string * list double :=
  (l, default (replicate (length (COMID a)) NaN) (Adjust.column a l)
      ++ default (replicate (length (COMID b)) NaN) (Adjust.column b l)).

(** [a.append(b)] for frames with distinct labels: the rows of [b] go below
    the rows of [a]. *)
Definition append (a b : DataFrame) : DataFrame :=
  mkDataFrame (COMID a ++ COMID b) (append_column a b <$> append_labels a b).

End Frame.

(** ** Connector tables: [appendConnectors] *)

(** A row of the inter-VPU table with the further reads of the functions
    that handle connector tables: the columns [toCOMIDs] and [FromZone] and
    the positions 3, 4 and 5 of a row. *)
Record interVPU_line := InterVPULine {
  line_row :> interVPU_row;
  toCOMIDs : Z;
  FromZone : string;
  interLine3 : Z;
  interLine4 : Z;
  interLine5 : Z
}.

Module Connectors.
Local Open Scope Z_scope.

(** The COMIDs the inter-VPU table routes into a zone: the through-COMIDs
    and the non-zero to-COMIDs of the rows whose [ToZone] is the zone. *)
Definition routed_COMIDs (zone : string) (interVPUtbl : list interVPU_line)
    : list Z :=
  let rows := filter (λ l : interVPU_line, ToZone l = zone) interVPUtbl in
  ((λ l : interVPU_line, thruCOMIDs l) <$> rows)
  ++ filter (λ c, c ≠ 0) (toCOMIDs <$> rows).

(** [for comidx in ...: if comidx in cat.COMID.values: cat = cat.drop(...)]. *)
Definition drop_listed (cat : DataFrame) (comids : list Z) : DataFrame :=
  foldl (λ cat comidx,
           if decide (comidx ∈ COMID cat) then Frame.drop_COMID comidx cat
           else cat)
        cat comids.

(** [appendConnectors(cat, Connector, zone, interVPUtbl)], the connector
    table read from disk being the argument [con]. *)
Definition appendConnectors (cat con : DataFrame) (zone : string)
    (interVPUtbl : list interVPU_line) : DataFrame :=
  let cat := drop_listed cat (COMID con) in
  let con := Frame.isin_rows (routed_COMIDs zone interVPUtbl) con in
  Frame.append cat con.

End Connectors.

Module ConnectorExamples.
Import Double.
Local Open Scope Z_scope.

(** A connector table with the rows of catchments 3 and 7, and an
    inter-VPU table whose one row routes 7 into zone 01. *)
Definition connector : DataFrame :=
  mkDataFrame [3; 7]
    [("CatAreaSqKm"%string, [Num 9; Num 4]);
     ("CatSum"%string, [Num 90; Num 40]);
     ("CatPctFull"%string, [Num 100; Num 50])].

Definition inter_lines : list interVPU_line :=
  [InterVPULine (InterVPURow 7 "01" 0 0 7 "02" 0) 0 "02" 0 0 0].

End ConnectorExamples.

(** ** Category columns: [chkColumnLength] *)

From stdpp Require Import pretty.

Module ColumnCheck.
Import Double PySort.

(** [l.sort(); l.sort(key=len)] on a list of byte strings. *)
Definition sort_labels (l : list string) : list string :=
  sort_by (λ a b, String.length a <=? String.length b)%nat
    (sort_by String.leb l).

(** The order the two sorts leave the labels in: by length, and by
    characters among labels of one length. *)
Definition label_le (a b : string) : bool :=
  (String.length a <? String.length b)%nat
  || ((String.length a =? String.length b)%nat && String.leb a b).

Definition label_lt (a b : string) : Prop := label_le a b = true ∧ a ≠ b.

(** ['VALUE_' + str(x)] for an integer [x]. *)
Definition category_label (x : Z) : string := "VALUE_" +:+ pretty x.

(** [table[col_list]]: the columns in the order of the labels, for a table
    with distinct labels; a label without a column raises [KeyError]. *)
Definition reorder (table : DataFrame) (col_list : list string)
    : option DataFrame :=
  cols ← mapM (λ l, (λ cells, (l, cells)) <$> Adjust.column table l) col_list;
  Some (mkDataFrame (COMID table) cols).

(** [table.insert(loc, label, 0)]: a label the table has raises
    [ValueError], a position past the end of the columns raises
    [IndexError]. *)
Definition insert_zeros (loc : nat) (label : string) (t : DataFrame)
    : option DataFrame :=
  if decide (label ∈ (columns t).*1) then None
  else if decide (loc ≤ length (columns t)) then
    Some (mkDataFrame (COMID t)
            (take loc (columns t)
             ++ (label, replicate (length (COMID t)) (Num 0))
                :: drop loc (columns t)))
  else None.

(** [for spot in diff: here = AllCols.index(spot) + 1; table.insert(here, spot, 0)]. *)
Fixpoint insert_loop (AllCols diff : list string) (t : DataFrame)
    : option DataFrame :=
  match diff with
  | [] => Some t
  | spot :: rest =>
      here ← (λ r : nat * string, S r.1)
             <$> list_find (λ l, l = spot) AllCols;
      t' ← insert_zeros here spot t;
      insert_loop AllCols rest t'
  end.

(** [chkColumnLength(table, LandscapeLayer)], the [VALUE] column of the
    raster's attribute table being the argument [AllCols].  The key column
    of [table] is its row index; all its columns are in [columns].  The
    list made from the set difference has each missing label once; the two
    sorts that follow give one order whatever order the set is listed in. *)
Definition chkColumnLength (table : DataFrame) (AllCols : list Z)
    : option DataFrame :=
  let col_list := sort_labels (columns table).*1 in
  table ← reorder table col_list;
  if decide (length AllCols ≠ length (tail col_list)) then
    let AllCols := category_label <$> AllCols in
    let diff :=
      sort_labels (remove_dups (filter (λ l, l ∉ tail col_list) AllCols)) in
    insert_loop AllCols diff table
  else Some table.

End ColumnCheck.

Module ColumnExamples.
Import Double.
Local Open Scope Z_scope.

(** A table of zonal counts for two zones with the categories 21 and 5 of
    a raster whose categories are 5, 11 and 21. *)
Definition zonal : DataFrame :=
  mkDataFrame [0; 1]
    [("VALUE_21"%string, [Num 7; Num 8]);
     ("VALUE"%string, [Num 101; Num 102]);
     ("VALUE_5"%string, [Num 1; Num 2])].

Definition categories : list Z := [5; 11; 21].

(** The same counts in a table whose zone column is labelled [ZONE_CODE]. *)
Definition zonal_long_key : DataFrame :=
  mkDataFrame [0; 1]
    [("ZONE_CODE"%string, [Num 101; Num 102]);
     ("VALUE_5"%string, [Num 1; Num 2])].

End ColumnExamples.

(** ** The adjustments between zones: the loop of [interVPU] *)

Module InterVPU.
Import Adjust.
Local Open Scope Z_scope.

(** [throughVPUs.drop(label)] on a table indexed by COMID: the rows with
    that label go; a label the index lacks raises. *)
Definition drop_label (t : DataFrame) (label : Z) : option DataFrame :=
  if decide (label ∈ COMID t) then Some (Frame.drop_COMID label t) else None.

(** [if interLine[4] > 0: AdjustCOMs(toVPUs, ..., throughVPUs)].
    [toVPUs] is bound only when the rows of the zone have a positive
    [toCOMIDs]; using it unbound raises [NameError].  [AdjustCOMs] changes
    the table it is given in place, so the table after the call is the one
    it returns here. *)
Definition adjust_to (toVPUs : option DataFrame) (throughVPUs : DataFrame)
    (interLine : interVPU_line) : option (option DataFrame) :=
  if decide (interLine4 interLine > 0) then
    t ← toVPUs;
    Some <$> AdjustCOMs t (interLine4 interLine) (interLine0 interLine)
               (Some throughVPUs)
  else Some toVPUs.

(** [if interLine[3] > 0: AdjustCOMs(throughVPUs, ..., None)] and
    [if interLine[5] > 0: throughVPUs = throughVPUs.drop(...)]. *)
Definition adjust_through (throughVPUs : DataFrame)
    (interLine : interVPU_line) : option DataFrame :=
  throughVPUs ←
    (if decide (interLine3 interLine > 0) then
       AdjustCOMs throughVPUs (interLine3 interLine) (interLine0 interLine)
         None
     else Some throughVPUs);
  if decide (interLine5 interLine > 0) then
    drop_label throughVPUs (interLine5 interLine)
  else Some throughVPUs.

(** One turn of [for interLine in interVPUtbl.values]. *)
Definition loop_step (st : option DataFrame * DataFrame)
    (interLine : interVPU_line) : option (option DataFrame * DataFrame) :=
  toVPUs ← adjust_to st.1 st.2 interLine;
  throughVPUs ← adjust_through st.2 interLine;
  Some (toVPUs, throughVPUs).

Fixpoint adjust_lines (lines : list interVPU_line)
    (st : option DataFrame * DataFrame)
    : option (option DataFrame * DataFrame) :=
  match lines with
  | [] => Some st
  | interLine :: rest => st' ← loop_step st interLine; adjust_lines rest st'
  end.

(** The labels the loop drops from [throughVPUs]. *)
Definition dropped (lines : list interVPU_line) : list Z :=
  filter (λ c, c > 0) (interLine5 <$> lines).

End InterVPU.

Module InterVPUExamples.
Local Open Scope Z_scope.

(** One row of the inter-VPU table of zone 02: the values of catchment 2
    are taken out of catchment 1, and catchment 2 is dropped. *)
Definition lines : list interVPU_line :=
  [InterVPULine (InterVPURow 1 "01" 0 0 2 "02" 0) 0 "02" 1 0 2].

(** One row that takes the values of catchment 2 of the table of through
    values out of catchment 1 of the table of the receiving zone. *)
Definition lines_to : list interVPU_line :=
  [InterVPULine (InterVPURow 2 "01" 0 0 2 "02" 0) 1 "02" 0 1 0].

End InterVPUExamples.
(** * Properties *)

(** ** The closure traversals *)

Module ClosureTheory.
Import Closure.

Lemma pending_insert_fresh (tree : gmap Z (list Z)) k ps vis :
  tree !! k = None →
  pending (<[k := ps]> tree) vis =
    ((if decide (k ∈ vis) then O else length ps) + pending tree vis)%nat.
Proof.
  intros Hk. unfold pending.
  by rewrite (map_to_list_insert tree k ps Hk).
Qed.

Lemma pending_mono (tree : gmap Z (list Z)) (vis vis' : gset Z) :
  vis ⊆ vis' → (pending tree vis' ≤ pending tree vis)%nat.
Proof.
  intros Hsub. unfold pending.
  induction (map_to_list tree) as [|[k ps] l IH]; simpl; [lia|].
  repeat case_decide; try lia. set_solver.
Qed.

Lemma pending_visit (tree : gmap Z (list Z)) k ps vis :
  tree !! k = Some ps → k ∉ vis →
  (pending tree (vis ∪ {[k]}) + length ps ≤ pending tree vis)%nat.
Proof.
  intros Hk Hnot.
  rewrite <- (insert_delete_id tree k ps Hk).
  rewrite !pending_insert_fresh by apply lookup_delete_eq.
  rewrite decide_True by set_solver. rewrite decide_False by done.
  pose proof (pending_mono (delete k tree) vis (vis ∪ {[k]})) as Hm.
  specialize (Hm ltac:(set_solver)). lia.
Qed.

Lemma length_new_children (ps : list Z) (vis : gset Z) :
  (length (elements (list_to_set ps ∖ vis : gset Z)) ≤ length ps)%nat.
Proof.
  apply submseteq_length, NoDup_submseteq; [apply NoDup_elements|].
  intros x. rewrite elem_of_elements, elem_of_difference, elem_of_list_to_set.
  tauto.
Qed.

(** Every iteration lowers the potential: a skipped node shortens the
    deque, an expanded node pays for what it pushes with its own entry. *)
Lemma crawl_step_decreases st st' :
  crawl_step st = Some st' → (potential st' < potential st)%nat.
Proof.
  unfold crawl_step, potential. destruct st as [tree vis q]; simpl.
  destruct q as [|current rest]; [done|].
  case_decide as Hin.
  - intros [= <-]; simpl. lia.
  - unfold getitem. destruct (tree !! current) as [ps|] eqn:Hlk.
    + intros [= <-]; simpl. unfold extendleft.
      rewrite length_app, length_rev.
      pose proof (length_new_children ps (vis ∪ {[current]})).
      pose proof (pending_visit tree current ps vis Hlk Hin). lia.
    + intros [= <-]; simpl. unfold extendleft.
      rewrite length_app, length_rev.
      pose proof (length_new_children [] (vis ∪ {[current]})) as Hl.
      simpl in Hl.
      rewrite pending_insert_fresh by done.
      rewrite decide_True by set_solver.
      pose proof (pending_mono tree vis (vis ∪ {[current]})) as Hm.
      specialize (Hm ltac:(set_solver)). lia.
Qed.

(** The loop exits before the fuel runs out whenever the fuel covers the
    potential of the starting state. *)
Lemma crawl_fuel_enough fuel st :
  (potential st ≤ fuel)%nat → is_Some (crawl fuel st).
Proof.
  revert st. induction fuel as [|fuel IH]; intros st Hle; simpl.
  - destruct (crawl_step st) as [st'|] eqn:Hs; [|by eexists].
    apply crawl_step_decreases in Hs. lia.
  - destruct (crawl_step st) as [st'|] eqn:Hs; [|by eexists].
    apply IH. apply crawl_step_decreases in Hs. lia.
Qed.

(** More fuel does not change the result. *)
Lemma crawl_fuel_mono fuel fuel' st r :
  crawl fuel st = Some r → (fuel ≤ fuel')%nat → crawl fuel' st = Some r.
Proof.
  revert fuel' st. induction fuel as [|fuel IH]; intros fuel' st; simpl.
  - destruct (crawl_step st) eqn:Hs; [done|].
    intros [= <-] _. destruct fuel'; simpl; by rewrite Hs.
  - destruct (crawl_step st) as [st'|] eqn:Hs.
    + intros Hr Hle. destruct fuel' as [|fuel']; [lia|]. simpl. rewrite Hs.
      apply IH; [done|lia].
    + intros [= <-] _. destruct fuel'; simpl; by rewrite Hs.
Qed.

(** The result of the loop is a state with an empty deque. *)
Lemma crawl_result_done fuel st r :
  crawl fuel st = Some r → to_crawl r = [].
Proof.
  revert st. induction fuel as [|fuel IH]; intros st; simpl.
  - destruct (crawl_step st) eqn:Hs; [done|]. intros [= <-].
    unfold crawl_step in Hs. destruct (to_crawl st); [done|].
    case_decide; [done|]. by destruct (getitem _ _).
  - destruct (crawl_step st) as [st'|] eqn:Hs; [apply IH|]. intros [= <-].
    unfold crawl_step in Hs. destruct (to_crawl st); [done|].
    case_decide; [done|]. by destruct (getitem _ _).
Qed.

Lemma crawl_step_visited_mono st st' :
  crawl_step st = Some st' →
  visited st ⊆ visited st' ∧ (∀ x, x ∈ expanded_by st → x ∈ visited st').
Proof.
  unfold crawl_step, expanded_by. destruct (to_crawl st) as [|c rest]; [done|].
  case_decide.
  - intros [= <-]; simpl. split; [done|]. intros x Hx. by apply elem_of_nil in Hx.
  - destruct (getitem _ _). intros [= <-]; simpl. split; [set_solver|].
    intros x Hx. apply list_elem_of_singleton in Hx. set_solver.
Qed.

Lemma crawl_visited_mono fuel st r :
  crawl fuel st = Some r → visited st ⊆ visited r.
Proof.
  revert st. induction fuel as [|fuel IH]; intros st; simpl.
  - destruct (crawl_step st); [done|]. by intros [= <-].
  - destruct (crawl_step st) as [st'|] eqn:Hs; [|by intros [= <-]].
    intros Hr. apply IH in Hr. apply crawl_step_visited_mono in Hs as [Hs _].
    set_solver.
Qed.

(** The start node is in [visited] when the loop exits. *)
Lemma crawl_init_visited fuel token tree r :
  crawl fuel (init token tree) = Some r → token ∈ visited r.
Proof.
  destruct fuel as [|fuel]; simpl.
  - unfold init, crawl_step; simpl. rewrite decide_False by set_solver.
    by destruct (getitem _ _).
  - unfold init at 1, crawl_step at 1; simpl.
    rewrite decide_False by set_solver.
    destruct (getitem tree token) as [ps tree'] eqn:Hg. intros Hr.
    apply crawl_visited_mono in Hr. simpl in Hr. set_solver.
Qed.

(** What a run expands was unvisited when the run started, and nothing is
    expanded twice. *)
Lemma expansions_fresh fuel st :
  (∀ x, x ∈ expansions fuel st → x ∉ visited st) ∧ NoDup (expansions fuel st).
Proof.
  revert st. induction fuel as [|fuel IH]; intros st; simpl.
  { split; [intros x Hx; by apply elem_of_nil in Hx | constructor]. }
  destruct (crawl_step st) as [st'|] eqn:Hs.
  2:{ split; [intros x Hx; by apply elem_of_nil in Hx | constructor]. }
  destruct (IH st') as [Hfresh Hnd].
  pose proof (crawl_step_visited_mono _ _ Hs) as [Hmono Hexp].
  assert (Hhere : ∀ x, x ∈ expanded_by st → x ∉ visited st).
  { unfold expanded_by. destruct (to_crawl st); [intros x Hx; by apply elem_of_nil in Hx|].
    case_decide; intros x Hx; [by apply elem_of_nil in Hx|].
    apply list_elem_of_singleton in Hx. by subst. }
  split.
  - intros x [Hx|Hx]%elem_of_app; [by apply Hhere|].
    apply Hfresh in Hx. intros Hv. by apply Hx, Hmono.
  - apply NoDup_app. split_and!; [|by intros x Hx1 Hx2%Hfresh; apply Hx2, Hexp|done].
    unfold expanded_by. destruct (to_crawl st); [constructor|].
    case_decide; [constructor|]. apply NoDup_singleton.
Qed.

Lemma potential_init token (tree : gmap Z (list Z)) :
  potential (init token tree) = S (sum_list (length <$> (map_to_list tree).*2)).
Proof.
  unfold potential, init, pending; simpl. f_equal.
  induction (map_to_list tree) as [|[k ps] l IH]; simpl; [done|].
  rewrite decide_False by set_solver. by rewrite IH.
Qed.

Lemma crawl_total token tree :
  ∃ st, crawl (potential (init token tree)) (init token tree) = Some st
        ∧ to_crawl st = [] ∧ token ∈ visited st.
Proof.
  destruct (crawl_fuel_enough (potential (init token tree)) (init token tree))
    as [st Hst]; [lia|].
  exists st. split; [done|]. split.
  - by apply (crawl_result_done _ _ _ Hst).
  - by apply (crawl_init_visited _ _ _ _ Hst).
Qed.

(** C9: [children] and [bastards] terminate on every adjacency, cyclic or
    not.  The [while] loop of a query started at [token] exits with an
    empty deque after at most one iteration plus one per parent entry
    stored in [tree]; both functions then return a result; and the
    visited set keeps any node from being expanded twice during the
    run. *)
Theorem C9_closures_terminate token tree chkset :
  (∃ st, crawl (S (sum_list (length <$> (map_to_list tree).*2))) (init token tree)
           = Some st ∧ to_crawl st = [])
  ∧ is_Some (children token tree chkset)
  ∧ is_Some (bastards token tree chkset)
  ∧ ∀ fuel, NoDup (expansions fuel (init token tree)).
Proof.
  destruct (crawl_total token tree) as (st & Hst & Hq & Hin).
  split_and!.
  - exists st. by rewrite <- (potential_init token tree).
  - unfold children. rewrite Hst. by eexists.
  - unfold bastards, set_remove. rewrite Hst; simpl.
    rewrite decide_True by done. by eexists.
  - intros fuel. apply expansions_fresh.
Qed.

(** C4, as the code has it: [bastards] never returns its start node, and
    [children] returns its start node exactly when no universe set is
    given or the start node belongs to the universe set. *)
Theorem C4_start_node_membership token tree chkset :
  (∃ l tree', children token tree chkset = Some (l, tree')
              ∧ (token ∈ l ↔ match chkset with
                             | None => True
                             | Some chk => token ∈ chk
                             end))
  ∧ (∃ l tree', bastards token tree chkset = Some (l, tree') ∧ token ∉ l).
Proof.
  destruct (crawl_total token tree) as (st & Hst & Hq & Hin).
  split.
  - exists (elements (restrict (visited st) chkset)), (tree_of st).
    split; [unfold children; by rewrite Hst|].
    rewrite elem_of_elements. destruct chkset as [chk|]; simpl; [|tauto].
  rewrite elem_of_intersection. tauto.
  - exists (elements (restrict (visited st ∖ {[token]}) chkset)), (tree_of st).
    split.
    + unfold bastards, set_remove. rewrite Hst; simpl.
      by rewrite decide_True by done.
    + rewrite elem_of_elements. destruct chkset as [chk|]; simpl.
    * rewrite elem_of_intersection, elem_of_difference, elem_of_singleton. tauto.
    * rewrite elem_of_difference, elem_of_singleton. tauto.
Qed.

(** A cycle 1 → 2 → 1: both closures are computed, and [children] holds the
    two nodes of the cycle. *)
Lemma closures_on_a_cycle :
  (fst <$> children 1 {[1%Z := [2%Z]; 2%Z := [1%Z]]} None) = Some [2%Z; 1%Z]
  ∧ (fst <$> bastards 1 {[1%Z := [2%Z]; 2%Z := [1%Z]]} None) = Some [2%Z].
Proof. split; vm_compute; reflexivity. Qed.

(** C4, as the claim states it, fails: with a universe set that lacks the
    start node, [children] returns a list without the start node. *)
Lemma C4_children_outside_universe :
  ∃ l tree', children 1 ∅ (Some {[2%Z]}) = Some (l, tree') ∧ 1%Z ∉ l.
Proof.
  eexists _, _. split; [vm_compute; reflexivity|]. apply not_elem_of_nil.
Qed.

End ClosureTheory.

(** ** Index resolution *)

Module SwapperTheory.
Import Swapper.

#[local] Instance by_value_total : Total by_value.
Proof. intros p q. unfold by_value. lia. Qed.

#[local] Instance by_value_trans : Transitive by_value.
Proof. intros p q r. unfold by_value. lia. Qed.

Lemma zip_seq_lookup {A} (l : list A) k j v i :
  zip l (seq k (length l)) !! j = Some (v, i) → i = (k + j)%nat ∧ l !! j = Some v.
Proof.
  revert k j. induction l as [|x l IH]; intros k j; simpl; [done|].
  destruct j as [|j]; simpl.
  - intros [= <- <-]. split; [lia|done].
  - intros H. apply IH in H as [-> ?]. split; [lia|done].
Qed.

Lemma sorted_pairs_lookup coms v i :
  (v, i) ∈ sorted_pairs coms → coms !! i = Some v.
Proof.
  unfold sorted_pairs. rewrite merge_sort_Permutation.
  intros [j Hj]%list_elem_of_lookup.
  apply zip_seq_lookup in Hj as [-> ?]. done.
Qed.

Lemma sorted_pairs_values coms : (sorted_pairs coms).*1 ≡ₚ coms.
Proof.
  unfold sorted_pairs. rewrite merge_sort_Permutation.
  rewrite fst_zip; [done|]. by rewrite length_seq.
Qed.

Lemma sorted_pairs_sorted coms : StronglySorted Z.le (sorted_pairs coms).*1.
Proof.
  apply (StronglySorted_fmap fst by_value); [done|].
  apply StronglySorted_merge_sort; apply _.
Qed.

(** [coms[bsort]] is the sorted array of values. *)
Lemma take_indices_argsort coms :
  take_indices coms (argsort coms) = Some (sorted_pairs coms).*1.
Proof.
  unfold take_indices, argsort.
  apply mapM_Some_2.
  assert (Forall (λ p : Z * nat, coms !! p.2 = Some p.1) (sorted_pairs coms)) as H.
  { apply Forall_forall. intros [v i] Hin. by apply sorted_pairs_lookup. }
  induction H as [|[v i] l Hp _ IH]; simpl; constructor; done.
Qed.

(** On a sorted array, the insertion point of a value that occurs in it
    is a position of that value. *)
Lemma searchsorted1_found s v :
  StronglySorted Z.le s → v ∈ s → s !! searchsorted1 s v = Some v.
Proof.
  induction 1 as [|x s Hs IH Hall]; intros Hin; [by apply elem_of_nil in Hin|].
  simpl. apply elem_of_cons in Hin. case_decide as Hlt; simpl.
  - destruct Hin as [->|Hin]; [lia|]. by apply IH.
  - destruct Hin as [->|Hin]; [done|].
    rewrite Forall_forall in Hall. specialize (Hall v Hin).
    f_equal. lia.
Qed.

(** The insertion point of a value above every element is the length. *)
Lemma searchsorted1_above s v :
  (∀ c, c ∈ s → (c < v)%Z) → searchsorted1 s v = length s.
Proof.
  induction s as [|x s IH]; intros Hall; simpl; [done|].
  rewrite decide_True by (apply Hall; left).
  f_equal. apply IH. intros c Hc. apply Hall. by right.
Qed.

(** The insertion point of an absent value that is not above every
    element is the position of a larger element. *)
Lemma searchsorted1_absent s v :
  v ∉ s → (∃ c, c ∈ s ∧ (v < c)%Z) →
  ∃ c, s !! searchsorted1 s v = Some c ∧ (v < c)%Z.
Proof.
  induction s as [|x s IH]; intros Hnot [c [Hc Hlt]];
    [by apply elem_of_nil in Hc|].
  simpl. case_decide as Hx; simpl.
  - apply IH; [by intros ?; apply Hnot; right|]. exists c. split; [|done].
    apply elem_of_cons in Hc as [->|Hc]; [lia|done].
  - exists x. split; [done|].
  assert (x ≠ v) by (intros ->; apply Hnot; left). lia.
Qed.

(** The position [swapper] returns for one id, read off the sorted
    pairs. *)
Lemma swapper_Some coms upStream indices :
  swapper coms upStream = Some indices ↔
  Forall2 (λ u i, argsort coms !! searchsorted1 (sorted_pairs coms).*1 u = Some i)
          upStream indices.
Proof.
  unfold swapper. rewrite take_indices_argsort; simpl.
  unfold take_indices, searchsorted. rewrite mapM_Some, Forall2_fmap_l. done.
Qed.

Lemma argsort_lookup coms p v :
  (sorted_pairs coms).*1 !! p = Some v →
  ∃ i, argsort coms !! p = Some i ∧ coms !! i = Some v.
Proof.
  rewrite list_lookup_fmap. unfold argsort.
  rewrite list_lookup_fmap.
  destruct (sorted_pairs coms !! p) as [[v' i]|] eqn:Hp; simpl; [|done].
  intros [= ->]. exists i. split; [done|].
  apply sorted_pairs_lookup. apply list_elem_of_lookup. eauto.
Qed.

(** Every id that occurs in [coms] resolves to a row that holds it. *)
Lemma swapper_members coms upStream :
  (∀ u, u ∈ upStream → u ∈ coms) →
  ∃ indices, swapper coms upStream = Some indices
             ∧ take_indices coms indices = Some upStream.
Proof.
  intros Hmem.
  assert (∀ u, u ∈ upStream → ∃ i,
            argsort coms !! searchsorted1 (sorted_pairs coms).*1 u = Some i
            ∧ coms !! i = Some u) as Hres.
  { intros u Hu. apply argsort_lookup, searchsorted1_found.
    - apply sorted_pairs_sorted.
    - rewrite sorted_pairs_values. by apply Hmem. }
  clear Hmem. induction upStream as [|u us IH].
  - exists []. split; [by apply swapper_Some|done].
  - destruct IH as (is_ & Hs & Ht); [intros u' Hu'; apply Hres; by right|].
    destruct (Hres u ltac:(left)) as (i & Hi & Hc).
    exists (i :: is_). split.
    + apply swapper_Some. constructor; [done|]. by apply swapper_Some.
    + unfold take_indices in *. simpl. rewrite Hc; simpl. by rewrite Ht.
Qed.

(** C10, as the code has it.  When every element of [upStream] occurs in
    [coms] (a [coms] without duplicates in particular), the indices
    returned satisfy [coms[indices] = upStream].  The membership is not
    checked: an id absent from [coms] and below some element of it
    resolves to the row of a larger id; but an id above every element of
    [coms] gets the position [len(coms)], and [bsort[apos]] then raises
    [IndexError]. *)
Theorem C10_swapper_resolution coms :
  (∀ upStream, NoDup coms → (∀ u, u ∈ upStream → u ∈ coms) →
     ∃ indices, swapper coms upStream = Some indices
                ∧ take_indices coms indices = Some upStream)
  ∧ (∀ u, u ∉ coms → (∃ c, c ∈ coms ∧ (u < c)%Z) →
       ∃ i c, swapper coms [u] = Some [i] ∧ coms !! i = Some c ∧ (u < c)%Z)
  ∧ (∀ upStream u, u ∈ upStream → (∀ c, c ∈ coms → (c < u)%Z) →
       swapper coms upStream = None).
Proof.
  split_and!.
  - intros upStream _ Hmem. by apply swapper_members.
  - intros u Hnot Hex.
    destruct (searchsorted1_absent (sorted_pairs coms).*1 u) as (c & Hc & Hlt).
    { by rewrite sorted_pairs_values. }
    { destruct Hex as (c & Hc & Hlt). exists c.
      by rewrite sorted_pairs_values. }
    apply argsort_lookup in Hc as (i & Hi & Hci).
    exists i, c. split_and!; [|done..].
    apply swapper_Some. by repeat constructor.
  - intros upStream u Hu Habove.
    unfold swapper. rewrite take_indices_argsort; simpl.
    apply mapM_None_2, Exists_exists.
    exists (searchsorted1 (sorted_pairs coms).*1 u). split.
    + unfold searchsorted. by apply list_elem_of_fmap_2.
    + apply lookup_ge_None_2. rewrite searchsorted1_above.
      * unfold argsort. by rewrite !length_fmap.
      * intros c Hc. apply Habove. by rewrite <- sorted_pairs_values.
Qed.

Lemma C10_swapper_resolution_witness :
  (∃ indices, swapper [30; 10; 20]%Z [10; 30; 30]%Z = Some indices
              ∧ take_indices [30; 10; 20]%Z indices = Some [10; 30; 30]%Z)
  ∧ (∃ i c, swapper [30; 10; 20]%Z [15%Z] = Some [i]
            ∧ [30; 10; 20]%Z !! i = Some c ∧ (15 < c)%Z)
  ∧ swapper [30; 10; 20]%Z [10; 31]%Z = None.
Proof.
  destruct (C10_swapper_resolution [30; 10; 20]%Z) as (H1 & H2 & H3).
  split_and!.
  - apply H1; [compute_done|].
    intros u Hu. revert u Hu. apply Forall_forall. compute_done.
  - apply H2; [compute_done|].
    exists 20%Z. split; [compute_done|lia].
  - apply (H3 _ 31%Z); [compute_done|].
    apply Forall_forall. compute_done.
Defined.

(** C10, as the claim states it, fails: an id above every element of
    [coms] does not resolve to any position; the call raises. *)
Lemma C10_absent_id_raises : swapper [1; 2]%Z [3%Z] = None.
Proof. reflexivity. Qed.

End SwapperTheory.

(** ** The adjacency builder *)

Module FlowGraphTheory.
Import Closure FlowGraph.
Local Open Scope Z_scope.

Lemma lookup_append (UpCOMs : gmap Z (list Z)) k v j :
  append UpCOMs k v !! j =
    if decide (k = j) then Some (default [] (UpCOMs !! k) ++ [v])
    else UpCOMs !! j.
Proof.
  unfold append, getitem. destruct (UpCOMs !! k) as [ps|] eqn:Hk; simpl.
  - rewrite lookup_insert. by case_decide.
  - rewrite lookup_insert. case_decide; [done|].
    by rewrite lookup_insert_ne.
Qed.

(** C7: a row of the flow table with [FROMCOMID = 0] is not an edge.
    Whatever the adjacency holds when the loop reaches the row, after the
    row [TOCOMID] is a key with an empty parent list, every other key
    keeps its list, and so no list gains a parent; this holds in
    particular for the adjacency built from any rows processed before. *)
Theorem C7_headwater_row (UpCOMs : gmap Z (list Z)) (row : flow_row) :
  FROMCOMID row = 0 →
  add_row UpCOMs row !! TOCOMID row = Some []
  ∧ (∀ k, k ≠ TOCOMID row → add_row UpCOMs row !! k = UpCOMs !! k)
  ∧ (∀ k ps p, add_row UpCOMs row !! k = Some ps → p ∈ ps →
       ∃ ps0, UpCOMs !! k = Some ps0 ∧ p ∈ ps0)
  ∧ (∀ before, foldl add_row UpCOMs (before ++ [row]) !! TOCOMID row = Some []).
Proof.
  intros Hfrom. unfold add_row. rewrite decide_True by done.
  split_and!.
  - apply lookup_insert_eq.
  - intros k Hk. by apply lookup_insert_ne.
  - intros k ps p. destruct (decide (k = TOCOMID row)) as [->|Hne].
    + rewrite lookup_insert_eq. intros [= <-] Hp. by apply elem_of_nil in Hp.
    + rewrite lookup_insert_ne by done. eauto.
  - intros before. rewrite foldl_app; simpl. unfold add_row.
    rewrite decide_True by done. apply lookup_insert_eq.
Qed.

Lemma C7_headwater_row_witness :
  add_row {[7 := [5; 6]; 8 := [7]]} (FlowRow 7 0) !! 7 = Some []
  ∧ add_row {[7 := [5; 6]; 8 := [7]]} (FlowRow 7 0) !! 8 = Some [7].
Proof.
  destruct (C7_headwater_row {[7 := [5; 6]; 8 := [7]]} (FlowRow 7 0))
    as (H1 & H2 & _); [reflexivity|].
  split; [exact H1|]. rewrite H2; [reflexivity|]. simpl. lia.
Defined.

(** A row with a non-zero [FROMCOMID] is an edge: it adds that parent at
    the end of the list of [TOCOMID]. *)
Lemma add_row_edge (UpCOMs : gmap Z (list Z)) (row : flow_row) :
  FROMCOMID row ≠ 0 →
  add_row UpCOMs row !! TOCOMID row =
    Some (default [] (UpCOMs !! TOCOMID row) ++ [FROMCOMID row]).
Proof.
  intros Hfrom. unfold add_row. rewrite decide_False by done.
  rewrite lookup_append. by rewrite decide_True.
Qed.

Lemma elem_of_drop_others (thru : list Z) (others : list Z) (flow : list flow_row) r :
  r ∈ foldl (λ flow y,
               if decide (y ∈ thru) then flow
               else filter (λ r, FROMCOMID r ≠ y) flow)
            flow others
  ↔ r ∈ flow ∧ ∀ y, y ∈ others → y ∉ thru → FROMCOMID r ≠ y.
Proof.
  revert flow. induction others as [|y others IH]; intros flow; simpl.
  - split; [|tauto]. intros Hr. split; [done|]. intros y Hy. by apply elem_of_nil in Hy.
  - rewrite IH. case_decide as Hthru.
    + split.
      * intros [Hr Hall]. split; [done|]. intros y' [->|Hy']%elem_of_cons; [done|].
        by apply Hall.
      * intros [Hr Hall]. split; [done|]. intros y' Hy'. apply Hall. by right.
    + rewrite list_elem_of_filter. split.
      * intros [[Hne Hr] Hall]. split; [done|].
        intros y' [->|Hy']%elem_of_cons; [done|]. by apply Hall.
      * intros [Hr Hall]. split_and!; [|done|].
        -- apply Hall; [left|done].
        -- intros y' Hy'. apply Hall. by right.
Qed.

(** The rows that reach the loop of [UpcomDict]: those with a [TOCOMID],
    whose source is not a coastline, is not on the removal list, and is
    zero, a flowline of the zone or a through-COMID of the inter-VPU
    table. *)
Lemma elem_of_filter_flow flow coast interVPUtbl r :
  r ∈ filter_flow flow coast interVPUtbl ↔
  r ∈ flow
  ∧ TOCOMID r ≠ 0
  ∧ (FROMCOMID r ∉ (flowline_COMID <$> filter (λ f, FTYPE f = "Coastline") coast))
  ∧ (FROMCOMID r ∉ filter (λ c, c ≠ 0) (removeCOMs <$> interVPUtbl))
  ∧ (FROMCOMID r = 0
     ∨ FROMCOMID r ∈ (flowline_COMID <$> coast)
     ∨ FROMCOMID r ∈ (thruCOMIDs <$> interVPUtbl)).
Proof.
  unfold filter_flow. rewrite elem_of_drop_others.
  rewrite !list_elem_of_filter.
  split.
  - intros [(Hrem & Hcoast & Hto & Hr) Hall]. split_and!; [done..|].
    destruct (decide (FROMCOMID r = 0)) as [|Hz]; [by left|].
    destruct (decide (FROMCOMID r ∈ (flowline_COMID <$> coast))) as [|Hc]; [by right; left|].
    destruct (decide (FROMCOMID r ∈ (thruCOMIDs <$> interVPUtbl))) as [|Ht]; [by right; right|].
    exfalso. apply (Hall (FROMCOMID r)); [|done..].
    apply list_elem_of_filter. split; [done|].
    apply list_elem_of_fmap_2. by rewrite !list_elem_of_filter.
  - intros (Hr & Hto & Hcoast & Hrem & Hsrc). split; [done|].
    intros y [[Hy1 Hy2] _]%list_elem_of_filter Hy3 Heq. subst y.
    destruct Hsrc as [?|[?|?]]; done.
Qed.

(** A headwater row (no source, some [TOCOMID]) reaches the loop unless the
    flowline table lists a coastline with COMID 0. *)
Lemma headwater_row_reaches_loop flow coast interVPUtbl r :
  r ∈ flow → FROMCOMID r = 0 → TOCOMID r ≠ 0 →
  0 ∉ (flowline_COMID <$> filter (λ f, FTYPE f = "Coastline") coast) →
  r ∈ filter_flow flow coast interVPUtbl.
Proof.
  intros Hr Hfrom Hto Hcoast. apply elem_of_filter_flow.
  rewrite Hfrom. split_and!; [done..| |by left].
  rewrite list_elem_of_filter. tauto.
Qed.

End FlowGraphTheory.

(** ** The node sets *)

Module VectorsTheory.
Import Closure Vectors.
Local Open Scope Z_scope.

Lemma zone_COMIDs_spec catch interVPUtbl zone c :
  c ∈ zone_COMIDs catch interVPUtbl zone ↔
  c ≠ 0 ∧ c ∈ (catch ++
    (thruCOMIDs <$> filter (λ r, ToZone r = zone ∧ DropCOMID r = 0) interVPUtbl)).
Proof.
  unfold zone_COMIDs. case_decide as H0.
  - rewrite list_elem_of_filter. tauto.
  - split; [|tauto]. intros Hc. split; [|done]. by intros ->.
Qed.

Lemma cats_of_spec cat c : c ∈ cats_of cat ↔ c ≠ 0 ∧ c ∈ cat.
Proof.
  unfold cats_of. rewrite elem_of_difference, elem_of_list_to_set.
  rewrite elem_of_singleton. tauto.
Qed.

(** C8, as the code has it: the query COMIDs of a zone, the array
    [AllCOMs] and the universe set hold exactly the non-zero ids of their
    sources, so none of them contains zero; an id below zero is kept like
    any other non-zero id. *)
Theorem C8_node_sets_without_zero catch interVPUtbl zone cat tables :
  (0 ∉ zone_COMIDs catch interVPUtbl zone)
  ∧ (0 ∉ cats_of cat)
  ∧ (∀ all, AllCOMs tables = Some all → 0 ∉ all)
  ∧ (∀ c, c ∈ zone_COMIDs catch interVPUtbl zone ↔
       c ≠ 0 ∧ c ∈ (catch ++
         (thruCOMIDs <$> filter (λ r, ToZone r = zone ∧ DropCOMID r = 0) interVPUtbl)))
  ∧ (∀ c, c ∈ cats_of cat ↔ c ≠ 0 ∧ c ∈ cat).
Proof.
  split_and!.
  - rewrite zone_COMIDs_spec. tauto.
  - rewrite cats_of_spec. tauto.
  - intros all. unfold AllCOMs. destruct tables; [done|]. intros [= <-].
    rewrite list_elem_of_filter. tauto.
  - apply zone_COMIDs_spec.
  - apply cats_of_spec.
Qed.

(** C8, as the claim states it, fails: a negative id in the catchment
    table stays in the query COMIDs and in the universe set. *)
Lemma C8_negative_id_kept :
  zone_COMIDs [-5; 0; 7] [] "01" = [-5; 7]
  ∧ AllCOMs [[-5; 0; 7]] = Some [-5; 7]
  ∧ -5 ∈ cats_of [-5; 7].
Proof. split_and!; [reflexivity..|]. compute_done. Qed.

(** The universe set stays free of zero when zone 14 removes its one
    catchment from it. *)
Lemma zone_cats_without_zero zone (cats cats' : gset Z) :
  zone_cats zone cats = Some cats' → 0 ∉ cats → 0 ∉ cats'.
Proof.
  unfold zone_cats, set_remove.
repeat case_decide; intros [= <-] Hzero; [|done].
by intros [? _]%elem_of_difference.
Qed.

End VectorsTheory.

(** ** Arithmetic on cells *)

Module DoubleTheory.
Import Double.

Lemma Qis_zero_false q : ¬ (q == 0)%Q → Qis_zero q = false.
Proof.
  unfold Qis_zero, Qeq. simpl. intros H. apply Z.eqb_neq. lia.
Qed.

Lemma Qis_zero_true q : (q == 0)%Q → Qis_zero q = true.
Proof.
  unfold Qis_zero, Qeq. simpl. intros H. apply Z.eqb_eq. lia.
Qed.

Lemma sum_cons a l : sum (a :: l) = add a (sum l).
Proof. reflexivity. Qed.

(** The sum of finite cells is the finite cell of their exact sum. *)
Lemma sum_Num ws : ∃ q, sum (Num <$> ws) = Num q ∧ (q == Qsum ws)%Q.
Proof.
  induction ws as [|w ws (q & Hq & Heq)].
  - exists 0%Q. split; [done|reflexivity].
  - rewrite fmap_cons, sum_cons, Hq. simpl.
    exists (Qred (w + q)). split; [done|].
    rewrite Qred_correct, Heq. reflexivity.
Qed.

(** The weighted sum of cells that all hold [p]. *)
Lemma sum_weighted_const p (a : list double) ws :
  (∀ v, v ∈ a → v = Num p) → length a = length ws →
  ∃ q, sum (zip_with mul a (Num <$> ws)) = Num q ∧ (q == p * Qsum ws)%Q.
Proof.
  revert a. induction ws as [|w ws IH]; intros a Ha Hlen.
  - destruct a; [|done]. exists 0%Q. split; [done|]. simpl. ring.
  - destruct a as [|v a]; [done|].
    destruct (IH a) as (q & Hq & Heq).
    { intros v' Hv'. apply Ha. by right. }
    { simpl in Hlen. lia. }
    rewrite fmap_cons. cbn [zip_with]. rewrite sum_cons, Hq.
    rewrite (Ha v) by left. simpl.
    exists (Qred (Qred (p * w) + q)). split; [done|].
    rewrite !Qred_correct, Heq. ring.
Qed.

(** The weighted average of cells that all hold [p], over finite weights
    whose sum is not zero, is [p]. *)
Lemma ma_average_const p (a : list double) ws :
  (∀ v, v ∈ a → v = Num p) → length a = length ws →
  ¬ (Qsum ws == 0)%Q →
  ma_average a (Num <$> ws) = Num (Qred p).
Proof.
  intros Ha Hlen Hnz. unfold ma_average.
  destruct (sum_weighted_const p a ws Ha Hlen) as (n & -> & Hn).
  destruct (sum_Num ws) as (d & -> & Hd). simpl.
  rewrite Qis_zero_false by (by rewrite Hd).
  f_equal. apply Qred_complete. rewrite Hn, Hd. field. done.
Qed.

Lemma nansum_Num ws : ∃ q, nansum (Num <$> ws) = Num q ∧ (q == Qsum ws)%Q.
Proof.
  unfold nansum. rewrite <- list_fmap_compose.
  replace ((λ a, if is_nan a then Num 0 else a) ∘ Num) with Num by done.
  apply sum_Num.
Qed.

End DoubleTheory.

(** On binary64 cells the average of cells that all hold 100 can miss 100
    by a rounding error: with the weights 0.1, 0.2 and 0.3 it is the double
    just below 100.  What is stated of a value of [Double.ma_average] is
    stated for weights on which no operation rounds. *)
Lemma ma_average_binary64_rounds :
  Binary64.ma_average [100; 100; 100]%float
    [Binary64.tenth; Binary64.fifth; Binary64.three_tenths]
  = 0x1.8ffffffffffffp+6%float.
Proof. vm_compute. reflexivity. Qed.

(** With the weights 3/4, 1/4 and 1/2, which lie on a binary grid, no
    operation rounds and the average is 100. *)
Lemma ma_average_binary64_grid :
  Binary64.ma_average [100; 100; 100]%float [0.75; 0.25; 0.5]%float
  = 100%float.
Proof. vm_compute. reflexivity. Qed.

(** ** The reduction *)

Module AccumTheory.
Import Double Label Swapper Accum DoubleTheory.

Lemma select_filter {A} (f : A → bool) (l : list A) :
  select (f <$> l) l = filter (λ x, f x = true) l.
Proof.
  induction l as [|x l IH]; [done|].
  rewrite fmap_cons, filter_cons. simpl. case_decide as Hf.
  - by rewrite Hf, IH.
  - by destruct (f x).
Qed.

Lemma outT_ids arr COMIDs lengths upStream ids outs :
  outT arr COMIDs lengths upStream = Some (ids, outs) →
  ids = filter (λ c, c ∈ COMID arr) COMIDs.
Proof.
  unfold outT. destruct (swapper _ _); simpl; [|done].
  destruct (column_loop _ _ _ _ _); simpl; [|done].
  intros [= <- _]. rewrite select_filter.
  apply list_filter_iff. intros c. by rewrite bool_decide_eq_true.
Qed.

(** The shape of a successful call. *)
Lemma Accumulation_Some arr COMIDs lengths upStream tbl_type out :
  Accumulation arr COMIDs lengths upStream tbl_type = Some out →
  ∃ ids outs labels area areav,
    outT arr COMIDs lengths upStream = Some (ids, outs)
    ∧ output_labels tbl_type (columns arr).*1 = Some labels
    ∧ area_column labels = Some area
    ∧ outs !! area = Some areav
    ∧ out = mkDataFrame ids (zip labels (blank_from_2 (eq_zero <$> areav) outs)).
Proof.
  unfold Accumulation.
  destruct (outT _ _ _ _) as [[ids outs]|] eqn:HT; simpl; [|done].
  destruct (output_labels _ _) as [labels|] eqn:HL; simpl; [|done].
  destruct (area_column labels) as [area|] eqn:HA; simpl; [|done].
  destruct (outs !! area) as [areav|] eqn:Hv; simpl; [|done].
  intros [= <-]. by exists ids, outs, labels, area, areav.
Qed.

Lemma lookup_blank mask col r v :
  blank mask col !! r = Some v →
  ∃ (b : bool) w, mask !! r = Some b ∧ col !! r = Some w
                  ∧ v = if b then NaN else w.
Proof.
  unfold blank. rewrite lookup_zip_with_Some.
  intros (b & w & -> & ? & ?). eauto.
Qed.

Lemma segment_loop_length f ls i x z z' :
  segment_loop f ls i x z = Some z' → length z' = length z.
Proof.
  revert i x z. induction ls as [|n ls IH]; intros i x z; simpl.
  - by intros [= <-].
  - case_decide as Hi; [|done]. intros Hz%IH. by rewrite length_insert in Hz.
Qed.

(** What the loop over the segments leaves in [z]: the entries below the
    start position are kept, and entry [i + j] holds the reduction of
    segment [j], which starts where the segments before it end. *)
Lemma segment_loop_lookup f ls i x z z' :
  segment_loop f ls i x z = Some z' →
  (∀ j, (j < i)%nat → z' !! j = z !! j)
  ∧ (∀ j n, ls !! j = Some n →
       z' !! (i + j)%nat = Some (f (x + sum_list (take j ls))%nat n)).
Proof.
  revert i x z. induction ls as [|n ls IH]; intros i x z; simpl.
  - intros [= <-]. split; [done|]. intros j n Hj. done.
  - case_decide as Hi; [|done]. intros H.
    destruct (IH _ _ _ H) as [Hlow Hseg]. split.
    + intros j Hj. rewrite Hlow by lia. apply list_lookup_insert_ne. lia.
    + intros [|j] m; simpl.
      * intros [= <-]. rewrite Nat.add_0_r, Hlow by lia.
        rewrite Nat.add_0_r. by apply list_lookup_insert_eq.
      * intros Hj. specialize (Hseg j m Hj).
        replace (i + S j)%nat with (S i + j)%nat by lia. rewrite Hseg.
        do 2 f_equal. lia.
Qed.

Lemma accumulate_column_length arr indices lengths col c z z' :
  accumulate_column arr indices lengths col c z = Some z' →
  length z' = length z.
Proof.
  unfold accumulate_column.
  destruct (take_indices c indices); simpl; [|done].
  destruct (contains "PctFull" col).
  - destruct (columns arr !! O); simpl; [|done].
    destruct (take_indices _ indices); simpl; [|done].
    apply segment_loop_length.
  - apply segment_loop_length.
Qed.

(** Column [k] of [outT] is the result of the loop body on column [k] of
    the metric table. *)
Lemma column_loop_lookup arr indices lengths cols z outs k col c :
  column_loop arr indices lengths cols z = Some outs →
  cols !! k = Some (col, c) →
  ∃ zprev zk, accumulate_column arr indices lengths col c zprev = Some zk
              ∧ outs !! k = Some zk
              ∧ length zprev = length z.
Proof.
  revert z outs k. induction cols as [|[col' c'] cols IH]; intros z outs k; [done|].
  simpl. destruct (accumulate_column _ _ _ col' c' z) as [z'|] eqn:Hz'; simpl; [|done].
  destruct (column_loop _ _ _ cols z') as [outs'|] eqn:Houts; simpl; [|done].
  intros [= <-]. destruct k as [|k]; simpl.
  - intros [= <- <-]. by exists z, z'.
  - intros Hk. destruct (IH _ _ _ Houts Hk) as (zp & zk & ? & ? & Hlen).
    exists zp, zk. split_and!; [done..|].
    rewrite Hlen. by eapply accumulate_column_length.
Qed.

Lemma column_loop_length arr indices lengths cols z outs :
  column_loop arr indices lengths cols z = Some outs →
  length outs = length cols.
Proof.
  revert z outs. induction cols as [|[col' c'] cols IH]; intros z outs; simpl.
  - by intros [= <-].
  - destruct (accumulate_column _ _ _ _ _ _) as [z'|]; simpl; [|done].
    destruct (column_loop _ _ _ cols z') as [outs'|] eqn:Houts; simpl; [|done].
    intros [= <-]. simpl. f_equal. by eapply IH.
Qed.

(** Row selection by a mask: the entry at a kept position [i] lands at the
    number of kept positions before [i]. *)
Lemma select_lookup {A} (mask : list bool) (a : list A) i :
  mask !! i = Some true →
  select mask a !! length (filter (λ b, b = true) (take i mask)) = a !! i.
Proof.
  revert a i. induction mask as [|b mask IH]; intros a i; [done|].
  destruct i as [|i]; simpl.
  - intros [= ->]. by destruct a.
  - intros Hi. destruct a as [|x a].
    { simpl. by destruct b. }
    rewrite filter_cons. destruct b; simpl.
    + by apply IH.
    + by apply IH.
Qed.

Lemma take_indices_slice {A} (a : list A) idx d x n :
  take_indices a idx = Some d →
  take_indices a (slice idx x n) = Some (slice d x n).
Proof.
  unfold take_indices, slice. rewrite !mapM_Some. intros H.
  by apply Forall2_take, Forall2_drop.
Qed.

Lemma take_indices_Forall2 {A} (a : list A) idx d :
  take_indices a idx = Some d ↔ Forall2 (λ i v, a !! i = Some v) idx d.
Proof. apply mapM_Some. Qed.

Lemma cells_of_weights (area : list double) rows vs ws :
  take_indices area rows = Some vs →
  Forall2 (λ r w, area !! r = Some (Num w)) rows ws →
  vs = Num <$> ws.
Proof.
  rewrite take_indices_Forall2. intros Har. revert ws.
  induction Har as [|r v rows vs Hv _ IH]; intros ws Hw.
  - by inversion Hw.
  - inversion Hw as [|? w ? ws' Hrw Hrest]; subst. simpl.
    rewrite Hv in Hrw. injection Hrw as ->. f_equal. by apply IH.
Qed.

(** The value the loop body leaves at a query position for a column whose
    label contains ['PctFull']. *)
Lemma accumulate_column_pct arr indices lengths col c z z' acol area d ar i n :
  accumulate_column arr indices lengths col c z = Some z' →
  contains "PctFull" col = true →
  columns arr !! O = Some (acol, area) →
  take_indices c indices = Some d →
  take_indices area indices = Some ar →
  lengths !! i = Some n →
  z' !! i = Some (reduce_pct d ar (sum_list (take i lengths)) n).
Proof.
  unfold accumulate_column. intros H Hpct Ha Hd Hr Hn.
  rewrite Hd, Hpct, Ha in H. simpl in H. rewrite Hr in H. simpl in H.
  apply segment_loop_lookup in H as [_ H]. by apply (H i n).
Qed.

(** The same for a column whose label does not contain ['PctFull']. *)
Lemma accumulate_column_sum arr indices lengths col c z z' d i n :
  accumulate_column arr indices lengths col c z = Some z' →
  contains "PctFull" col = false →
  take_indices c indices = Some d →
  lengths !! i = Some n →
  z' !! i = Some (reduce_sum d (sum_list (take i lengths)) n).
Proof.
  unfold accumulate_column. intros H Hpct Hd Hn.
  rewrite Hd, Hpct in H. simpl in H.
  apply segment_loop_lookup in H as [_ H]. by apply (H i n).
Qed.

Lemma accumulate_column_indices arr indices lengths col c z z' :
  accumulate_column arr indices lengths col c z = Some z' →
  ∃ d, take_indices c indices = Some d.
Proof.
  unfold accumulate_column. destruct (take_indices c indices); [eauto|done].
Qed.

(** The aggregation of a segment whose rows all hold [p] in the column,
    with finite weights of non-zero sum. *)
Lemma reduce_pct_const (c area : list double) indices d ar x n ws p :
  take_indices c indices = Some d →
  take_indices area indices = Some ar →
  (∀ r, r ∈ slice indices x n → c !! r = Some (Num p)) →
  Forall2 (λ r w, area !! r = Some (Num w)) (slice indices x n) ws →
  ¬ (Qsum ws == 0)%Q →
  reduce_pct d ar x n = Num (Qred p).
Proof.
  intros Hd Har Hc Hw Hnz. unfold reduce_pct.
  apply (take_indices_slice _ _ _ x n) in Hd, Har.
  rewrite (cells_of_weights area _ _ ws Har Hw).
  apply take_indices_Forall2 in Hd.
  apply ma_average_const; [| |done].
  - intros v (v' & -> & Hv')%list_elem_of_fmap.
    apply list_elem_of_lookup in Hv' as [j Hj].
    destruct (Forall2_lookup_r _ _ _ _ _ Hd Hj) as (r & Hr & Hcr).
    rewrite (Hc r) in Hcr by (apply list_elem_of_lookup; eauto).
    by injection Hcr as <-.
  - rewrite length_fmap. rewrite <- (Forall2_length _ _ _ Hd).
    by apply Forall2_length in Hw.
Qed.

Lemma reduce_sum_Num (area : list double) indices ar x n ws :
  take_indices area indices = Some ar →
  Forall2 (λ r w, area !! r = Some (Num w)) (slice indices x n) ws →
  ∃ q, reduce_sum ar x n = Num q ∧ (q == Qsum ws)%Q.
Proof.
  intros Har Hw. unfold reduce_sum.
  apply (take_indices_slice _ _ _ x n) in Har.
  rewrite (cells_of_weights area _ _ ws Har Hw). apply nansum_Num.
Qed.

Lemma outT_Some arr COMIDs lengths upStream ids outs :
  outT arr COMIDs lengths upStream = Some (ids, outs) →
  ∃ indices outs0,
    swapper (COMID arr) upStream = Some indices
    ∧ column_loop arr indices lengths (columns arr)
        (replicate (length COMIDs) (Num 0)) = Some outs0
    ∧ ids = select ((λ c, bool_decide (c ∈ COMID arr)) <$> COMIDs) COMIDs
    ∧ outs = select ((λ c, bool_decide (c ∈ COMID arr)) <$> COMIDs) <$> outs0.
Proof.
  unfold outT. destruct (swapper _ _) as [indices|] eqn:Hsw; simpl; [|done].
  destruct (column_loop _ _ _ _ _) as [outs0|] eqn:Hloop; simpl; [|done].
  intros [= <- <-]. by exists indices, outs0.
Qed.

Lemma output_labels_length tbl_type cols labels :
  output_labels tbl_type cols = Some labels → length labels = length cols.
Proof.
  unfold output_labels. repeat case_decide; intros [= <-]; by rewrite length_fmap.
Qed.

Lemma column_loop_lengths arr indices lengths cols z outs :
  column_loop arr indices lengths cols z = Some outs →
  Forall (λ col, length col = length z) outs.
Proof.
  revert z outs. induction cols as [|[col c] cols IH]; intros z outs; simpl.
  - intros [= <-]. constructor.
  - destruct (accumulate_column _ _ _ _ _ _) as [z'|] eqn:Hz'; simpl; [|done].
    destruct (column_loop _ _ _ cols z') as [outs'|] eqn:Houts; simpl; [|done].
    intros [= <-]. apply accumulate_column_length in Hz'.
    constructor; [done|]. rewrite <- Hz'. by eapply IH.
Qed.

Lemma select_length {A B} (mask : list bool) (a : list A) (b : list B) :
  length a = length b → length (select mask a) = length (select mask b).
Proof.
  revert a b. induction mask as [|m mask IH]; intros [|x a] [|y b]; simpl; try done.
  intros [= Hlen]. destruct m; simpl; auto.
Qed.

Lemma blank_length mask col :
  length mask = length col → length (blank mask col) = length col.
Proof. intros H. unfold blank. rewrite length_zip_with. lia. Qed.

(** Every column of the output has one cell per row. *)
Lemma Accumulation_columns_length arr COMIDs lengths upStream tbl_type out :
  Accumulation arr COMIDs lengths upStream tbl_type = Some out →
  ∀ name cells, (name, cells) ∈ columns out → length cells = length (COMID out).
Proof.
  intros (ids & outs & labels & area & areav & HT & _ & _ & Hv & ->)%Accumulation_Some.
  apply outT_Some in HT as (indices & outs0 & _ & Hloop & -> & ->).
  apply column_loop_lengths in Hloop. rewrite length_replicate in Hloop.
  set (keep := (λ c, bool_decide (c ∈ COMID arr)) <$> COMIDs) in *.
  assert (Forall (λ col, length col = length (select keep COMIDs))
                 (select keep <$> outs0)) as Hsel.
  { apply Forall_fmap. eapply Forall_impl; [exact Hloop|].
    intros col Hcol. simpl. by apply select_length. }
  assert (length areav = length (select keep COMIDs)) as Harea.
  { rewrite Forall_forall in Hsel. apply Hsel.
    apply list_elem_of_lookup. eauto. }
  intros name cells. simpl.
  intros [k Hk]%list_elem_of_lookup.
  apply lookup_zip_with_Some in Hk as (l & c & [= <- <-] & _ & Hc).
  destruct (select keep <$> outs0) as [|first rest] eqn:Houts; [done|].
  apply Forall_cons in Hsel as [Hfirst Hrest].
  destruct k as [|k]; simpl in Hc.
  - by injection Hc as <-.
  - rewrite list_lookup_fmap in Hc.
    destruct (rest !! k) as [col|] eqn:Hcol; simpl in Hc; [|done].
    injection Hc as <-. rewrite Forall_forall in Hrest.
    assert (length col = length (select keep COMIDs)) as Hlen.
    { apply Hrest. apply list_elem_of_lookup. eauto. }
    rewrite blank_length; [done|]. rewrite length_fmap. congruence.
Qed.

(** C6: the rows of the table [Accumulation] returns are the query ids
    that have a row in the metric table, in query order, and every column
    has one cell per row.  Every COMID of the output is thus one of the
    query ids, and a query id without a row in the metric table (an id that
    is in the closure arrays only for the traversal) is absent from the
    output. *)
Theorem C6_output_rows arr COMIDs lengths upStream tbl_type out :
  Accumulation arr COMIDs lengths upStream tbl_type = Some out →
  COMID out = filter (λ c, c ∈ COMID arr) COMIDs
  ∧ (∀ c, c ∈ COMID out → c ∈ COMIDs ∧ c ∈ COMID arr)
  ∧ (∀ c, c ∉ COMID arr → c ∉ COMID out)
  ∧ (∀ name cells, (name, cells) ∈ columns out →
       length cells = length (COMID out)).
Proof.
  intros Hacc.
  pose proof (Accumulation_columns_length _ _ _ _ _ _ Hacc) as Hshape.
  apply Accumulation_Some in Hacc
    as (ids & outs & labels & area & areav & HT & _ & _ & _ & ->).
  apply outT_ids in HT as ->. simpl in *. split_and!.
  - done.
  - intros c. rewrite list_elem_of_filter. tauto.
  - intros c Hc. rewrite list_elem_of_filter. tauto.
  - done.
Qed.

(** C2, as the code has it: in a row whose accumulated area (the value,
    before the overwrite, of the column that [area] names) is zero, every
    column of the output from the third on is NaN; the column next to
    [COMID] is left as accumulated. *)
Theorem C2_zero_area_rows arr COMIDs lengths upStream tbl_type out :
  Accumulation arr COMIDs lengths upStream tbl_type = Some out →
  ∃ ids outs labels area areav,
    outT arr COMIDs lengths upStream = Some (ids, outs)
    ∧ output_labels tbl_type (columns arr).*1 = Some labels
    ∧ area_column labels = Some area
    ∧ outs !! area = Some areav
    ∧ COMID out = ids
    ∧ (∀ r a, areav !! r = Some a → eq_zero a = true →
         ∀ k name cells v,
           columns out !! S k = Some (name, cells) → cells !! r = Some v →
           v = NaN)
    ∧ (∀ name cells, columns out !! O = Some (name, cells) → outs !! O = Some cells).
Proof.
  intros (ids & outs & labels & area & areav & HT & HL & HA & Hv & ->)%Accumulation_Some.
  exists ids, outs, labels, area, areav. split_and!; try done.
  - intros r a Hr Hz k name cells v. simpl.
    rewrite lookup_zip_with_Some. intros (l & c & [= <- <-] & _ & Hc).
    destruct outs as [|first rest]; [done|]. simpl in Hc.
    rewrite list_lookup_fmap in Hc.
    destruct (rest !! k) as [col|]; simpl in Hc; [|done].
    injection Hc as <-. intros (b & w & Hb & _ & ->)%lookup_blank.
    rewrite list_lookup_fmap, Hr in Hb. simpl in Hb.
    injection Hb as <-. by rewrite Hz.
  - intros name cells. simpl.
    rewrite lookup_zip_with_Some. intros (l & c & [= <- <-] & _ & Hc).
    destruct outs as [|first rest]; [done|]. done.
Qed.

(** Areas on a binary grid: the weights of the rows and their exact sum. *)
Lemma grid_weights (area : list double) rows (ks : list Z) (s : nat) :
  Forall2 (λ r k, ∃ w, area !! r = Some (Num w)
                       ∧ (w == inject_Z k / inject_Z (2 ^ Z.of_nat s))%Q)
          rows ks →
  ∃ ws, Forall2 (λ r w, area !! r = Some (Num w)) rows ws
        ∧ (Qsum ws
           == inject_Z (foldr Z.add 0%Z ks) / inject_Z (2 ^ Z.of_nat s))%Q.
Proof.
  induction 1 as [|r k rows ks (w & Hw & Heq) _ (ws & Hws & Hsum)].
  - exists []. split; [constructor|]. simpl. unfold Qdiv. ring.
  - exists (w :: ws). split; [by constructor|]. simpl.
    rewrite Heq, Hsum, inject_Z_plus. unfold Qdiv. ring.
Qed.

Lemma grid_total_nonzero (K : Z) (s : nat) :
  (0 < K)%Z → ¬ (inject_Z K / inject_Z (2 ^ Z.of_nat s) == 0)%Q.
Proof.
  intros HK Hz.
  assert (0 < 2 ^ Z.of_nat s)%Z as Hp by (apply Z.pow_pos_nonneg; lia).
  assert (¬ (inject_Z (2 ^ Z.of_nat s) == 0)%Q) as Hnz.
  { unfold Qeq. simpl. lia. }
  assert (inject_Z K == 0)%Q as H0.
  { rewrite <- (Qmult_div_r (inject_Z K) (inject_Z (2 ^ Z.of_nat s)) Hnz).
    rewrite Hz. ring. }
  unfold Qeq in H0. simpl in H0. lia.
Qed.

Lemma zero_weights (area : list double) rows :
  Forall (λ r, area !! r = Some (Num 0)) rows →
  ∃ ws, Forall2 (λ r w, area !! r = Some (Num w)) rows ws
        ∧ (Qsum ws == 0)%Q.
Proof.
  induction 1 as [|r rows Hr _ (ws & Hws & Hsum)].
  - exists []. split; [constructor|reflexivity].
  - exists (0%Q :: ws). split; [by constructor|]. simpl. rewrite Hsum. ring.
Qed.

(** C5, as the code has it.  Take a column whose label contains
    ['PctFull'] and a query id [q] that is kept in the output, in a table
    laid out as [createCatStats] lays it out (the column next to [COMID] is
    the one [area] names, and is not a ['PctFull'] column).  The output
    holds exactly 100 for [q] in that column when the rows of its closure
    all hold 100 there and have areas on a binary grid: non-negative
    multiples [k / 2^s] of one power of two, with a sum other than zero and
    [100 * sum k ≤ 2^53].  On such areas binary64 computes the products
    [100 * area], their sum, the sum of the areas and the quotient without
    rounding, in whatever order it adds; that is what the bounds on [k] and
    [s] are for.  When every row of the closure has an area of zero, or the
    closure has no row, the output holds NaN, whatever the cells are. *)
Theorem C5_pctfull_of_full_members arr COMIDs lengths upStream tbl_type out
    indices k col c acol area i n q :
  Accumulation arr COMIDs lengths upStream tbl_type = Some out →
  swapper (COMID arr) upStream = Some indices →
  columns arr !! k = Some (col, c) →
  contains "PctFull" col = true →
  columns arr !! O = Some (acol, area) →
  contains "PctFull" acol = false →
  output_labels tbl_type (columns arr).*1 ≫= area_column = Some O →
  COMIDs !! i = Some q →
  q ∈ COMID arr →
  lengths !! i = Some n →
  ∃ p name cells,
    COMID out !! p = Some q
    ∧ columns out !! k = Some (name, cells)
    ∧ (∀ (ks : list Z) (s : nat),
         (∀ r, r ∈ slice indices (sum_list (take i lengths)) n →
               c !! r = Some (Num 100)) →
         Forall2 (λ r k, ∃ w, area !! r = Some (Num w)
                              ∧ (w == inject_Z k / inject_Z (2 ^ Z.of_nat s))%Q)
                 (slice indices (sum_list (take i lengths)) n) ks →
         (∀ k, k ∈ ks → 0 ≤ k)%Z →
         (0 < foldr Z.add 0 ks)%Z →
         (100 * foldr Z.add 0 ks ≤ 2 ^ 53)%Z →
         (s ≤ 1074)%nat →
         cells !! p = Some (Num 100))
    ∧ (Forall (λ r, area !! r = Some (Num 0))
              (slice indices (sum_list (take i lengths)) n) →
       cells !! p = Some NaN).
Proof.
  intros Hacc Hsw Hk Hpct Ha Hapct Hlayout Hq Hin Hn.
  apply Accumulation_Some in Hacc
    as (ids & outs & labels & a & areav & HT & HL & HA & Hv & ->).
  rewrite HL in Hlayout. simpl in Hlayout. rewrite HA in Hlayout.
  injection Hlayout as ->.
  apply outT_Some in HT as (indices' & outs0 & Hsw' & Hloop & -> & ->).
  rewrite Hsw in Hsw'. injection Hsw' as <-.
  set (keep := (λ c, bool_decide (c ∈ COMID arr)) <$> COMIDs) in *.
  set (p := length (filter (λ b, b = true) (take i keep))).
  assert (keep !! i = Some true) as Hkeep.
  { unfold keep. rewrite list_lookup_fmap, Hq. simpl. f_equal.
    by apply bool_decide_eq_true. }
  (* the PctFull column before the rows are selected *)
  destruct (column_loop_lookup _ _ _ _ _ _ _ _ _ Hloop Hk)
    as (zp & zk & Hzk & Hok & _).
  destruct (accumulate_column_indices _ _ _ _ _ _ _ Hzk) as [d Hd].
  (* the area column before the rows are selected *)
  destruct (column_loop_lookup _ _ _ _ _ _ _ _ _ Hloop Ha)
    as (zp0 & z0 & Hz0 & Ho0 & _).
  destruct (accumulate_column_indices _ _ _ _ _ _ _ Hz0) as [ar Har].
  pose proof (accumulate_column_pct _ _ _ _ _ _ _ _ _ _ _ _ _
                Hzk Hpct Ha Hd Har Hn) as Hcell.
  pose proof (accumulate_column_sum _ _ _ _ _ _ _ _ _ _
                Hz0 Hapct Har Hn) as Harea.
  (* the row of [q] after the selection *)
  rewrite list_lookup_fmap, Ho0 in Hv. simpl in Hv. injection Hv as <-.
  assert (length labels = length (columns arr)) as Hlen.
  { rewrite (output_labels_length _ _ _ HL). by rewrite length_fmap. }
  destruct (lookup_lt_is_Some_2 labels k) as [name Hname].
  { rewrite Hlen. by eapply lookup_lt_Some. }
  exists p, name. simpl.
  assert (select keep COMIDs !! p = Some q) as Hp.
  { unfold p. by rewrite select_lookup. }
  destruct k as [|k].
  { rewrite Ha in Hk. injection Hk as -> ->. congruence. }
  destruct outs0 as [|first rest]; [done|]. simpl in Ho0, Hok |- *.
  injection Ho0 as ->.
  exists (blank (eq_zero <$> select keep z0) (select keep zk)).
  split_and!; [done| | |].
  - destruct labels as [|l0 labels]; [done|]. simpl in Hname |- *.
    rewrite lookup_zip_with_Some.
    exists name, (blank (eq_zero <$> select keep z0) (select keep zk)).
    split_and!; [done..|].
    rewrite !list_lookup_fmap, Hok. done.
  - intros ks s Hfull Hgrid _ Hpos _ _.
    destruct (grid_weights _ _ _ _ Hgrid) as (ws & Hw & Hsum).
    assert (¬ (Qsum ws == 0)%Q) as Hnz.
    { rewrite Hsum. by apply grid_total_nonzero. }
    rewrite (reduce_pct_const c area indices d ar _ n ws 100%Q) in Hcell
      by done.
    destruct (reduce_sum_Num area indices ar (sum_list (take i lengths)) n ws
                Har Hw) as (qa & Hqa & Hqeq).
    rewrite Hqa in Harea.
    unfold blank. rewrite lookup_zip_with_Some.
    exists false, (Num 100). split_and!; [done| |].
    + rewrite list_lookup_fmap. unfold p. rewrite select_lookup by done.
      rewrite Harea. simpl. f_equal. apply Qis_zero_false.
      by rewrite Hqeq.
    + unfold p. rewrite select_lookup by done. done.
  - intros Hzero.
    destruct (zero_weights _ _ Hzero) as (ws & Hw & Hsum).
    destruct (reduce_sum_Num area indices ar (sum_list (take i lengths)) n ws
                Har Hw) as (qa & Hqa & Hqeq).
    rewrite Hqa in Harea.
    unfold blank. rewrite lookup_zip_with_Some.
    exists true, (reduce_pct d ar (sum_list (take i lengths)) n).
    split_and!; [done| |].
    + rewrite list_lookup_fmap. unfold p. rewrite select_lookup by done.
      rewrite Harea. simpl. f_equal. apply Qis_zero_true.
      by rewrite Hqeq.
    + unfold p. rewrite select_lookup by done. done.
Qed.

End AccumTheory.

(** ** The boundary correction *)

Module AdjustTheory.
Import Double Adjust.

Lemma row_position_Some t c i :
  row_position t c = Some i → COMID t !! i = Some c.
Proof.
  unfold row_position.
  destruct (list_find _ _) as [[j x]|] eqn:Hf; simpl; [|done].
  intros [= ->]. apply list_find_Some in Hf as (? & -> & _). done.
Qed.

Lemma row_position_is_Some t c : c ∈ COMID t → is_Some (row_position t c).
Proof.
  intros Hc. unfold row_position.
  destruct (list_find _ _) as [[j x]|] eqn:Hf; [by eexists|].
  apply list_find_None in Hf. rewrite Forall_forall in Hf.
  by destruct (Hf c Hc).
Qed.

Lemma column_is_Some t l : l ∈ (columns t).*1 → is_Some (column t l).
Proof.
  intros ([l' c] & -> & Hc)%list_elem_of_fmap. unfold column.
  destruct (list_find _ _) as [[j x]|] eqn:Hf; [by eexists|].
  apply list_find_None in Hf. rewrite Forall_forall in Hf.
  by destruct (Hf (l', c) Hc).
Qed.

Lemma column_elem_of t l cells :
  column t l = Some cells → (l, cells) ∈ columns t.
Proof.
  unfold column.
  destruct (list_find _ _) as [[j [l' c]]|] eqn:Hf; simpl; [|done].
  intros [= <-]. apply list_find_Some in Hf as (Hj & Hl & _).
  simpl in Hl. subst. apply list_elem_of_lookup. eauto.
Qed.

(** In a well-formed table every cell of a present row and column can be
    read. *)
Lemma get_cell_is_Some t c l :
  well_formed t → c ∈ COMID t → l ∈ (columns t).*1 → is_Some (get_cell t c l).
Proof.
  intros [_ Hlen] Hc Hl. unfold get_cell.
  destruct (row_position_is_Some t c Hc) as [i Hi]. rewrite Hi. simpl.
  destruct (column_is_Some t l Hl) as [cells Hcells]. rewrite Hcells. simpl.
  apply lookup_lt_is_Some_2.
  pose proof (Hlen _ (column_elem_of _ _ _ Hcells)) as Hl'. simpl in Hl'.
  rewrite Hl'. apply row_position_Some in Hi. by eapply lookup_lt_Some.
Qed.

Lemma column_set_cell t i l v l' :
  column (mkDataFrame (COMID t)
            ((λ c : string * list double,
                if decide (c.1 = l) then (c.1, <[i := v]> c.2) else c)
             <$> columns t)) l'
  = (λ cells, if decide (l' = l) then <[i := v]> cells else cells) <$> column t l'.
Proof.
  unfold column. simpl. rewrite list_find_fmap.
  rewrite (list_find_ext _ (λ c : string * list double, c.1 = l')).
  2:{ intros [a b]. simpl. by case_decide. }
  destruct (list_find _ (columns t)) as [[j [a b]]|] eqn:Hf; simpl; [|done].
  apply list_find_Some in Hf as (_ & Ha & _). simpl in Ha. subst a.
  f_equal. by repeat case_decide.
Qed.

(** Reading after writing one cell. *)
Lemma get_set_cell t c1 l v t' c l' :
  is_Some (get_cell t c1 l) →
  set_cell t c1 l v = Some t' →
  get_cell t' c l' =
    if decide (c = c1 ∧ l' = l) then Some v else get_cell t c l'.
Proof.
  unfold set_cell, get_cell. intros [a Ha].
  destruct (row_position t c1) as [i|] eqn:Hi; simpl in *; [|done].
  intros [= <-]. unfold row_position at 1. simpl. fold (row_position t c).
  rewrite column_set_cell.
  destruct (column t l) as [cells|] eqn:Hcol; simpl in Ha; [|done].
  destruct (decide (c = c1 ∧ l' = l)) as [[-> ->]|Hd].
  - rewrite Hi, Hcol. simpl.
    rewrite decide_True by done.
    apply list_lookup_insert_eq. by eapply lookup_lt_Some.
  - destruct (row_position t c) as [j|] eqn:Hj; simpl; [|done].
    destruct (column t l') as [cells'|] eqn:Hcol'; simpl; [|done].
    case_decide as Hl; [|done]. subst l'.
    apply list_lookup_insert_ne. intros <-.
    apply row_position_Some in Hi, Hj. rewrite Hi in Hj.
    injection Hj as ->. tauto.
Qed.

Lemma set_cell_shape t c1 l v t' :
  set_cell t c1 l v = Some t' →
  COMID t' = COMID t ∧ (columns t').*1 = (columns t).*1.
Proof.
  unfold set_cell. destruct (row_position t c1); simpl; [|done].
  intros [= <-]. simpl. split; [done|].
  rewrite <- list_fmap_compose. apply list_fmap_ext.
  intros j [a b] _. simpl. by case_decide.
Qed.

(** The loop subtracts once in each of the listed columns of the row, and
    nowhere else. *)
Lemma adjust_loop_spec ls tbl tbl2 c1 c2 :
  NoDup ls →
  (∀ l, l ∈ ls → is_Some (get_cell tbl c1 l) ∧ is_Some (get_cell tbl2 c2 l)) →
  ∃ tbl', adjust_loop ls tbl tbl2 c1 c2 = Some tbl'
    ∧ COMID tbl' = COMID tbl
    ∧ (columns tbl').*1 = (columns tbl).*1
    ∧ ∀ c l, get_cell tbl' c l =
        if decide (c = c1 ∧ l ∈ ls)
        then a ← get_cell tbl c1 l; b ← get_cell tbl2 c2 l; Some (sub a b)
        else get_cell tbl c l.
Proof.
  intros Hnd. revert tbl. induction Hnd as [|idx ls Hnot Hnd IH]; intros tbl Hread.
  - exists tbl. split_and!; [done..|]. intros c l.
    rewrite decide_False; [done|]. intros [_ H]. by apply elem_of_nil in H.
  - destruct (Hread idx ltac:(left)) as [[a Ha] [b Hb]].
    simpl. rewrite Ha, Hb. simpl.
    destruct (set_cell tbl c1 idx (sub a b)) as [tbl1|] eqn:Hset.
    2:{ unfold set_cell, get_cell in *.
        destruct (row_position tbl c1); simpl in *; done. }
    simpl.
    assert (∀ c l, get_cell tbl1 c l =
              if decide (c = c1 ∧ l = idx) then Some (sub a b) else get_cell tbl c l)
      as Hcell.
    { intros c l. apply (get_set_cell tbl c1 idx (sub a b) tbl1 c l); eauto. }
    destruct (set_cell_shape _ _ _ _ _ Hset) as [Hids Hlabels].
    destruct (IH tbl1) as (tbl' & Hloop & Hids' & Hlabels' & Hcells').
    { intros l Hl. destruct (Hread l ltac:(by right)) as [H1 H2].
      split; [|done]. rewrite Hcell. rewrite decide_False; [done|].
      intros [_ ->]. done. }
    exists tbl'. split_and!; [done|congruence|congruence|].
    intros c l. rewrite Hcells'.
    destruct (decide (c = c1)) as [->|Hc].
    + destruct (decide (l = idx)) as [->|Hl].
      * rewrite decide_False by tauto.
        rewrite decide_True by (split; [done|left]).
        rewrite Hcell, decide_True by done. by rewrite Ha, Hb.
      * destruct (decide (l ∈ ls)) as [Hin|Hout].
        -- rewrite decide_True by done.
           rewrite decide_True by (split; [done|by right]).
           rewrite Hcell, decide_False by tauto. done.
        -- rewrite decide_False by tauto.
           rewrite decide_False by (rewrite elem_of_cons; tauto).
           rewrite Hcell, decide_False by tauto. done.
    + rewrite !decide_False by tauto.
      rewrite Hcell, decide_False by tauto. done.
Qed.

Lemma removelast_last_absent {A} (l : list A) x :
  NoDup l → last l = Some x → x ∉ removelast l.
Proof.
  intros Hnd [l' ->]%last_Some. rewrite removelast_last.
  apply NoDup_app in Hnd as (_ & Hdisj & _).
  intros Hx. apply (Hdisj x Hx). left.
Qed.

Lemma removelast_subseteq {A} (l : list A) y : y ∈ removelast l → y ∈ l.
Proof.
  destruct (last l) as [x|] eqn:Hl.
  - apply last_Some in Hl as [l' ->]. rewrite removelast_last.
    intros Hy. apply elem_of_app. by left.
  - apply last_None in Hl as ->. done.
Qed.

Lemma NoDup_removelast {A} (l : list A) : NoDup l → NoDup (removelast l).
Proof.
  destruct (last l) as [x|] eqn:Hl.
  - apply last_Some in Hl as [l' ->]. rewrite removelast_last.
    by intros (? & _ & _)%NoDup_app.
  - apply last_None in Hl as ->. done.
Qed.

(** C3, as the code has it: [AdjustCOMs] subtracts the value of [comid2]
    in [tbl2] ([tbl] itself, as it is on entry, when no [tbl2] is given)
    from the value of [comid1] in [tbl] in every column except the last
    one, the area column included.  The last column (the coverage column
    in the tables this is called on) and all other rows are left as they
    are. *)
Theorem C3_AdjustCOMs_all_but_last tbl comid1 comid2 tbl2 :
  well_formed tbl →
  well_formed (default tbl tbl2) →
  comid1 ∈ COMID tbl →
  comid2 ∈ COMID (default tbl tbl2) →
  (∀ l, l ∈ removelast (columns tbl).*1 → l ∈ (columns (default tbl tbl2)).*1) →
  ∃ tbl', AdjustCOMs tbl comid1 comid2 tbl2 = Some tbl'
    ∧ COMID tbl' = COMID tbl
    ∧ (columns tbl').*1 = (columns tbl).*1
    ∧ (∀ l, l ∈ removelast (columns tbl).*1 →
         ∃ a b, get_cell tbl comid1 l = Some a
                ∧ get_cell (default tbl tbl2) comid2 l = Some b
                ∧ get_cell tbl' comid1 l = Some (sub a b))
    ∧ (∀ l, last (columns tbl).*1 = Some l →
         get_cell tbl' comid1 l = get_cell tbl comid1 l)
    ∧ (∀ c l, c ≠ comid1 → get_cell tbl' c l = get_cell tbl c l).
Proof.
  intros Hwf Hwf2 Hc1 Hc2 Hlabels. unfold AdjustCOMs.
  set (t2 := default tbl tbl2) in *.
  set (ls := removelast (columns tbl).*1) in *.
  assert (∀ l, l ∈ ls →
            is_Some (get_cell tbl comid1 l) ∧ is_Some (get_cell t2 comid2 l))
    as Hread.
  { intros l Hl. split.
    - apply get_cell_is_Some; [done..|]. by apply removelast_subseteq.
    - apply get_cell_is_Some; [done..|]. by apply Hlabels. }
  destruct (adjust_loop_spec ls tbl t2 comid1 comid2)
    as (tbl' & Hloop & Hids & Hlab & Hcells); [|done|].
  { apply NoDup_removelast, Hwf. }
  exists tbl'. split_and!; [done..| | |].
  - intros l Hl. destruct (Hread l Hl) as [[a Ha] [b Hb]].
    exists a, b. split_and!; [done..|].
    rewrite Hcells, decide_True by done. by rewrite Ha, Hb.
  - intros l Hl. rewrite Hcells, decide_False; [done|].
    intros [_ Hin].
    by apply (removelast_last_absent _ _ (proj1 Hwf) Hl).
  - intros c l Hc. rewrite Hcells, decide_False; [done|]. tauto.
Qed.

End AdjustTheory.

(** ** The worked scenarios *)

Module ScenarioTheory.
Import Double Closure Swapper Accum Adjust FlowGraph Vectors Scenario.
Import DoubleTheory AccumTheory AdjustTheory.
Local Open Scope Z_scope.

(** C1: with the edges A → C and B → C and an area of 1 and a metric of 10
    in each of A, B and C, the adjacency built by [UpcomDict] and the
    arrays built by [makeNumpyVectors], passed to [Accumulation], give C a
    metric of 30 and an area of 3 in the 'Ws' table, and a metric of 20 and
    an area of 2 in the 'UpCat' table.  The sums are sums of small
    integers, which binary64 computes without rounding. *)
Theorem C1_two_tributaries :
  ∃ bast chil ws up,
    zone_vectors (UpcomDict flow flowlines zone []) catch [] zone (cats_of catch)
      = Some (cats_of catch, bast, chil)
    ∧ Accumulation metrics (comids chil) (lengths chil) (upStream chil) "Ws"
      = Some ws
    ∧ get_cell ws 3 "WsMetric" = Some (Num 30)
    ∧ get_cell ws 3 "WsAreaSqKm" = Some (Num 3)
    ∧ Accumulation metrics (comids bast) (lengths bast) (upStream bast) "UpCat"
      = Some up
    ∧ get_cell up 3 "UpCatMetric" = Some (Num 20)
    ∧ get_cell up 3 "UpCatAreaSqKm" = Some (Num 2).
Proof.
  exists (mkClosureIndex [2; 1] [1; 2; 3] [0%nat; 0%nat; 2%nat]),
         (mkClosureIndex [1; 2; 3; 2; 1] [1; 2; 3] [1%nat; 1%nat; 3%nat]),
         (mkDataFrame [1; 2; 3]
            [("WsAreaSqKm"%string, [Num 1; Num 1; Num 3]);
             ("WsMetric"%string, [Num 10; Num 10; Num 30])]),
         (mkDataFrame [1; 2; 3]
            [("UpCatAreaSqKm"%string, [Num 0; Num 0; Num 2]);
             ("UpCatMetric"%string, [NaN; NaN; Num 20])]).
  split_and!; vm_compute; reflexivity.
Qed.

(** C2, as the claim states it, fails: in the row of a catchment without
    area the area column itself keeps its numeric zero, and so does any
    column that sits next to [COMID]. *)
Lemma C2_numeric_zero_kept :
  Accumulation no_area [4] [1%nat] [4] "Ws"
    = Some (mkDataFrame [4]
              [("WsAreaSqKm"%string, [Num 0]);
               ("WsSum"%string, [NaN]);
               ("WsPctFull"%string, [NaN])])
  ∧ Accumulation area_second [4] [1%nat] [4] "Ws"
    = Some (mkDataFrame [4]
              [("WsCount"%string, [Num 0]);
               ("WsAreaSqKm"%string, [NaN])]).
Proof. split; vm_compute; reflexivity. Qed.

Lemma C2_zero_area_rows_witness :
  ∃ ids outs labels area areav,
    outT no_area [4] [1%nat] [4] = Some (ids, outs)
    ∧ output_labels "Ws" (columns no_area).*1 = Some labels
    ∧ area_column labels = Some area
    ∧ outs !! area = Some areav
    ∧ [4] = ids
    ∧ (∀ r a, areav !! r = Some a → eq_zero a = true →
         ∀ k name cells v,
           [("WsAreaSqKm"%string, [Num 0]); ("WsSum"%string, [NaN]);
            ("WsPctFull"%string, [NaN])] !! S k = Some (name, cells) →
           cells !! r = Some v → v = NaN)
    ∧ (∀ name cells,
         [("WsAreaSqKm"%string, [Num 0]); ("WsSum"%string, [NaN]);
          ("WsPctFull"%string, [NaN])] !! O = Some (name, cells) →
         outs !! O = Some cells).
Proof.
  apply (C2_zero_area_rows no_area [4] [1%nat] [4] "Ws"
           (mkDataFrame [4]
              [("WsAreaSqKm"%string, [Num 0]);
               ("WsSum"%string, [NaN]);
               ("WsPctFull"%string, [NaN])])).
  vm_compute. reflexivity.
Defined.

(** C5, as the claim states it, fails.  On binary64 cells the average of
    cells that all hold 100 misses 100 by a rounding error for the areas
    0.1, 0.2 and 0.3: it is the double just below 100.  And over a closure
    without area (the single catchment D, or no catchment at all) the
    aggregation is NaN. *)
Lemma C5_not_always_100 :
  Binary64.ma_average [100; 100; 100]%float
    [Binary64.tenth; Binary64.fifth; Binary64.three_tenths]
  = 0x1.8ffffffffffffp+6%float
  ∧ reduce_pct [Num 100] [Num 0] 0 1 = NaN
  ∧ reduce_pct [] [] 0 0 = NaN
  ∧ outT no_area [4] [1%nat] [4] = Some ([4], [[Num 0]; [Num 5]; [NaN]]).
Proof. split_and!; vm_compute; reflexivity. Qed.

Lemma C5_pctfull_of_full_members_witness :
  (∃ p name cells,
     [1; 2; 3] !! p = Some 3
     ∧ [("WsAreaSqKm"%string, [Num (1 # 2); Num (1 # 4); Num (3 # 2)]);
        ("WsSum"%string, [Num 4; Num 5; Num 15]);
        ("WsPctFull"%string, [Num 100; Num 100; Num 100])] !! 2%nat
       = Some (name, cells)
     ∧ cells !! p = Some (Num 100))
  ∧ (∃ p name cells,
       [4] !! p = Some 4
       ∧ [("WsAreaSqKm"%string, [Num 0]);
          ("WsSum"%string, [NaN]);
          ("WsPctFull"%string, [NaN])] !! 2%nat = Some (name, cells)
       ∧ cells !! p = Some NaN).
Proof.
  split.
  - destruct (C5_pctfull_of_full_members quarters [1; 2; 3] [1; 1; 3]%nat
                [1; 2; 3; 2; 1] "Ws"
                (mkDataFrame [1; 2; 3]
                   [("WsAreaSqKm"%string, [Num (1 # 2); Num (1 # 4); Num (3 # 2)]);
                    ("WsSum"%string, [Num 4; Num 5; Num 15]);
                    ("WsPctFull"%string, [Num 100; Num 100; Num 100])])
                [0; 1; 2; 1; 0]%nat 2%nat "CatPctFull"
                [Num 100; Num 100; Num 100]
                "CatAreaSqKm" [Num (1 # 2); Num (1 # 4); Num (3 # 4)]
                2%nat 3%nat 3)
      as (p & name & cells & Hp & Hcol & Hfull & _).
    + vm_compute. reflexivity.
    + vm_compute. reflexivity.
    + reflexivity.
    + reflexivity.
    + reflexivity.
    + reflexivity.
    + vm_compute. reflexivity.
    + reflexivity.
    + compute_done.
    + reflexivity.
    + exists p, name, cells. split_and!; [exact Hp|exact Hcol|].
      apply (Hfull [3; 1; 2] 2%nat).
      * apply Forall_forall. vm_compute. repeat constructor.
      * vm_compute. repeat constructor; eexists; (split; [reflexivity|done]).
      * apply Forall_forall. repeat (constructor; [lia|]). constructor.
      * vm_compute. reflexivity.
      * vm_compute. discriminate.
      * lia.
  - destruct (C5_pctfull_of_full_members no_area [4] [1%nat] [4] "Ws"
                (mkDataFrame [4]
                   [("WsAreaSqKm"%string, [Num 0]);
                    ("WsSum"%string, [NaN]);
                    ("WsPctFull"%string, [NaN])])
                [0%nat] 2%nat "CatPctFull" [Num 100]
                "CatAreaSqKm" [Num 0] 0%nat 1%nat 4)
      as (p & name & cells & Hp & Hcol & _ & Hzero).
    + vm_compute. reflexivity.
    + vm_compute. reflexivity.
    + reflexivity.
    + reflexivity.
    + reflexivity.
    + reflexivity.
    + vm_compute. reflexivity.
    + reflexivity.
    + compute_done.
    + reflexivity.
    + exists p, name, cells. split_and!; [exact Hp|exact Hcol|].
      apply Hzero. vm_compute. repeat constructor.
Defined.

Lemma C6_output_rows_witness :
  [1; 2; 3] = filter (λ c, c ∈ COMID metrics) [1; 2; 3; 9]
  ∧ (∀ c, c ∈ [1; 2; 3] → c ∈ [1; 2; 3; 9] ∧ c ∈ COMID metrics)
  ∧ (∀ c, c ∉ COMID metrics → c ∉ [1; 2; 3])
  ∧ (∀ name cells,
       (name, cells) ∈ [("WsAreaSqKm"%string, [Num 1; Num 1; Num 3]);
                        ("WsMetric"%string, [Num 10; Num 10; Num 30])] →
       length cells = length [1; 2; 3]).
Proof.
  apply (C6_output_rows metrics [1; 2; 3; 9] [1; 1; 3; 0]%nat
           [1; 2; 3; 2; 1] "Ws"
           (mkDataFrame [1; 2; 3]
              [("WsAreaSqKm"%string, [Num 1; Num 1; Num 3]);
               ("WsMetric"%string, [Num 10; Num 10; Num 30])])).
  vm_compute. reflexivity.
Defined.

(** C3, as the claim states it, fails: the area column is subtracted like
    the others (5 - 2 = 3), and the last column, which is neither the id
    nor the area column, is not (it keeps 100, not 100 - 100). *)
Lemma C3_area_subtracted_last_kept :
  AdjustCOMs through 1 2 None
    = Some (mkDataFrame [1; 2]
              [("CatAreaSqKm"%string, [Num 3; Num 2]);
               ("CatSum"%string, [Num 30; Num 20]);
               ("CatPctFull"%string, [Num 100; Num 100])])
  ∧ get_cell through 2 "CatPctFull" = Some (Num 100)
  ∧ sub (Num 100) (Num 100) = Num 0.
Proof. split_and!; vm_compute; reflexivity. Qed.

Lemma C3_AdjustCOMs_all_but_last_witness :
  ∃ tbl', AdjustCOMs through 1 2 None = Some tbl'
    ∧ COMID tbl' = COMID through
    ∧ (columns tbl').*1 = (columns through).*1
    ∧ (∀ l, l ∈ removelast (columns through).*1 →
         ∃ a b, get_cell through 1 l = Some a
                ∧ get_cell through 2 l = Some b
                ∧ get_cell tbl' 1 l = Some (sub a b))
    ∧ (∀ l, last (columns through).*1 = Some l →
         get_cell tbl' 1 l = get_cell through 1 l)
    ∧ (∀ c l, c ≠ 1 → get_cell tbl' c l = get_cell through c l).
Proof.
  apply (C3_AdjustCOMs_all_but_last through 1 2 None).
  - split; [compute_done|]. apply Forall_forall. compute_done.
  - split; [compute_done|]. apply Forall_forall. compute_done.
  - compute_done.
  - compute_done.
  - apply Forall_forall. compute_done.
Defined.

End ScenarioTheory.

(** * Further properties *)

(** ** What the closures contain *)

Module AncestryTheory.
Import Closure Ancestry ClosureTheory.

(** Reading a key of the [defaultdict] stores at most an empty list: the
    parents of every node stay what they were. *)
Lemma getitem_parents (tree : gmap Z (list Z)) k ps tree' :
  getitem tree k = (ps, tree') →
  ps = parents tree k ∧ ∀ n, parents tree' n = parents tree n.
Proof.
  unfold getitem, parents. destruct (tree !! k) as [qs|] eqn:Hk.
  - by intros [= <- <-].
  - intros [= <- <-]. split; [done|]. intros n.
    destruct (decide (k = n)) as [<-|Hne].
    + by rewrite lookup_insert_eq, Hk.
    + by rewrite lookup_insert_ne.
Qed.

Lemma crawl_inv_init token tree : crawl_inv token tree (init token tree).
Proof.
  split; simpl.
  - done.
  - right. left.
  - intros n [Hn|Hn]; [set_solver|].
    apply list_elem_of_singleton in Hn as ->. apply rtc_refl.
  - intros n p Hn. set_solver.
Qed.

Lemma elem_of_extendleft x items q :
  x ∈ extendleft items q ↔ x ∈ items ∨ x ∈ q.
Proof.
  unfold extendleft. rewrite elem_of_app, !list_elem_of_In, <- in_rev. done.
Qed.

Lemma crawl_inv_step token tree st st' :
  crawl_inv token tree st → crawl_step st = Some st' → crawl_inv token tree st'.
Proof.
  intros [Hpar Hstart Hsound Hclosed]. unfold crawl_step.
  destruct (to_crawl st) as [|current rest] eqn:Hq; [done|].
  case_decide as Hvis.
  - intros [= <-]. split; simpl.
    + done.
    + destruct Hstart as [?|[->|?]%elem_of_cons]; auto.
    + intros n [Hn|Hn]; apply Hsound; [by left | right; by right].
    + intros n p Hn Hp.
      destruct (Hclosed n p Hn Hp) as [?|[->|?]%elem_of_cons]; auto.
  - destruct (getitem (tree_of st) current) as [ps tree'] eqn:Hg.
    apply getitem_parents in Hg as [-> Hsame].
    assert (upstream tree token current) as Hcur by (apply Hsound; right; left).
    intros [= <-]. split; simpl.
    + intros n. by rewrite Hsame.
    + rewrite elem_of_union, elem_of_singleton, elem_of_extendleft.
      destruct Hstart as [?|[->|?]%elem_of_cons]; auto.
    + intros n.
      rewrite elem_of_union, elem_of_singleton, elem_of_extendleft,
        elem_of_elements, elem_of_difference, elem_of_list_to_set.
      intros [[Hn| ->]|[[Hn _]|Hn]].
      * apply Hsound. by left.
      * done.
      * eapply rtc_r; [exact Hcur|]. unfold parent_of. by rewrite <- Hpar.
      * apply Hsound. right. by right.
    + intros n p.
      rewrite !elem_of_union, !elem_of_singleton, elem_of_extendleft,
        elem_of_elements, elem_of_difference, elem_of_list_to_set,
        elem_of_union, elem_of_singleton.
      intros [Hn| ->] Hp.
      * destruct (Hclosed n p Hn Hp) as [?|[->|?]%elem_of_cons]; auto.
      * destruct (decide (p ∈ visited st)) as [|Hnv]; [auto|].
        destruct (decide (p = current)) as [|Hnc]; [auto|].
        right. left. split; [|tauto]. unfold parent_of in Hp. by rewrite Hpar.
Qed.

Lemma crawl_inv_run token tree fuel st r :
  crawl_inv token tree st → crawl fuel st = Some r → crawl_inv token tree r.
Proof.
  revert st. induction fuel as [|fuel IH]; intros st Hinv; simpl.
  - destruct (crawl_step st); [done|]. by intros [= <-].
  - destruct (crawl_step st) as [st'|] eqn:Hs; [|by intros [= <-]].
    apply IH. by eapply crawl_inv_step.
Qed.

(** When the loop exits, [visited] holds the nodes upstream of the start
    node, and nothing else. *)
Lemma crawl_visited_upstream token tree fuel r n :
  crawl fuel (init token tree) = Some r →
  n ∈ visited r ↔ upstream tree token n.
Proof.
  intros Hr.
  pose proof (crawl_inv_run _ _ _ _ _ (crawl_inv_init token tree) Hr)
    as [Hpar Hstart Hsound Hclosed].
  pose proof (crawl_result_done _ _ _ Hr) as Hq. rewrite Hq in *.
  split.
  - intros Hn. apply Hsound. by left.
  - revert n. apply rtc_ind_r.
    + destruct Hstart as [?|Hnil]; [done|]. by apply elem_of_nil in Hnil.
    + intros a b _ Hab IH. destruct (Hclosed a b IH Hab) as [?|Hnil]; [done|].
      by apply elem_of_nil in Hnil.
Qed.

(** What is upstream of a node depends on the parents of the nodes only. *)
Lemma upstream_same_parents (t1 t2 : gmap Z (list Z)) token n :
  (∀ k, parents t2 k = parents t1 k) → upstream t1 token n → upstream t2 token n.
Proof.
  intros Hsame. revert n. apply rtc_ind_r; [apply rtc_refl|].
  intros a b _ Hab IH. eapply rtc_r; [exact IH|].
  unfold parent_of in *. by rewrite Hsame.
Qed.

Lemma crawl_visited_same_parents (t1 t2 : gmap Z (list Z)) token f1 f2 r1 r2 :
  (∀ k, parents t2 k = parents t1 k) →
  crawl f1 (init token t1) = Some r1 → crawl f2 (init token t2) = Some r2 →
  visited r2 = visited r1.
Proof.
  intros Hsame H1 H2. apply set_eq. intros n.
  rewrite (crawl_visited_upstream _ _ _ _ _ H1).
  rewrite (crawl_visited_upstream _ _ _ _ _ H2).
  split; apply upstream_same_parents; [by intros k; symmetry|done].
Qed.

(** Both closures return, and leave every node with the parents it had. *)
Lemma children_returns q t chk :
  ∃ l t', children q t chk = Some (l, t') ∧ ∀ n, parents t' n = parents t n.
Proof.
  destruct (crawl_total q t) as (st & Hst & _ & _).
  eexists _, (tree_of st). split.
  - unfold children. by rewrite Hst.
  - apply (crawl_inv_run _ _ _ _ _ (crawl_inv_init q t) Hst).
Qed.

Lemma bastards_returns q t chk :
  ∃ l t', bastards q t chk = Some (l, t') ∧ ∀ n, parents t' n = parents t n.
Proof.
  destruct (crawl_total q t) as (st & Hst & _ & Hin).
  eexists _, (tree_of st). split.
  - unfold bastards, set_remove. rewrite Hst. simpl.
    by rewrite decide_True by done.
  - apply (crawl_inv_run _ _ _ _ _ (crawl_inv_init q t) Hst).
Qed.

(** What a closure returns depends on the parents of the nodes only. *)
Lemma children_same_parents (t1 t2 : gmap Z (list Z)) token chkset :
  (∀ k, parents t2 k = parents t1 k) →
  fst <$> children token t2 chkset = fst <$> children token t1 chkset.
Proof.
  intros Hsame.
  destruct (crawl_total token t1) as (r1 & H1 & _ & _).
  destruct (crawl_total token t2) as (r2 & H2 & _ & _).
  pose proof (crawl_visited_same_parents _ _ _ _ _ _ _ Hsame H1 H2) as Hv.
  unfold children. rewrite H1, H2. simpl. by rewrite Hv.
Qed.

Lemma bastards_same_parents (t1 t2 : gmap Z (list Z)) token chkset :
  (∀ k, parents t2 k = parents t1 k) →
  fst <$> bastards token t2 chkset = fst <$> bastards token t1 chkset.
Proof.
  intros Hsame.
  destruct (crawl_total token t1) as (r1 & H1 & _ & Hin1).
  destruct (crawl_total token t2) as (r2 & H2 & _ & Hin2).
  pose proof (crawl_visited_same_parents _ _ _ _ _ _ _ Hsame H1 H2) as Hv.
  unfold bastards, set_remove. rewrite H1, H2. simpl.
  rewrite !decide_True by done. simpl. by rewrite Hv.
Qed.

(** X1: [children] returns, without repetition, exactly the nodes upstream of
    the start node (the start node included) that belong to the universe
    set, whatever cycles the adjacency has; the call leaves every node with
    the parents it had. *)
Theorem children_upstream_closure token tree chkset :
  ∃ l tree',
    children token tree chkset = Some (l, tree')
    ∧ NoDup l
    ∧ (∀ n, n ∈ l ↔ upstream tree token n ∧ in_universe chkset n)
    ∧ (∀ n, parents tree' n = parents tree n).
Proof.
  destruct (crawl_total token tree) as (st & Hst & _ & _).
  exists (elements (restrict (visited st) chkset)), (tree_of st).
  split_and!.
  - unfold children. by rewrite Hst.
  - apply NoDup_elements.
  - intros n. rewrite elem_of_elements.
    pose proof (crawl_visited_upstream _ _ _ _ n Hst) as Hv.
    destruct chkset as [chk|]; simpl.
    + rewrite elem_of_intersection. tauto.
    + tauto.
  - apply (crawl_inv_run _ _ _ _ _ (crawl_inv_init token tree) Hst).
Qed.

(** X2: [bastards] returns, without repetition, exactly the nodes of the
    universe set that are upstream of the start node and differ from it;
    the start node is left out even when a cycle leads back to it. *)
Theorem bastards_upstream_closure token tree chkset :
  ∃ l tree',
    bastards token tree chkset = Some (l, tree')
    ∧ NoDup l
    ∧ (∀ n, n ∈ l ↔ n ≠ token ∧ upstream tree token n ∧ in_universe chkset n)
    ∧ (∀ n, parents tree' n = parents tree n).
Proof.
  destruct (crawl_total token tree) as (st & Hst & _ & Hin).
  exists (elements (restrict (visited st ∖ {[token]}) chkset)), (tree_of st).
  split_and!.
  - unfold bastards, set_remove. rewrite Hst. simpl.
    by rewrite decide_True by done.
  - apply NoDup_elements.
  - intros n. rewrite elem_of_elements.
    pose proof (crawl_visited_upstream _ _ _ _ n Hst) as Hv.
    destruct chkset as [chk|]; simpl.
    + rewrite elem_of_intersection, elem_of_difference, elem_of_singleton. tauto.
    + rewrite elem_of_difference, elem_of_singleton. tauto.
  - apply (crawl_inv_run _ _ _ _ _ (crawl_inv_init token tree) Hst).
Qed.

(** X3: The list a closure returns depends on the parents of the nodes only:
    on an adjacency that earlier queries have filled with empty entries the
    result is the same list. *)
Theorem closures_same_on_same_parents (t1 t2 : gmap Z (list Z)) token chkset :
  (∀ k, parents t2 k = parents t1 k) →
  fst <$> children token t2 chkset = fst <$> children token t1 chkset
  ∧ fst <$> bastards token t2 chkset = fst <$> bastards token t1 chkset.
Proof.
  intros Hsame.
  destruct (crawl_total token t1) as (r1 & H1 & _ & Hin1).
  destruct (crawl_total token t2) as (r2 & H2 & _ & Hin2).
  pose proof (crawl_visited_same_parents _ _ _ _ _ _ _ Hsame H1 H2) as Hv.
  unfold children, bastards, set_remove. rewrite H1, H2. simpl.
  rewrite !decide_True by done. simpl. by rewrite Hv.
Qed.

Lemma closures_same_on_same_parents_witness :
  fst <$> children 3 {[3%Z := [1%Z]; 1%Z := []]} None
    = fst <$> children 3 {[3%Z := [1%Z]]} None
  ∧ fst <$> bastards 3 {[3%Z := [1%Z]; 1%Z := []]} None
    = fst <$> bastards 3 {[3%Z := [1%Z]]} None.
Proof.
  apply (closures_same_on_same_parents {[3%Z := [1%Z]]}
           {[3%Z := [1%Z]; 1%Z := []]} 3%Z None).
  intros k. unfold parents.
  destruct (decide (k = 1%Z)) as [->|H1]; [reflexivity|].
  destruct (decide (k = 3%Z)) as [->|H3]; [reflexivity|].
  rewrite !lookup_insert_ne, !lookup_singleton_ne by done. reflexivity.
Defined.

(** X4: The inclusive closure is the exclusive closure plus the start node, when
    the start node belongs to the universe set, and equals it otherwise; the
    order of the two lists may differ. *)
Theorem children_bastards_start token tree chkset :
  ∃ lc lb,
    fst <$> children token tree chkset = Some lc
    ∧ fst <$> bastards token tree chkset = Some lb
    ∧ ((in_universe chkset token ∧ lc ≡ₚ token :: lb)
       ∨ (¬ in_universe chkset token ∧ lc ≡ₚ lb)).
Proof.
  destruct (crawl_total token tree) as (st & Hst & _ & Hin).
  exists (elements (restrict (visited st) chkset)),
         (elements (restrict (visited st ∖ {[token]}) chkset)).
  split_and!.
  - unfold children. by rewrite Hst.
  - unfold bastards, set_remove. rewrite Hst. simpl.
    by rewrite decide_True by done.
  - assert (Decision (in_universe chkset token)) as [Hu|Hu].
    { destruct chkset; simpl; apply _. }
    + left. split; [done|].
      apply NoDup_Permutation; [apply NoDup_elements| |].
      * constructor; [|apply NoDup_elements].
        rewrite elem_of_elements. destruct chkset as [chk|]; simpl.
        -- rewrite elem_of_intersection, elem_of_difference,
             elem_of_singleton. tauto.
        -- rewrite elem_of_difference, elem_of_singleton. tauto.
      * intros n. rewrite elem_of_cons, !elem_of_elements.
        destruct chkset as [chk|]; simpl in *.
        -- rewrite !elem_of_intersection, elem_of_difference,
             elem_of_singleton.
           destruct (decide (n = token)) as [->|Hne]; tauto.
        -- rewrite elem_of_difference, elem_of_singleton.
           destruct (decide (n = token)) as [->|Hne]; tauto.
    + right. split; [done|].
      apply NoDup_Permutation; [apply NoDup_elements..|].
      intros n. rewrite !elem_of_elements.
      destruct chkset as [chk|]; simpl in *; [|done].
      rewrite !elem_of_intersection, elem_of_difference, elem_of_singleton.
      destruct (decide (n = token)) as [->|Hne]; tauto.
Qed.

End AncestryTheory.

(** ** The closure arrays *)

Module IndexTheory.
Import Closure Ancestry Vectors ClosureTheory AncestryTheory.
Local Open Scope Z_scope.

Lemma int32_small x : - 2 ^ 31 ≤ x < 2 ^ 31 → int32 x = x.
Proof. intros Hx. unfold int32. rewrite Z.mod_small; lia. Qed.

(** Whichever way the flat array is cast, an id that fits in 32 bits is
    kept. *)
Lemma flatten_cast a :
  ∃ g : Z → Z, flatten a = g <$> concat a
               ∧ ∀ x, - 2 ^ 31 ≤ x < 2 ^ 31 → g x = x.
Proof.
  unfold flatten. case_decide.
  - exists int32_of_float. split; [done|]. intros x Hx.
    unfold int32_of_float. by rewrite decide_True.
  - exists int32. split; [done|]. apply int32_small.
Qed.

Lemma fmap_small_list (g : Z → Z) (l : list Z) :
  (∀ x, - 2 ^ 31 ≤ x < 2 ^ 31 → g x = x) →
  (∀ m, m ∈ l → - 2 ^ 31 ≤ m < 2 ^ 31) → g <$> l = l.
Proof.
  intros Hg. induction l as [|x l IH]; intros Hl; simpl; [done|].
  rewrite Hg by (apply Hl; left).
  f_equal. apply IH. intros m Hm. apply Hl. by right.
Qed.

(** The segment of a concatenation that belongs to its [i]-th part. *)
Lemma slice_concat {A} (a : list (list A)) i v :
  a !! i = Some v →
  slice (concat a) (sum_list (length <$> take i a)) (length v) = v.
Proof.
  unfold slice. revert i. induction a as [|w a IH]; intros i; [done|].
  destruct i as [|i]; simpl.
  - intros [= ->]. rewrite drop_0. apply take_app_length.
  - intros Hi. rewrite drop_app_add. by apply IH.
Qed.

Lemma sum_list_length_concat {A} (a : list (list A)) :
  sum_list (length <$> a) = length (concat a).
Proof.
  induction a as [|w a IH]; simpl; [done|]. rewrite length_app.
  f_equal. exact IH.
Qed.

(** The calls of one scope share the adjacency, and each returns what it
    returns on the adjacency as it was before the first call. *)
Lemma map_closure_shared
    (f : Z → gmap Z (list Z) → option (gset Z) → option (list Z * gmap Z (list Z))) :
  (∀ q t chk, ∃ l t', f q t chk = Some (l, t') ∧ ∀ n, parents t' n = parents t n) →
  (∀ q t1 t2 chk, (∀ k, parents t2 k = parents t1 k) →
     fst <$> f q t2 chk = fst <$> f q t1 chk) →
  ∀ COMIDs tree cats, ∃ a tree',
    map_closure f COMIDs tree cats = Some (a, tree')
    ∧ (∀ n, parents tree' n = parents tree n)
    ∧ Forall2 (λ q v, fst <$> f q tree (Some cats) = Some v) COMIDs a.
Proof.
  intros Htotal Hsame COMIDs. induction COMIDs as [|q qs IH]; intros tree cats.
  - exists [], tree. by split_and!; [| |constructor].
  - destruct (Htotal q tree (Some cats)) as (v & t1 & Hv & Hp1).
    destruct (IH t1 cats) as (vs & t2 & Hvs & Hp2 & Hall).
    exists (v :: vs), t2. split_and!.
    + simpl. rewrite Hv. simpl. rewrite Hvs. done.
    + intros n. by rewrite Hp2, Hp1.
    + constructor; [by rewrite Hv|].
      eapply Forall2_impl; [exact Hall|]. intros q' v' Hq'.
      rewrite <- Hq'. symmetry. apply Hsame. done.
Qed.

Lemma closure_functions_shared
    (f : Z → gmap Z (list Z) → option (gset Z) → option (list Z * gmap Z (list Z))) :
  f = children ∨ f = bastards →
  (∀ q t chk, ∃ l t', f q t chk = Some (l, t') ∧ ∀ n, parents t' n = parents t n)
  ∧ (∀ q t1 t2 chk, (∀ k, parents t2 k = parents t1 k) →
       fst <$> f q t2 chk = fst <$> f q t1 chk).
Proof.
  intros [-> | ->]; split.
  - apply children_returns.
  - intros q t1 t2 chk Hs. by apply children_same_parents.
  - apply bastards_returns.
  - intros q t1 t2 chk Hs. by apply bastards_same_parents.
Qed.

(** X5: The three arrays [makeNumpyVectors] saves for a scope are aligned: one
    length per query id, the lengths add up to the size of the flat array,
    and the segment of a query id whose closure fits in 32 bits is the
    closure of that id on the adjacency of the zone.  Building them leaves
    the parents of every node as they were. *)
Theorem closure_arrays_aligned
    (f : Z → gmap Z (list Z) → option (gset Z) → option (list Z * gmap Z (list Z)))
    COMIDs tree cats idx tree' :
  f = children ∨ f = bastards →
  vectors f COMIDs tree cats = Some (idx, tree') →
  comids idx = COMIDs
  ∧ length (lengths idx) = length COMIDs
  ∧ sum_list (lengths idx) = length (upStream idx)
  ∧ (∀ n, parents tree' n = parents tree n)
  ∧ ∀ i q, COMIDs !! i = Some q →
      ∃ members,
        fst <$> f q tree (Some cats) = Some members
        ∧ lengths idx !! i = Some (length members)
        ∧ ((∀ m, m ∈ members → - 2 ^ 31 ≤ m < 2 ^ 31) →
           slice (upStream idx) (sum_list (take i (lengths idx))) (length members)
           = members).
Proof.
  intros Hf. destruct (closure_functions_shared f Hf) as [Htotal Hsame].
  destruct (map_closure_shared f Htotal Hsame COMIDs tree cats)
    as (a & t & Ha & Hpar & Hall).
  unfold vectors. rewrite Ha. simpl.
  destruct a as [|v0 a0] eqn:Haeq; [done|]. rewrite <- Haeq in *.
  intros [= <- <-]. simpl.
  destruct (flatten_cast a) as (g & -> & Hg).
  split_and!.
  - done.
  - rewrite length_fmap. symmetry. by eapply Forall2_length.
  - rewrite !length_fmap, <- sum_list_length_concat. done.
  - done.
  - intros i q Hq.
    destruct (Forall2_lookup_l _ _ _ _ _ Hall Hq) as (members & Hm & Hfm).
    exists members.
    assert (slice (g <$> concat a) (sum_list (take i (length <$> a)))
              (length members) = g <$> members) as Hslice.
    { pose proof (slice_concat ((λ w : list Z, g <$> w) <$> a) i
                    (g <$> members)) as Hs.
      rewrite list_lookup_fmap, Hm in Hs. specialize (Hs eq_refl).
      rewrite length_fmap in Hs. rewrite <- Hs. f_equal.
      - clear. induction a as [|w a IH]; simpl; [done|].
        by rewrite fmap_app, IH.
      - rewrite <- !fmap_take, <- list_fmap_compose. f_equal.
        apply list_fmap_ext. intros j w _. simpl. by rewrite length_fmap. }
    split_and!.
    + done.
    + by rewrite list_lookup_fmap, Hm.
    + intros Hsmall. rewrite Hslice. by apply fmap_small_list.
Qed.

Lemma closure_arrays_aligned_witness :
  comids Examples.children_arrays = Scenario.catch
  ∧ length (lengths Examples.children_arrays) = length Scenario.catch
  ∧ sum_list (lengths Examples.children_arrays)
    = length (upStream Examples.children_arrays)
  ∧ (∀ n, parents Examples.adjacency_after n = parents Examples.adjacency n)
  ∧ ∀ i q, Scenario.catch !! i = Some q →
      ∃ members,
        fst <$> children q Examples.adjacency (Some (cats_of Scenario.catch))
          = Some members
        ∧ lengths Examples.children_arrays !! i = Some (length members)
        ∧ ((∀ m, m ∈ members → - 2 ^ 31 ≤ m < 2 ^ 31) →
           slice (upStream Examples.children_arrays)
             (sum_list (take i (lengths Examples.children_arrays)))
             (length members)
           = members).
Proof.
  apply (closure_arrays_aligned children Scenario.catch Examples.adjacency
           (cats_of Scenario.catch) Examples.children_arrays
           Examples.adjacency_after).
  - by left.
  - vm_compute. reflexivity.
Defined.

(** X6: The body of the loop over the zones raises in two cases only: the zone
    has no query id ([np.hstack] has nothing to stack), or the zone is '14'
    and the universe set lacks the catchment that is removed for it. *)
Theorem zone_vectors_raises tree catch interVPUtbl zone cats :
  zone_vectors tree catch interVPUtbl zone cats = None ↔
  zone_COMIDs catch interVPUtbl zone = []
  ∨ (zone = "14"%string ∧ 17029298 ∉ cats).
Proof.
  unfold zone_vectors, zone_cats, set_remove.
  set (COMIDs := zone_COMIDs catch interVPUtbl zone).
  assert (∀ f t c, f = children ∨ f = bastards →
            (COMIDs = [] → vectors f COMIDs t c = None)
            ∧ (COMIDs ≠ [] → is_Some (vectors f COMIDs t c))) as Hvec.
  { intros f t c Hf. destruct (closure_functions_shared f Hf) as [Htotal Hsame].
    destruct (map_closure_shared f Htotal Hsame COMIDs t c)
      as (a & t' & Ha & _ & Hall).
    unfold vectors. rewrite Ha. simpl. apply Forall2_length in Hall.
    split.
    - intros Hnil. rewrite Hnil in Hall. by destruct a.
    - intros Hne. destruct a; [|by eexists]. by destruct COMIDs. }
  assert (∀ c, (COMIDs = [] →
             (vectors bastards COMIDs tree c
                ≫= λ '(a, tree'), vectors children COMIDs tree' c
                ≫= λ '(b, _), Some (c, a, b)) = None)
            ∧ (COMIDs ≠ [] →
               is_Some (vectors bastards COMIDs tree c
                ≫= λ '(a, tree'), vectors children COMIDs tree' c
                ≫= λ '(b, _), Some (c, a, b)))) as Hbody.
  { intros c. split.
    - intros Hnil.
      destruct (Hvec bastards tree c ltac:(by right)) as [Hn _].
      by rewrite (Hn Hnil).
    - intros Hne.
      destruct (Hvec bastards tree c ltac:(by right)) as [_ Hs].
      destruct (Hs Hne) as [[a t'] Ha]. rewrite Ha. simpl.
      destruct (Hvec children t' c ltac:(by left)) as [_ Hs'].
      destruct (Hs' Hne) as [[b t''] Hb]. rewrite Hb. simpl. by eexists. }
  destruct (decide (COMIDs = [])) as [Hnil|Hne].
  - split; [auto|]. intros _.
    repeat case_decide; simpl; [apply Hbody; done| done |apply Hbody; done].
  - repeat case_decide; simpl.
    + split.
      * intros Hnone.
        destruct (proj2 (Hbody (cats ∖ {[17029298]})) Hne) as [? Hs]. congruence.
      * intros [?|[_ ?]]; done.
    + split; [|done]. intros _. right. done.
    + split.
      * intros Hnone. destruct (proj2 (Hbody cats) Hne) as [? Hs]. congruence.
      * intros [?|[? _]]; done.
Qed.

End IndexTheory.

(** ** What the adjacency holds *)

Module AdjacencyTheory.
Import Closure Ancestry FlowGraph FlowGraphTheory.
Local Open Scope Z_scope.

Lemma parents_append (m : gmap Z (list Z)) k v j :
  parents (append m k v) j =
    if decide (k = j) then parents m k ++ [v] else parents m j.
Proof. unfold parents. rewrite lookup_append. by case_decide. Qed.

Lemma parents_add_row (m : gmap Z (list Z)) r j :
  parents (add_row m r) j =
    if decide (TOCOMID r = j)
    then (if decide (FROMCOMID r = 0) then [] else parents m j ++ [FROMCOMID r])
    else parents m j.
Proof.
  unfold add_row. destruct (decide (FROMCOMID r = 0)) as [Hz|Hnz].
  - unfold parents. rewrite lookup_insert. by case_decide.
  - rewrite parents_append. case_decide; [by subst|done].
Qed.

(** X7: The parents the loop over the flow rows records for a node.  While no
    row of the node has [FROMCOMID = 0], the sources of its rows are added
    in table order behind the parents it had.  A row of the node with
    [FROMCOMID = 0] discards whatever was recorded for the node before it:
    the parents are then the sources of the rows that follow it. *)
Theorem flow_rows_parents (m : gmap Z (list Z)) (k : Z) :
  (∀ rows,
     (∀ r, r ∈ rows → TOCOMID r = k → FROMCOMID r ≠ 0) →
     parents (foldl add_row m rows) k
     = parents m k ++ (FROMCOMID <$> filter (λ r, TOCOMID r = k) rows))
  ∧ (∀ before r after,
       TOCOMID r = k → FROMCOMID r = 0 →
       (∀ r', r' ∈ after → TOCOMID r' = k → FROMCOMID r' ≠ 0) →
       parents (foldl add_row m (before ++ r :: after)) k
       = FROMCOMID <$> filter (λ r, TOCOMID r = k) after).
Proof.
  assert (∀ rows m',
            (∀ r, r ∈ rows → TOCOMID r = k → FROMCOMID r ≠ 0) →
            parents (foldl add_row m' rows) k
            = parents m' k ++ (FROMCOMID <$> filter (λ r, TOCOMID r = k) rows))
    as Hedges.
  { induction rows as [|r rows IH]; intros m' Hnz; simpl.
    - by rewrite app_nil_r.
    - rewrite IH by (intros r' Hr'; apply Hnz; by right).
      rewrite parents_add_row, filter_cons.
      destruct (decide (TOCOMID r = k)) as [Hk|Hk]; [|done].
      rewrite decide_False by (apply Hnz; [left|done]).
      rewrite fmap_cons, <- app_assoc. done. }
  split; [intros rows; apply Hedges|].
  intros before r after Hk Hz Hnz.
  rewrite foldl_app. simpl. rewrite Hedges by done.
  rewrite parents_add_row, decide_True, decide_True by done. done.
Qed.

Lemma flow_rows_parents_witness :
  parents (foldl add_row ∅ ([FlowRow 7 5] ++ FlowRow 7 0 :: [FlowRow 7 6; FlowRow 8 7])) 7
  = FROMCOMID <$> filter (λ r, TOCOMID r = 7) [FlowRow 7 6; FlowRow 8 7].
Proof.
  apply (proj2 (flow_rows_parents ∅ 7) [FlowRow 7 5] (FlowRow 7 0)
           [FlowRow 7 6; FlowRow 8 7]); [reflexivity..|].
  refine (proj1 (Forall_forall
                   (λ r', TOCOMID r' = 7 → FROMCOMID r' ≠ 0) _) _).
  repeat (constructor; [simpl; intros; lia|]). constructor.
Defined.

Lemma parents_flow_rows_sound rows (m : gmap Z (list Z)) k p :
  p ∈ parents (foldl add_row m rows) k →
  p ∈ parents m k
  ∨ ∃ r, r ∈ rows ∧ TOCOMID r = k ∧ FROMCOMID r = p ∧ p ≠ 0.
Proof.
  revert m. induction rows as [|r rows IH]; intros m; simpl; [auto|].
  intros [Hp|(r' & Hr' & ?)]%IH.
  - rewrite parents_add_row in Hp. repeat case_decide.
    + by apply elem_of_nil in Hp.
    + apply elem_of_app in Hp as [?|Hp]; [by left|].
      apply list_elem_of_singleton in Hp as ->. right.
      exists r. split_and!; [left|done..].
    + by left.
  - right. exists r'. split; [by right|done].
Qed.

Lemma parents_interLines_sound zone tbl (m : gmap Z (list Z)) k p :
  p ∈ parents (foldl (add_interLine zone) m tbl) k →
  p ∈ parents m k
  ∨ ∃ l, l ∈ tbl ∧ interLine6 l = k ∧ 0 < k ∧ interLine2 l = zone
         ∧ interLine0 l = p.
Proof.
  revert m. induction tbl as [|l tbl IH]; intros m; simpl; [auto|].
  intros [Hp|(l' & Hl' & ?)]%IH.
  - unfold add_interLine in Hp. case_decide as Hl; [|by left].
    rewrite parents_append in Hp. case_decide as Hk; [|by left].
    apply elem_of_app in Hp as [Hp|Hp]; [left; by subst|].
    apply list_elem_of_singleton in Hp as ->. right.
    exists l. subst k. split_and!; [left|tauto..|done].
  - right. exists l'. split; [by right|done].
Qed.

(** X8: Every parent [UpcomDict] records has a source in the tables: it is the
    non-zero source of a flow row into the node that is no coastline, is
    not on the removal list and is a flowline of the zone or a through-COMID
    of the inter-VPU table; or it is put in by a row of the inter-VPU table
    that names the node and the zone. *)
Theorem UpcomDict_parent_provenance flow coast zone interVPUtbl k p :
  p ∈ parents (UpcomDict flow coast zone interVPUtbl) k →
  (∃ r, r ∈ flow ∧ TOCOMID r = k ∧ FROMCOMID r = p ∧ k ≠ 0 ∧ p ≠ 0
        ∧ (p ∉ (flowline_COMID <$> filter (λ f, FTYPE f = "Coastline") coast))
        ∧ (p ∉ filter (λ c, c ≠ 0) (removeCOMs <$> interVPUtbl))
        ∧ (p ∈ (flowline_COMID <$> coast) ∨ p ∈ (thruCOMIDs <$> interVPUtbl)))
  ∨ (∃ l, l ∈ interVPUtbl ∧ interLine6 l = k ∧ 0 < k ∧ interLine2 l = zone
          ∧ interLine0 l = p).
Proof.
  unfold UpcomDict. intros [Hp|Hinj]%parents_interLines_sound; [|by right].
  apply parents_flow_rows_sound in Hp as [Hp|(r & Hr & Hk & Hfrom & Hnz)].
  { unfold parents in Hp. rewrite lookup_empty in Hp. by apply elem_of_nil in Hp. }
  left. apply elem_of_filter_flow in Hr as (Hr & Hto & Hcoast & Hrem & Hsrc).
  exists r. subst k p. split_and!; [done..|].
  destruct Hsrc as [?|?]; [done|tauto].
Qed.

Lemma UpcomDict_parent_provenance_witness :
  (∃ r, r ∈ Scenario.flow ∧ TOCOMID r = 3 ∧ FROMCOMID r = 1 ∧ 3 ≠ 0 ∧ 1 ≠ 0
        ∧ (1 ∉ (flowline_COMID <$>
                  filter (λ f, FTYPE f = "Coastline") Scenario.flowlines))
        ∧ (1 ∉ filter (λ c, c ≠ 0) (removeCOMs <$> []))
        ∧ (1 ∈ (flowline_COMID <$> Scenario.flowlines) ∨ 1 ∈ (thruCOMIDs <$> [])))
  ∨ (∃ l, l ∈ [] ∧ interLine6 l = 3 ∧ 0 < 3 ∧ interLine2 l = Scenario.zone
          ∧ interLine0 l = 1).
Proof.
  apply (UpcomDict_parent_provenance Scenario.flow Scenario.flowlines
           Scenario.zone [] 3 1).
  vm_compute. left.
Defined.

(** X9: Node 0 is never a key of the adjacency. *)
Theorem UpcomDict_no_key_zero flow coast zone interVPUtbl :
  UpcomDict flow coast zone interVPUtbl !! 0 = None.
Proof.
  unfold UpcomDict.
  assert (∀ rows (m : gmap Z (list Z)),
            m !! 0 = None → (∀ r, r ∈ rows → TOCOMID r ≠ 0) →
            foldl add_row m rows !! 0 = None) as Hrows.
  { induction rows as [|r rows IH]; intros m Hm Hto; simpl; [done|].
    apply IH; [|intros r' Hr'; apply Hto; by right].
    assert (TOCOMID r ≠ 0) as Hr by (apply Hto; left).
    unfold add_row. case_decide.
    - by rewrite lookup_insert_ne.
    - rewrite lookup_append. by rewrite decide_False. }
  assert (∀ tbl (m : gmap Z (list Z)),
            m !! 0 = None → foldl (add_interLine zone) m tbl !! 0 = None) as Hinj.
  { induction tbl as [|l tbl IH]; intros m Hm; simpl; [done|].
    apply IH. unfold add_interLine. case_decide as Hl; [|done].
    rewrite lookup_append. rewrite decide_False by lia. done. }
  apply Hinj, Hrows; [apply lookup_empty|].
  intros r Hr. apply elem_of_filter_flow in Hr. tauto.
Qed.

End AdjacencyTheory.
(** ** What the output of the reduction holds *)

Module CellTheory.
Import Double Label Swapper Accum Segment DoubleTheory AccumTheory.

Lemma accumulate_column_segment arr indices lengths k col c z z' i :
  columns arr !! k = Some (col, c) →
  accumulate_column arr indices lengths col c z = Some z' →
  (i < length lengths)%nat →
  ∃ v, segment_value arr indices lengths k i = Some v ∧ z' !! i = Some v.
Proof.
  intros Hk Hz Hi. destruct (lookup_lt_is_Some_2 lengths i Hi) as [n Hn].
  unfold segment_value, segment_start. rewrite Hk, Hn. simpl.
  unfold accumulate_column in Hz.
  destruct (take_indices c indices) as [d|]; simpl in *; [|done].
  destruct (contains "PctFull" col).
  - destruct (columns arr !! O) as [[acol area]|]; simpl in *; [|done].
    destruct (take_indices area indices) as [ar|]; simpl in *; [|done].
    eexists. split; [done|].
    apply segment_loop_lookup in Hz as [_ Hz]. by apply (Hz i n).
  - eexists. split; [done|].
    apply segment_loop_lookup in Hz as [_ Hz]. by apply (Hz i n).
Qed.

(** X10: Every cell of the output, read off the metric table: for a query id
    that is kept, the cell of a column is the reduction of that column over
    the rows of the id's segment (a sum that skips NaN, or the area-weighted
    average for a ['PctFull'] column), unless the reduction of the column
    that [area] names is zero for the id and the column is not the one next
    to [COMID]: the cell is then NaN. *)
Theorem Accumulation_cell arr COMIDs lengths upStream tbl_type out indices i q k :
  Accumulation arr COMIDs lengths upStream tbl_type = Some out →
  swapper (COMID arr) upStream = Some indices →
  COMIDs !! i = Some q →
  q ∈ COMID arr →
  (i < length lengths)%nat →
  (k < length (columns arr))%nat →
  ∃ p a name cells v va,
    COMID out !! p = Some q
    ∧ output_labels tbl_type (columns arr).*1 ≫= area_column = Some a
    ∧ columns out !! k = Some (name, cells)
    ∧ segment_value arr indices lengths k i = Some v
    ∧ segment_value arr indices lengths a i = Some va
    ∧ cells !! p = Some (if decide (k ≠ O ∧ eq_zero va = true) then NaN else v).
Proof.
  intros Hacc Hsw Hq Hin Hi Hk.
  apply Accumulation_Some in Hacc
    as (ids & outs & labels & a & areav & HT & HL & HA & Hv & ->).
  apply outT_Some in HT as (indices' & outs0 & Hsw' & Hloop & -> & ->).
  rewrite Hsw in Hsw'. injection Hsw' as <-.
  set (keep := (λ c, bool_decide (c ∈ COMID arr)) <$> COMIDs) in *.
  set (p := length (filter (λ b, b = true) (take i keep))).
  assert (keep !! i = Some true) as Hkeep.
  { unfold keep. rewrite list_lookup_fmap, Hq. simpl. f_equal.
    by apply bool_decide_eq_true. }
  assert (length labels = length (columns arr)) as Hlen.
  { rewrite (output_labels_length _ _ _ HL). by rewrite length_fmap. }
  destruct (lookup_lt_is_Some_2 (columns arr) k Hk) as [[col c] Hcol].
  destruct (column_loop_lookup _ _ _ _ _ _ _ _ _ Hloop Hcol)
    as (zp & zk & Hzk & Hok & _).
  destruct (accumulate_column_segment _ _ _ _ _ _ _ _ i Hcol Hzk Hi)
    as (v & Hsv & Hzv).
  (* the column that [area] names *)
  rewrite list_lookup_fmap in Hv.
  destruct (outs0 !! a) as [za|] eqn:Hoa; simpl in Hv; [|done].
  injection Hv as <-.
  assert (a < length (columns arr))%nat as Halt.
  { rewrite <- (column_loop_length _ _ _ _ _ _ Hloop). by eapply lookup_lt_Some. }
  destruct (lookup_lt_is_Some_2 (columns arr) a Halt) as [[acol ac] Hacol].
  destruct (column_loop_lookup _ _ _ _ _ _ _ _ _ Hloop Hacol)
    as (zpa & za' & Hza & Hoa' & _).
  rewrite Hoa in Hoa'. injection Hoa' as <-.
  destruct (accumulate_column_segment _ _ _ _ _ _ _ _ i Hacol Hza Hi)
    as (va & Hsva & Hzva).
  destruct (lookup_lt_is_Some_2 labels k) as [name Hname]; [by rewrite Hlen|].
  assert (∀ col' : list double, select keep col' !! p = col' !! i) as Hsel.
  { intros col'. unfold p. by rewrite select_lookup. }
  exists p, a, name. simpl.
  assert (∃ cells,
            blank_from_2 (eq_zero <$> select keep za) (select keep <$> outs0) !! k
              = Some cells
            ∧ cells !! p
              = Some (if decide (k ≠ O ∧ eq_zero va = true) then NaN else v))
    as (cells & Hcells & Hcell).
  { destruct outs0 as [|first rest]; [done|]. destruct k as [|k]; simpl in *.
    - injection Hok as ->. exists (select keep zk). split; [done|].
      by rewrite Hsel, Hzv.
    - exists (blank (eq_zero <$> select keep za) (select keep zk)).
      split; [by rewrite !list_lookup_fmap, Hok|].
      unfold blank. rewrite lookup_zip_with_Some.
      exists (eq_zero va), v. split_and!.
      + destruct (eq_zero va).
        * by rewrite decide_True.
        * rewrite decide_False; [done|]. by intros [_ ?].
      + by rewrite list_lookup_fmap, Hsel, Hzva.
      + by rewrite Hsel. }
  exists cells, v, va. split_and!.
  - unfold p. by rewrite select_lookup.
  - rewrite HL. simpl. done.
  - rewrite lookup_zip_with_Some. by exists name, cells.
  - done.
  - done.
  - done.
Qed.

Lemma Accumulation_cell_witness :
  ∃ p a name cells v va,
    COMID Examples.coverage_Ws !! p = Some 3%Z
    ∧ output_labels "Ws" (columns Scenario.coverage).*1 ≫= area_column = Some a
    ∧ columns Examples.coverage_Ws !! 1%nat = Some (name, cells)
    ∧ segment_value Scenario.coverage [0; 1; 2; 1; 0]%nat [1; 1; 3]%nat 1 2
      = Some v
    ∧ segment_value Scenario.coverage [0; 1; 2; 1; 0]%nat [1; 1; 3]%nat a 2
      = Some va
    ∧ cells !! p
      = Some (if decide (1%nat ≠ O ∧ eq_zero va = true) then NaN else v).
Proof.
  apply (Accumulation_cell Scenario.coverage [1; 2; 3]%Z [1; 1; 3]%nat
           [1; 2; 3; 2; 1]%Z "Ws" Examples.coverage_Ws
           [0; 1; 2; 1; 0]%nat 2%nat 3%Z 1%nat).
  - vm_compute. reflexivity.
  - vm_compute. reflexivity.
  - reflexivity.
  - compute_done.
  - simpl. lia.
  - simpl. lia.
Defined.

End CellTheory.

(** ** Sums of cells *)

Module SumTheory.
Import Double Label Swapper Accum Segment DoubleTheory AccumTheory SwapperTheory.

(** [mapM] carries a reordering of its input over to its output. *)
Lemma mapM_Permutation {A B} (f : A → option B) l l' k k' :
  l ≡ₚ l' → mapM f l = Some k → mapM f l' = Some k' → k ≡ₚ k'.
Proof.
  intros Hp. revert k k'.
  induction Hp as [|x l l' _ IH|x y l|l l' l'' Hp1 IH1 Hp2 IH2]; intros k k'.
  - by intros [= <-] [= <-].
  - rewrite !mapM_Some. intros H1 H2.
    inversion H1 as [|? b ? k1 Hb Hk1]; subst.
    inversion H2 as [|? b' ? k2 Hb' Hk2]; subst.
    rewrite Hb in Hb'. injection Hb' as <-. constructor.
    apply IH; by apply mapM_Some.
  - rewrite !mapM_Some. intros H1 H2.
    inversion H1 as [|? b ? k1 Hb Hk1]; subst.
    inversion Hk1 as [|? b1 ? k1' Hb1 Hk1']; subst.
    inversion H2 as [|? c ? k2 Hc Hk2]; subst.
    inversion Hk2 as [|? c1 ? k2' Hc1 Hk2']; subst.
    rewrite Hb in Hc1. injection Hc1 as <-.
    rewrite Hb1 in Hc. injection Hc as <-.
    apply mapM_Some in Hk1', Hk2'. rewrite Hk1' in Hk2'. injection Hk2' as <-.
    apply perm_swap.
  - intros H1 H3.
    destruct (mapM f l') as [k2|] eqn:H2.
    + etrans; [by apply IH1|by apply IH2].
    + apply mapM_None in H2.
      exfalso. apply Exists_exists in H2 as (x & Hx & Hnone).
      assert (x ∈ l) as Hxl by (by rewrite Hp1).
      assert (is_Some (mapM f l)) as Hs by (by eexists).
      apply mapM_is_Some_1 in Hs. rewrite Forall_forall in Hs.
      destruct (Hs x Hxl) as [? Hsome]. simpl in Hsome. congruence.
Qed.

(** The cells and weights of a list of rows, paired. *)
Lemma take_indices_pairs (c area : list double) rows a w :
  take_indices c rows = Some a → take_indices area rows = Some w →
  mapM (λ r, x ← c !! r; y ← area !! r; Some (x, y)) rows = Some (zip a w).
Proof.
  unfold take_indices. rewrite !mapM_Some. intros Ha. revert w.
  induction Ha as [|r x rows a Hx _ IH]; intros w Hw.
  - inversion Hw. constructor.
  - inversion Hw as [|? y ? w' Hy Hw']; subst. simpl. constructor.
    + by rewrite Hx, Hy.
    + by apply IH.
Qed.

(** X11: The cells a segment reduces do not depend on the order in which
    the flat array lists the members of the closure: for two flat arrays
    whose segments for a query position are reorderings of each other, the
    cells of a column taken for the segment, paired with the areas taken
    for it, are reorderings of each other.  The two reductions then differ
    at most by the order in which they add. *)
Theorem segment_cells_member_order arr upStream upStream' indices indices'
    lengths i n (c area d d' ar ar' : list double) :
  swapper (COMID arr) upStream = Some indices →
  swapper (COMID arr) upStream' = Some indices' →
  lengths !! i = Some n →
  slice upStream (segment_start lengths i) n
    ≡ₚ slice upStream' (segment_start lengths i) n →
  take_indices c indices = Some d →
  take_indices c indices' = Some d' →
  take_indices area indices = Some ar →
  take_indices area indices' = Some ar' →
  slice d (segment_start lengths i) n ≡ₚ slice d' (segment_start lengths i) n
  ∧ zip (slice d (segment_start lengths i) n)
        (slice ar (segment_start lengths i) n)
    ≡ₚ zip (slice d' (segment_start lengths i) n)
           (slice ar' (segment_start lengths i) n).
Proof.
  intros Hsw Hsw' Hn Hperm Hd Hd' Har Har'.
  set (x := segment_start lengths i) in *.
  (* the rows of the two segments are reorderings of each other *)
  assert (slice indices x n ≡ₚ slice indices' x n) as Hrows.
  { apply swapper_Some in Hsw, Hsw'.
    apply mapM_Some in Hsw, Hsw'.
    eapply (mapM_Permutation _ _ _ _ _ Hperm).
    - unfold slice. apply mapM_Some, Forall2_take, Forall2_drop.
      by apply mapM_Some.
    - unfold slice. apply mapM_Some, Forall2_take, Forall2_drop.
      by apply mapM_Some. }
  pose proof (take_indices_slice _ _ _ x n Hd) as Hsd.
  pose proof (take_indices_slice _ _ _ x n Hd') as Hsd'.
  pose proof (take_indices_slice _ _ _ x n Har) as Hsa.
  pose proof (take_indices_slice _ _ _ x n Har') as Hsa'.
  split.
  - by apply (mapM_Permutation _ _ _ _ _ Hrows Hsd Hsd').
  - pose proof (take_indices_pairs _ _ _ _ _ Hsd Hsa) as Hz.
    pose proof (take_indices_pairs _ _ _ _ _ Hsd' Hsa') as Hz'.
    by apply (mapM_Permutation _ _ _ _ _ Hrows Hz Hz').
Qed.

Lemma segment_cells_member_order_witness :
  slice [Num 100; Num 100; Num 100; Num 100; Num 100] 2 3
    ≡ₚ slice [Num 100; Num 100; Num 100; Num 100; Num 100] 2 3
  ∧ zip (slice [Num 100; Num 100; Num 100; Num 100; Num 100] 2 3)
        (slice [Num 1; Num 2; Num 3; Num 2; Num 1] 2 3)
    ≡ₚ zip (slice [Num 100; Num 100; Num 100; Num 100; Num 100] 2 3)
           (slice [Num 1; Num 2; Num 1; Num 3; Num 2] 2 3).
Proof.
  apply (segment_cells_member_order Scenario.coverage
           [1; 2; 3; 2; 1]%Z [1; 2; 1; 3; 2]%Z
           [0; 1; 2; 1; 0]%nat [0; 1; 0; 2; 1]%nat
           [1; 1; 3]%nat 2%nat 3%nat
           [Num 100; Num 100; Num 100] [Num 1; Num 2; Num 3]).
  - vm_compute. reflexivity.
  - vm_compute. reflexivity.
  - reflexivity.
  - vm_compute. apply (perm_trans (l' := [3; 1; 2]%Z)).
    + apply perm_skip, perm_swap.
    + apply perm_swap.
  - reflexivity.
  - reflexivity.
  - reflexivity.
  - reflexivity.
Defined.

End SumTheory.

(** ** When the reduction raises *)

Module RaiseTheory.
Import Double Label Swapper Accum Segment DoubleTheory AccumTheory SwapperTheory.

Lemma searchsorted1_le s u : (searchsorted1 s u ≤ length s)%nat.
Proof. induction s as [|x s IH]; simpl; [lia|]. case_decide; lia. Qed.

Lemma searchsorted1_lt s u :
  (searchsorted1 s u < length s)%nat ↔ ∃ c, c ∈ s ∧ (u ≤ c)%Z.
Proof.
  induction s as [|x s IH]; simpl.
  - split; [lia|]. intros (c & Hc & _). by apply elem_of_nil in Hc.
  - case_decide as Hx.
    + rewrite <- Nat.succ_lt_mono, IH. split.
      * intros (c & Hc & Hle). exists c. split; [by right|done].
      * intros (c & [->|Hc]%elem_of_cons & Hle); [lia|]. by exists c.
    + split; [|lia]. intros _. exists x. split; [left|lia].
Qed.

(** [swapper] returns exactly when no id of [upStream] is above every id of
    [coms]. *)
Lemma swapper_is_Some coms upStream :
  is_Some (swapper coms upStream) ↔
  ∀ u, u ∈ upStream → ∃ c, c ∈ coms ∧ (u ≤ c)%Z.
Proof.
  unfold swapper. rewrite take_indices_argsort. simpl.
  unfold take_indices, searchsorted. rewrite mapM_is_Some, Forall_fmap, Forall_forall.
  assert (length (argsort coms) = length (sorted_pairs coms).*1) as Hlen.
  { unfold argsort. by rewrite !length_fmap. }
  split.
  - intros H u Hu. specialize (H u Hu). simpl in H.
    apply lookup_lt_is_Some_1 in H. rewrite Hlen in H.
    apply searchsorted1_lt in H as (c & Hc & Hle). exists c. split; [|done].
    by rewrite <- sorted_pairs_values.
  - intros H u Hu. destruct (H u Hu) as (c & Hc & Hle). simpl.
    apply lookup_lt_is_Some_2. rewrite Hlen. apply searchsorted1_lt.
    exists c. split; [|done]. by rewrite sorted_pairs_values.
Qed.

(** The positions [swapper] returns are positions of [coms]. *)
Lemma swapper_bound coms upStream indices :
  swapper coms upStream = Some indices →
  Forall (λ i, (i < length coms)%nat) indices.
Proof.
  intros H%swapper_Some. induction H as [|u i us is_ Hi _ IH]; constructor; [|done].
  unfold argsort in Hi. rewrite list_lookup_fmap in Hi.
  destruct (sorted_pairs coms !! _) as [[v j]|] eqn:Hp; simpl in Hi; [|done].
  injection Hi as <-.
  assert (coms !! j = Some v) as Hj.
  { apply sorted_pairs_lookup. apply list_elem_of_lookup. eauto. }
  by eapply lookup_lt_Some.
Qed.

Lemma take_indices_is_Some {A} (a : list A) idx :
  Forall (λ i, (i < length a)%nat) idx → is_Some (take_indices a idx).
Proof.
  intros H. apply mapM_is_Some. eapply Forall_impl; [exact H|].
  intros i Hi. simpl. by apply lookup_lt_is_Some_2.
Qed.

Lemma segment_loop_is_Some f ls i x z :
  is_Some (segment_loop f ls i x z) ↔ ls = [] ∨ (i + length ls ≤ length z)%nat.
Proof.
  revert i x z. induction ls as [|n ls IH]; intros i x z; simpl.
  - split; [auto|]. intros _. by eexists.
  - case_decide as Hi.
    + rewrite IH, length_insert. split.
      * intros [->|?]; right; simpl; lia.
      * intros [?|?]; [done|]. right. lia.
    + split; [by intros [? ?]|]. intros [?|?]; [done|lia].
Qed.

Lemma area_column_is_Some labels :
  is_Some (area_column labels) ↔ ∃ l, l ∈ labels ∧ contains "AreaSqKm" l = true.
Proof.
  induction labels as [|name rest IH]; simpl.
  - split; [by intros [? ?]|]. intros (l & Hl & _). by apply elem_of_nil in Hl.
  - destruct (area_column rest) as [j|] eqn:Hrest.
    + split; [|by eexists]. intros _.
      destruct (proj1 IH ltac:(by eexists)) as (l & Hl & Hc).
      exists l. split; [by right|done].
    + destruct (contains "AreaSqKm" name) eqn:Hn.
      * split; [|by eexists]. intros _. exists name. split; [left|done].
      * split; [by intros [? ?]|].
        intros (l & [->|Hl]%elem_of_cons & Hc); [congruence|].
        apply IH. by exists l.
Qed.

Lemma area_column_lt labels a : area_column labels = Some a → (a < length labels)%nat.
Proof.
  revert a. induction labels as [|name rest IH]; intros a; simpl; [done|].
  destruct (area_column rest) as [j|].
  - intros [= <-]. specialize (IH j eq_refl). lia.
  - destruct (contains "AreaSqKm" name); [|done]. intros [= <-]. lia.
Qed.

Lemma column_loop_is_Some arr indices lengths cols z :
  Forall (λ i, (i < length (COMID arr))%nat) indices →
  (∀ c, c ∈ columns arr → length c.2 = length (COMID arr)) →
  (∀ c, c ∈ cols → c ∈ columns arr) →
  is_Some (column_loop arr indices lengths cols z) ↔
  cols = [] ∨ (length lengths ≤ length z)%nat.
Proof.
  intros Hidx Hwf. revert z. induction cols as [|[col c] cols IH]; intros z Hsub; simpl.
  - split; [auto|]. intros _. by eexists.
  - assert ((col, c) ∈ columns arr) as Hc by (apply Hsub; left).
    assert (is_Some (take_indices c indices)) as [d Hd].
    { apply take_indices_is_Some. pose proof (Hwf _ Hc) as Hlc.
      simpl in Hlc. by rewrite Hlc. }
    assert (is_Some (accumulate_column arr indices lengths col c z) ↔
            (length lengths ≤ length z)%nat) as Hcol.
    { unfold accumulate_column. rewrite Hd. simpl.
      destruct (contains "PctFull" col).
      - destruct (columns arr) as [|[acol area] others] eqn:Hcols;
          [by apply elem_of_nil in Hc|].
        simpl.
        assert (is_Some (take_indices area indices)) as [ar ->].
        { apply take_indices_is_Some.
          pose proof (Hwf (acol, area) ltac:(left)) as Hla.
          simpl in Hla. by rewrite Hla. }
        simpl. rewrite segment_loop_is_Some. simpl.
        split; [intros [->|?]; simpl; lia|auto].
      - rewrite segment_loop_is_Some. simpl.
        split; [intros [->|?]; simpl; lia|auto]. }
    split.
    + intros [outs Houts]. right. apply Hcol.
      destruct (accumulate_column _ _ _ _ _ _); [by eexists|done].
    + intros [?|Hle]; [done|].
      destruct (proj2 Hcol Hle) as [z' Hz']. rewrite Hz'. simpl.
      assert (is_Some (column_loop arr indices lengths cols z')) as [outs ->].
      { apply IH; [intros c' Hc'; apply Hsub; by right|].
        right. by rewrite (accumulate_column_length _ _ _ _ _ _ _ Hz'). }
      by eexists.
Qed.

(** X14: On a well-formed metric table [Accumulation] returns a table exactly
    when no id of [upStream] is above every COMID of the table, [lengths]
    has no more entries than [COMIDs], [tbl_type] is 'Ws' or 'UpCat', and
    one of the labels, as renamed for the output, contains 'AreaSqKm'.  In
    every other case it raises. *)
Theorem Accumulation_returns_iff arr COMIDs lengths upStream tbl_type :
  well_formed arr →
  is_Some (Accumulation arr COMIDs lengths upStream tbl_type) ↔
  (∀ u, u ∈ upStream → ∃ c, c ∈ COMID arr ∧ (u ≤ c)%Z)
  ∧ (length lengths ≤ length COMIDs)%nat
  ∧ (tbl_type = "Ws" ∨ tbl_type = "UpCat")
  ∧ ∃ labels l,
      output_labels tbl_type (columns arr).*1 = Some labels
      ∧ l ∈ labels ∧ contains "AreaSqKm" l = true.
Proof.
  intros [_ Hwf]. split.
  - intros [out Hout]. pose proof Hout as Hacc.
    apply Accumulation_Some in Hacc
      as (ids & outs & labels & a & areav & HT & HL & HA & Hv & _).
    apply outT_Some in HT as (indices & outs0 & Hsw & Hloop & _ & _).
    destruct (proj1 (area_column_is_Some labels) ltac:(by eexists))
      as (l & Hl & Hc).
    split_and!.
    + apply swapper_is_Some. by eexists.
    + assert (columns arr ≠ []) as Hne.
      { intros Hnil. pose proof (output_labels_length _ _ _ HL) as Hlen.
        rewrite Hnil in Hlen. destruct labels; [|done].
        by apply elem_of_nil in Hl. }
      pose proof (column_loop_is_Some arr indices lengths (columns arr)
                    (replicate (length COMIDs) (Num 0))
                    (swapper_bound _ _ _ Hsw) Hwf ltac:(done)) as Hiff.
      destruct (proj1 Hiff ltac:(by eexists)) as [?|Hle]; [done|].
      by rewrite length_replicate in Hle.
    + unfold output_labels in HL. repeat case_decide; auto. done.
    + by exists labels, l.
  - intros (Hup & Hlen & Htype & labels & l & HL & Hl & Hc).
    destruct (proj2 (swapper_is_Some _ _) Hup) as [indices Hsw].
    pose proof (column_loop_is_Some arr indices lengths (columns arr)
                  (replicate (length COMIDs) (Num 0))
                  (swapper_bound _ _ _ Hsw) Hwf ltac:(done)) as Hiff.
    destruct (proj2 Hiff) as [outs0 Hloop].
    { right. by rewrite length_replicate. }
    destruct (proj2 (area_column_is_Some labels)) as [a Ha]; [by exists l|].
    unfold Accumulation, outT. rewrite Hsw. simpl. rewrite Hloop. simpl.
    rewrite HL. simpl. rewrite Ha. simpl.
    assert (a < length outs0)%nat as Halt.
    { rewrite (column_loop_length _ _ _ _ _ _ Hloop).
      pose proof (area_column_lt _ _ Ha) as Hlt.
      rewrite (output_labels_length _ _ _ HL), length_fmap in Hlt. done. }
    rewrite list_lookup_fmap.
    destruct (lookup_lt_is_Some_2 outs0 a Halt) as [za ->]. simpl. by eexists.
Qed.

Lemma Accumulation_returns_iff_witness :
  is_Some (Accumulation Scenario.metrics [1; 2; 3]%Z [1; 1; 3]%nat
             [1; 2; 3; 2; 1]%Z "Ws") ↔
  (∀ u, u ∈ [1; 2; 3; 2; 1]%Z → ∃ c, c ∈ COMID Scenario.metrics ∧ (u ≤ c)%Z)
  ∧ (length [1; 1; 3]%nat ≤ length [1; 2; 3]%Z)%nat
  ∧ ("Ws"%string = "Ws"%string ∨ "Ws"%string = "UpCat"%string)
  ∧ ∃ labels l,
      output_labels "Ws" (columns Scenario.metrics).*1 = Some labels
      ∧ l ∈ labels ∧ contains "AreaSqKm" l = true.
Proof.
  apply (Accumulation_returns_iff Scenario.metrics [1; 2; 3]%Z [1; 1; 3]%nat
           [1; 2; 3; 2; 1]%Z "Ws").
  split; [compute_done|]. apply Forall_forall. compute_done.
Defined.

End RaiseTheory.

(** ** When the boundary correction raises *)

Module AdjustRaiseTheory.
Import Double Adjust AdjustTheory.

Lemma row_position_None t c : c ∉ COMID t → row_position t c = None.
Proof.
  intros Hc. unfold row_position.
  destruct (list_find _ _) as [[i x]|] eqn:Hf; [|done].
  apply list_find_Some in Hf as (Hi & -> & _).
  exfalso. apply Hc. apply list_elem_of_lookup. eauto.
Qed.

Lemma column_None t l : l ∉ (columns t).*1 → column t l = None.
Proof.
  intros Hl. unfold column.
  destruct (list_find _ _) as [[i [l' c]]|] eqn:Hf; [|done].
  apply list_find_Some in Hf as (Hi & Heq & _). simpl in Heq. subst l'.
  exfalso. apply Hl. apply list_elem_of_fmap. exists (l, c).
  split; [done|]. apply list_elem_of_lookup. eauto.
Qed.

(** In a well-formed table a cell cannot be read exactly when its row or
    its column is missing. *)
Lemma get_cell_None_iff t c l :
  well_formed t →
  get_cell t c l = None ↔ c ∉ COMID t ∨ l ∉ (columns t).*1.
Proof.
  intros Hwf. split.
  - intros Hnone.
    destruct (decide (c ∈ COMID t)) as [Hc|Hc]; [|by left].
    destruct (decide (l ∈ (columns t).*1)) as [Hl|Hl]; [|by right].
    destruct (get_cell_is_Some t c l Hwf Hc Hl) as [? ?]. congruence.
  - unfold get_cell. intros [Hc|Hl].
    + by rewrite row_position_None.
    + rewrite column_None by done. by destruct (row_position t c).
Qed.

Lemma adjust_loop_None ls tbl tbl2 c1 c2 :
  adjust_loop ls tbl tbl2 c1 c2 = None ↔
  ∃ l, l ∈ ls ∧ (get_cell tbl c1 l = None ∨ get_cell tbl2 c2 l = None).
Proof.
  revert tbl. induction ls as [|idx ls IH]; intros tbl; simpl.
  - split; [done|]. intros (l & Hl & _). by apply elem_of_nil in Hl.
  - destruct (get_cell tbl c1 idx) as [a|] eqn:Ha; simpl.
    2:{ split; [|done]. intros _. exists idx. split; [left|by left]. }
    destruct (get_cell tbl2 c2 idx) as [b|] eqn:Hb; simpl.
    2:{ split; [|done]. intros _. exists idx. split; [left|by right]. }
    destruct (set_cell tbl c1 idx (sub a b)) as [tbl1|] eqn:Hset.
    2:{ unfold set_cell, get_cell in *.
        destruct (row_position tbl c1); simpl in *; done. }
    simpl. rewrite IH.
    assert (∀ l, get_cell tbl1 c1 l = None ↔ get_cell tbl c1 l = None) as Hsame.
    { intros l. rewrite (get_set_cell tbl c1 idx (sub a b) tbl1 c1 l) by eauto.
      case_decide as Hd; [|done]. destruct Hd as [_ ->]. rewrite Ha. done. }
    split.
    + intros (l & Hl & Hnone). exists l. split; [by right|].
      by rewrite <- Hsame.
    + intros (l & [->|Hl]%elem_of_cons & Hnone).
      * destruct Hnone; congruence.
      * exists l. split; [done|]. by rewrite Hsame.
Qed.

(** X15: On well-formed tables [AdjustCOMs] raises exactly when there is a column
    to adjust (the table has two columns or more) and the row of [comid1]
    is missing from [tbl], or the row of [comid2] or one of the columns to
    adjust is missing from [tbl2].  A table with a single column is never
    touched, and then no missing row is noticed. *)
Theorem AdjustCOMs_raises_iff tbl comid1 comid2 tbl2 :
  well_formed tbl →
  well_formed (default tbl tbl2) →
  AdjustCOMs tbl comid1 comid2 tbl2 = None ↔
  ∃ l, l ∈ removelast (columns tbl).*1
       ∧ (comid1 ∉ COMID tbl
          ∨ comid2 ∉ COMID (default tbl tbl2)
          ∨ l ∉ (columns (default tbl tbl2)).*1).
Proof.
  intros Hwf Hwf2. unfold AdjustCOMs. rewrite adjust_loop_None.
  split; intros (l & Hl & H); exists l; (split; [done|]).
  - destruct H as [H|H].
    + apply (get_cell_None_iff _ _ _ Hwf) in H as [?|Hl']; [auto|].
      exfalso. apply Hl'. by apply removelast_subseteq.
    + apply (get_cell_None_iff _ _ _ Hwf2) in H as [?|?]; auto.
  - destruct H as [H|[H|H]].
    + left. apply (get_cell_None_iff _ _ _ Hwf). auto.
    + right. apply (get_cell_None_iff _ _ _ Hwf2). auto.
    + right. apply (get_cell_None_iff _ _ _ Hwf2). auto.
Qed.

Lemma AdjustCOMs_raises_iff_witness :
  AdjustCOMs Scenario.through 9 2 None = None ↔
  ∃ l, l ∈ removelast (columns Scenario.through).*1
       ∧ (9%Z ∉ COMID Scenario.through
          ∨ 2%Z ∉ COMID Scenario.through
          ∨ l ∉ (columns Scenario.through).*1).
Proof.
  apply (AdjustCOMs_raises_iff Scenario.through 9 2 None).
  - split; [compute_done|]. apply Forall_forall. compute_done.
  - split; [compute_done|]. apply Forall_forall. compute_done.
Defined.

End AdjustRaiseTheory.

(** ** Sorting *)

Module PySortTheory.
Import PySort.

Lemma insert_by_Permutation {A} (le : A → A → bool) x l :
  insert_by le x l ≡ₚ x :: l.
Proof.
  induction l as [|y l IH]; simpl; [done|].
  destruct (le x y); [done|]. rewrite IH. apply Permutation_swap.
Qed.

Lemma sort_by_Permutation {A} (le : A → A → bool) l : sort_by le l ≡ₚ l.
Proof.
  induction l as [|x l IH]; simpl; [done|].
  rewrite insert_by_Permutation. by f_equiv.
Qed.

End PySortTheory.

(** ** Connector tables *)

Module ConnectorTheory.
Import Double Accum Adjust PySort Frame Connectors AccumTheory AdjustTheory
  PySortTheory.
Local Open Scope Z_scope.

Lemma filter_ext_in {A} (P Q : A → Prop) `{∀ x, Decision (P x)}
    `{∀ x, Decision (Q x)} (l : list A) :
  (∀ x, x ∈ l → P x ↔ Q x) → filter P l = filter Q l.
Proof.
  induction l as [|x l IH]; intros HPQ; [done|].
  rewrite !filter_cons.
  rewrite IH by (intros y Hy; apply HPQ; by right).
  pose proof (HPQ x (list_elem_of_here _ _)).
  destruct (decide (P x)), (decide (Q x)); tauto || done.
Qed.

Lemma COMID_filter_rows P t :
  COMID (filter_rows P t) = filter (λ c, P c = true) (COMID t).
Proof. unfold filter_rows. simpl. apply select_filter. Qed.

Lemma labels_filter_rows P t : (columns (filter_rows P t)).*1 = (columns t).*1.
Proof. unfold filter_rows. simpl. by rewrite <- list_fmap_compose. Qed.

Lemma well_formed_filter_rows P t :
  well_formed t → well_formed (filter_rows P t).
Proof.
  intros [Hnd Hlen]. split; [by rewrite labels_filter_rows|].
  intros c Hc. unfold filter_rows in *. simpl in *.
  apply list_elem_of_fmap in Hc as (c' & -> & Hc'). simpl.
  apply select_length. by apply Hlen.
Qed.

(** The first row of a COMID among the rows kept by a mask on the key
    column. *)
Lemma list_find_select (P : Z → bool) c (ids : list Z) :
  list_find (λ x, x = c) (select (P <$> ids) ids) =
  if P c
  then prod_map
         (λ i, length (filter (λ b, b = true) (take i (P <$> ids)))) id
       <$> list_find (λ x, x = c) ids
  else None.
Proof.
  induction ids as [|x ids IH]; simpl.
  - by destruct (P c).
  - change (list_fmap _ _ P ids) with (P <$> ids).
    destruct (P x) eqn:Hx; simpl.
    + destruct (decide (x = c)) as [->|Hne].
      * rewrite Hx. done.
      * rewrite IH. destruct (P c); [|done].
        destruct (list_find _ ids) as [[i y]|]; simpl; [|done].
        done.
    + destruct (decide (x = c)) as [->|Hne].
      * rewrite Hx. rewrite IH, Hx. done.
      * rewrite IH. destruct (P c); [|done].
        destruct (list_find _ ids) as [[i y]|]; simpl; [|done].
        done.
Qed.

Lemma row_position_filter_rows P t c :
  row_position (filter_rows P t) c =
  if P c
  then (λ i, length (filter (λ b, b = true) (take i (P <$> COMID t))))
       <$> row_position t c
  else None.
Proof.
  unfold row_position, filter_rows. simpl. rewrite list_find_select.
  destruct (P c); [|done].
  by destruct (list_find _ (COMID t)) as [[i y]|].
Qed.

Lemma column_filter_rows P t l :
  column (filter_rows P t) l = select (P <$> COMID t) <$> column t l.
Proof.
  unfold column, filter_rows. simpl. rewrite list_find_fmap.
  rewrite (list_find_ext _ (λ c : string * list double, c.1 = l)).
  2:{ by intros [a b]. }
  by destruct (list_find _ (columns t)) as [[j [a b]]|].
Qed.

(** A cell of a kept row is the cell of that row before the selection. *)
Lemma get_cell_filter_rows P t c l :
  get_cell (filter_rows P t) c l = if P c then get_cell t c l else None.
Proof.
  unfold get_cell. rewrite row_position_filter_rows, column_filter_rows.
  destruct (P c) eqn:HP; [|done].
  destruct (row_position t c) as [i|] eqn:Hi; simpl; [|done].
  destruct (column t l) as [cells|]; simpl; [|done].
  apply select_lookup.
  rewrite list_lookup_fmap, (row_position_Some _ _ _ Hi). simpl.
  by rewrite HP.
Qed.

Lemma get_cell_absent t c l : c ∉ COMID t → get_cell t c l = None.
Proof.
  intros Hc. unfold get_cell.
  destruct (row_position t c) as [i|] eqn:Hi; [|done].
  apply row_position_Some, list_elem_of_lookup_2 in Hi. done.
Qed.

(** The loop over the connector's COMIDs leaves the rows of the other
    COMIDs. *)
Lemma drops_COMID xs cat :
  COMID (drop_listed cat xs) = filter (λ c, c ∉ xs) (COMID cat).
Proof.
  revert cat. induction xs as [|x xs IH]; intros cat; unfold drop_listed in *; simpl.
  - induction (COMID cat) as [|y l IHl]; [done|].
    rewrite filter_cons_True by apply not_elem_of_nil. by f_equal.
  - rewrite IH. case_decide as Hx.
    + unfold drop_COMID. rewrite COMID_filter_rows, list_filter_filter.
      apply filter_ext_in. intros y _.
      rewrite bool_decide_eq_true, not_elem_of_cons. tauto.
    + apply filter_ext_in. intros y Hy. rewrite not_elem_of_cons.
      split; [|tauto]. intros ?. split; [|done]. by intros ->.
Qed.

Lemma drops_labels xs cat : (columns (drop_listed cat xs)).*1 = (columns cat).*1.
Proof.
  revert cat. induction xs as [|x xs IH]; intros cat; unfold drop_listed in *; simpl; [done|].
  rewrite IH. case_decide; [|done]. apply labels_filter_rows.
Qed.

Lemma drops_well_formed xs cat : well_formed cat → well_formed (drop_listed cat xs).
Proof.
  revert cat. induction xs as [|x xs IH]; intros cat Hwf; unfold drop_listed in *; simpl; [done|].
  apply IH. case_decide; [|done]. by apply well_formed_filter_rows.
Qed.

Lemma drops_get_cell xs cat c l :
  get_cell (drop_listed cat xs) c l =
  if decide (c ∈ xs) then None else get_cell cat c l.
Proof.
  revert cat. induction xs as [|x xs IH]; intros cat;
    unfold drop_listed in *; cbn [foldl].
  - rewrite decide_False by apply not_elem_of_nil. done.
  - rewrite IH. destruct (decide (c ∈ xs)) as [Hc|Hc].
    + destruct (decide (c ∈ x :: xs)) as [_|[]]; [done|by right].
    + destruct (decide (c = x)) as [->|Hne].
      * destruct (decide (x ∈ x :: xs)) as [_|[]]; [|left].
        destruct (decide (x ∈ COMID cat)) as [Hx|Hx].
        -- unfold drop_COMID. rewrite get_cell_filter_rows.
           by rewrite bool_decide_eq_false_2 by tauto.
        -- by apply get_cell_absent.
      * destruct (decide (c ∈ x :: xs)) as [Hin|_];
          [apply elem_of_cons in Hin; tauto|].
        destruct (decide (x ∈ COMID cat)) as [Hx|Hx]; [|done].
        unfold drop_COMID. rewrite get_cell_filter_rows.
        by rewrite bool_decide_eq_true_2.
Qed.

Lemma COMID_append a b : COMID (append a b) = COMID a ++ COMID b.
Proof. done. Qed.

Lemma labels_append a b : (columns (append a b)).*1 = append_labels a b.
Proof.
  unfold append. simpl. rewrite <- list_fmap_compose. apply list_fmap_id.
Qed.

Lemma append_labels_l a b l :
  l ∈ (columns a).*1 → l ∈ append_labels a b.
Proof.
  intros Hl. unfold append_labels. case_decide; [done|].
  rewrite sort_by_Permutation, elem_of_remove_dups, elem_of_app. by left.
Qed.

Lemma column_append a b l :
  l ∈ append_labels a b →
  column (append a b) l = Some (append_column a b l).2.
Proof.
  intros Hl. unfold column, append. simpl. rewrite list_find_fmap.
  rewrite (list_find_ext _ (λ l' : string, l' = l)) by done.
  destruct (list_find_elem_of (λ l' : string, l' = l) (append_labels a b) l
              Hl eq_refl) as [[i y] Hf].
  rewrite Hf. simpl. apply list_find_Some in Hf as (_ & Hy & _).
  by subst y.
Qed.

Lemma column_append_l a b l cells :
  column a l = Some cells →
  column (append a b) l
  = Some (cells ++ default (replicate (length (COMID b)) NaN) (column b l)).
Proof.
  intros Hc. rewrite column_append.
  - simpl. by rewrite Hc.
  - apply append_labels_l. apply column_elem_of in Hc.
    apply list_elem_of_fmap. by exists (l, cells).
Qed.

(** Below the rows of the first frame come the rows of the second. *)
Lemma get_cell_append_l a b c l :
  well_formed a → c ∈ COMID a → l ∈ (columns a).*1 →
  get_cell (append a b) c l = get_cell a c l.
Proof.
  intros [_ Hlen] Hc Hl. unfold get_cell.
  destruct (row_position_is_Some a c Hc) as [i Hi].
  destruct (column_is_Some a l Hl) as [cells Hcells].
  rewrite Hi, Hcells, (column_append_l _ _ _ _ Hcells). simpl.
  unfold row_position in *. simpl.
  destruct (list_find _ (COMID a)) as [[i' y]|] eqn:Hf; simplify_eq/=.
  rewrite (list_find_app_l _ _ _ _ _ Hf). simpl.
  apply lookup_app_l.
  pose proof (Hlen _ (column_elem_of _ _ _ Hcells)) as Hl'. simpl in Hl'.
  rewrite Hl'. apply list_find_Some in Hf as (Hf & _).
  by eapply lookup_lt_Some.
Qed.

Lemma get_cell_append_r a b c l :
  well_formed a → c ∉ COMID a →
  l ∈ (columns a).*1 → l ∈ (columns b).*1 →
  get_cell (append a b) c l = get_cell b c l.
Proof.
  intros [_ Hlen] Hc Hl Hlb. unfold get_cell.
  destruct (column_is_Some a l Hl) as [cells Hcells].
  destruct (column_is_Some b l Hlb) as [cellsb Hcellsb].
  rewrite (column_append_l _ _ _ _ Hcells), Hcellsb. simpl.
  unfold row_position. simpl.
  rewrite list_find_app_r.
  2:{ apply list_find_None, Forall_forall. by intros x Hx ->. }
  destruct (list_find _ (COMID b)) as [[j y]|]; simpl; [|done].
  pose proof (Hlen _ (column_elem_of _ _ _ Hcells)) as Hl'. simpl in Hl'.
  rewrite lookup_app_r by lia. f_equal. lia.
Qed.

Lemma COMID_appendConnectors cat con zone interVPUtbl :
  COMID (appendConnectors cat con zone interVPUtbl)
  = filter (λ c, c ∉ COMID con) (COMID cat)
    ++ filter (λ c, c ∈ routed_COMIDs zone interVPUtbl) (COMID con).
Proof.
  unfold appendConnectors, append, isin_rows. simpl.
  rewrite drops_COMID. f_equal.
  rewrite select_filter. apply filter_ext_in. intros c _.
  apply bool_decide_eq_true.
Qed.

(** X16: The rows of the result of appendConnectors are the rows of the
    catchment table whose COMID the connector table does not list, in their
    order, followed by the rows of the connector table whose COMID the
    inter-VPU table routes into the zone, in their order; with the labels
    of the catchment table when the connector table has the same labels in
    the same order. *)
Theorem appendConnectors_shape cat con zone interVPUtbl :
  COMID (appendConnectors cat con zone interVPUtbl)
  = filter (λ c, c ∉ COMID con) (COMID cat)
    ++ filter (λ c, c ∈ routed_COMIDs zone interVPUtbl) (COMID con)
  ∧ ((columns con).*1 = (columns cat).*1 →
     (columns (appendConnectors cat con zone interVPUtbl)).*1
     = (columns cat).*1).
Proof.
  split; [apply COMID_appendConnectors|].
  intros Hlab. unfold appendConnectors.
  rewrite labels_append. unfold append_labels, isin_rows.
  rewrite drops_labels, labels_filter_rows.
  by rewrite decide_True.
Qed.

Lemma appendConnectors_shape_witness :
  COMID (appendConnectors Scenario.coverage ConnectorExamples.connector
           "01" ConnectorExamples.inter_lines) = [1; 2; 7]
  ∧ (columns (appendConnectors Scenario.coverage ConnectorExamples.connector
                "01" ConnectorExamples.inter_lines)).*1
    = (columns Scenario.coverage).*1.
Proof.
  destruct (appendConnectors_shape Scenario.coverage
              ConnectorExamples.connector "01" ConnectorExamples.inter_lines)
    as [Hids Hlab].
  split; [exact Hids|]. by apply Hlab.
Defined.

(** X17: a COMID listed in the connector table that the inter-VPU table does
    not route into the zone has no row in the result of appendConnectors,
    whether the catchment table had one or not. *)
Theorem appendConnectors_unrouted_lost cat con zone interVPUtbl c :
  c ∈ COMID con → c ∉ routed_COMIDs zone interVPUtbl →
  c ∉ COMID (appendConnectors cat con zone interVPUtbl).
Proof.
  intros Hc Hr. rewrite COMID_appendConnectors.
  rewrite elem_of_app, !list_elem_of_filter. tauto.
Qed.

Lemma appendConnectors_unrouted_lost_witness :
  3 ∈ COMID Scenario.coverage
  ∧ 3 ∉ COMID (appendConnectors Scenario.coverage ConnectorExamples.connector
                 "01" ConnectorExamples.inter_lines).
Proof.
  split; [compute_done|].
  apply (appendConnectors_unrouted_lost Scenario.coverage
           ConnectorExamples.connector "01" ConnectorExamples.inter_lines 3);
    compute_done.
Defined.

(** X18: appendConnectors keeps the COMIDs distinct: when neither table lists
    a COMID twice, the result does not either. *)
Theorem appendConnectors_NoDup cat con zone interVPUtbl :
  NoDup (COMID cat) → NoDup (COMID con) →
  NoDup (COMID (appendConnectors cat con zone interVPUtbl)).
Proof.
  intros Hcat Hcon. rewrite COMID_appendConnectors.
  apply NoDup_app. split; [by apply NoDup_filter|].
  split; [|by apply NoDup_filter].
  intros c. rewrite !list_elem_of_filter. tauto.
Qed.

Lemma appendConnectors_NoDup_witness :
  NoDup (COMID (appendConnectors Scenario.coverage ConnectorExamples.connector
                  "01" ConnectorExamples.inter_lines)).
Proof.
  apply (appendConnectors_NoDup Scenario.coverage ConnectorExamples.connector
           "01" ConnectorExamples.inter_lines); compute_done.
Defined.

(** X19: in the result of appendConnectors the row of a routed COMID of the
    connector table holds the connector's values, also when the catchment
    table had a row for it, and the row of a COMID the connector table does
    not list holds the catchment table's values. *)
Theorem appendConnectors_cells cat con zone interVPUtbl c l :
  well_formed cat → l ∈ (columns cat).*1 → l ∈ (columns con).*1 →
  (c ∈ COMID con → c ∈ routed_COMIDs zone interVPUtbl →
   get_cell (appendConnectors cat con zone interVPUtbl) c l
   = get_cell con c l)
  ∧ (c ∉ COMID con →
     get_cell (appendConnectors cat con zone interVPUtbl) c l
     = get_cell cat c l).
Proof.
  intros Hwf Hl Hlc. unfold appendConnectors.
  pose proof (drops_well_formed (COMID con) cat Hwf) as Hwf'.
  pose proof (drops_labels (COMID con) cat) as Hlab.
  pose proof (drops_COMID (COMID con) cat) as Hids.
  split.
  - intros Hc Hr. rewrite get_cell_append_r.
    + unfold isin_rows. rewrite get_cell_filter_rows.
      by rewrite bool_decide_eq_true_2.
    + done.
    + rewrite Hids, list_elem_of_filter. tauto.
    + by rewrite Hlab.
    + unfold isin_rows. by rewrite labels_filter_rows.
  - intros Hc. destruct (decide (c ∈ COMID cat)) as [Hin|Hout].
    + rewrite get_cell_append_l.
      * rewrite drops_get_cell. by rewrite decide_False.
      * done.
      * rewrite Hids, list_elem_of_filter. tauto.
      * by rewrite Hlab.
    + rewrite !get_cell_absent; [done|done|].
      rewrite COMID_append, Hids, elem_of_app.
      unfold isin_rows. rewrite COMID_filter_rows, !list_elem_of_filter.
      tauto.
Qed.

Lemma appendConnectors_cells_witness :
  get_cell (appendConnectors Scenario.coverage ConnectorExamples.connector
              "01" ConnectorExamples.inter_lines) 7 "CatSum"
  = get_cell ConnectorExamples.connector 7 "CatSum"
  ∧ get_cell (appendConnectors Scenario.coverage ConnectorExamples.connector
                "01" ConnectorExamples.inter_lines) 2 "CatSum"
    = get_cell Scenario.coverage 2 "CatSum".
Proof.
  assert (well_formed Scenario.coverage) as Hwf.
  { split; [compute_done|]. apply Forall_forall. compute_done. }
  split.
  - refine (proj1 (appendConnectors_cells Scenario.coverage
                     ConnectorExamples.connector "01"
                     ConnectorExamples.inter_lines 7 "CatSum" Hwf _ _) _ _);
      compute_done.
  - refine (proj2 (appendConnectors_cells Scenario.coverage
                     ConnectorExamples.connector "01"
                     ConnectorExamples.inter_lines 2 "CatSum" Hwf _ _) _);
      compute_done.
Defined.

End ConnectorTheory.

(** ** Category columns *)

Module ColumnTheory.
Import Double Adjust PySort ColumnCheck AdjustTheory AdjustRaiseTheory
  PySortTheory.

(** *** The order of byte strings *)

Lemma string_compare_trans a b c :
  String.compare a b ≠ Gt → String.compare b c ≠ Gt →
  String.compare a c ≠ Gt.
Proof.
  revert b c. induction a as [|x a IH]; intros [|y b] [|z c]; simpl;
    try done.
  unfold Ascii.compare.
  destruct (N.compare_spec (Ascii.N_of_ascii x) (Ascii.N_of_ascii y));
    destruct (N.compare_spec (Ascii.N_of_ascii y) (Ascii.N_of_ascii z));
    destruct (N.compare_spec (Ascii.N_of_ascii x) (Ascii.N_of_ascii z));
    try done; try lia.
  apply IH.
Qed.

Lemma leb_trans a b c :
  String.leb a b = true → String.leb b c = true → String.leb a c = true.
Proof.
  unfold String.leb. intros Hab Hbc.
  pose proof (string_compare_trans a b c) as H.
  destruct (String.compare a b), (String.compare b c),
    (String.compare a c); try done; exfalso; by apply H.
Qed.

Lemma label_le_length a b :
  label_le a b = true → String.length a ≤ String.length b.
Proof.
  unfold label_le. rewrite orb_true_iff, andb_true_iff.
  rewrite Nat.ltb_lt, Nat.eqb_eq. lia.
Qed.

Lemma label_le_intro a b :
  String.length a ≤ String.length b → String.leb a b = true →
  label_le a b = true.
Proof.
  unfold label_le. rewrite orb_true_iff, andb_true_iff.
  rewrite Nat.ltb_lt, Nat.eqb_eq. intros Hlen Hle.
  destruct (decide (String.length a = String.length b)); [by right|].
  left. lia.
Qed.

Lemma label_le_antisym a b :
  label_le a b = true → label_le b a = true → a = b.
Proof.
  unfold label_le. rewrite !orb_true_iff, !andb_true_iff.
  rewrite !Nat.ltb_lt, !Nat.eqb_eq.
  intros [?|[? ?]] [?|[? ?]]; try lia. by apply String.leb_antisym.
Qed.

(** *** Stable sorting *)

Lemma insert_by_Sorted {A} (le : A → A → bool) x l :
  (∀ a b, le a b = true ∨ le b a = true) →
  Sorted (λ a b, le a b = true) l →
  Sorted (λ a b, le a b = true) (insert_by le x l).
Proof.
  intros Htot. induction 1 as [|y l Hs IH Hhd]; simpl.
  - by repeat constructor.
  - destruct (le x y) eqn:Hxy.
    + constructor; [by constructor|]. by constructor.
    + constructor; [done|].
      destruct l as [|z l]; simpl.
      * constructor. destruct (Htot x y); congruence.
      * destruct (le x z).
        -- constructor. destruct (Htot x y); congruence.
        -- constructor. by inversion Hhd.
Qed.

Lemma sort_by_Sorted {A} (le : A → A → bool) l :
  (∀ a b, le a b = true ∨ le b a = true) →
  Sorted (λ a b, le a b = true) (sort_by le l).
Proof.
  intros Htot. induction l as [|x l IH]; simpl; [constructor|].
  by apply insert_by_Sorted.
Qed.

(** Sorted by characters, every later entry is not smaller. *)
Lemma sort_by_leb_StronglySorted l :
  StronglySorted (λ a b, String.leb a b = true) (sort_by String.leb l).
Proof.
  apply Sorted_StronglySorted.
  - intros a b c. apply leb_trans.
  - apply sort_by_Sorted, String.leb_total.
Qed.

(** The sort by length keeps labels of one length in the order of their
    characters. *)
Lemma insert_by_length_stable x s :
  StronglySorted (λ a b, label_le a b = true) s →
  Forall (λ y, String.leb x y = true) s →
  StronglySorted (λ a b, label_le a b = true)
    (insert_by (λ a b, String.length a <=? String.length b)%nat x s).
Proof.
  induction 1 as [|y s Hs IH Hall]; intros Hx; simpl.
  - by repeat constructor.
  - apply Forall_cons in Hx as [Hxy Hxs].
    destruct (String.length x <=? String.length y)%nat eqn:Hlen.
    + apply Nat.leb_le in Hlen. constructor; [by constructor|].
      constructor; [by apply label_le_intro|].
      rewrite Forall_forall in Hall, Hxs. apply Forall_forall.
      intros z Hz. apply label_le_intro; [|by apply Hxs].
      pose proof (label_le_length _ _ (Hall z Hz)). lia.
    + apply Nat.leb_gt in Hlen. constructor; [by apply IH|].
      rewrite insert_by_Permutation. constructor; [|done].
      unfold label_le. apply orb_true_iff. left. by apply Nat.ltb_lt.
Qed.

Lemma sort_by_length_stable l :
  StronglySorted (λ a b, String.leb a b = true) l →
  StronglySorted (λ a b, label_le a b = true)
    (sort_by (λ a b, String.length a <=? String.length b)%nat l).
Proof.
  induction 1 as [|x l Hs IH Hall]; simpl; [constructor|].
  apply insert_by_length_stable; [done|].
  by rewrite sort_by_Permutation.
Qed.

Lemma sort_labels_Permutation l : sort_labels l ≡ₚ l.
Proof. unfold sort_labels. by rewrite !sort_by_Permutation. Qed.

Lemma sort_labels_sorted l :
  StronglySorted (λ a b, label_le a b = true) (sort_labels l).
Proof. apply sort_by_length_stable, sort_by_leb_StronglySorted. Qed.

(** The two sorts give the one arrangement of the labels that is ordered by
    length and then by characters. *)
Lemma sort_labels_unique l l' :
  StronglySorted (λ a b, label_le a b = true) l' → l ≡ₚ l' →
  sort_labels l = l'.
Proof.
  intros Hs Hp. eapply StronglySorted_unique_strong.
  - intros a b _ _. apply label_le_antisym.
  - apply sort_labels_sorted.
  - done.
  - by rewrite sort_labels_Permutation.
Qed.

(** *** Ordered lists of labels *)

Lemma sorted_lt_le cats :
  StronglySorted label_lt cats →
  StronglySorted (λ a b, label_le a b = true) cats.
Proof.
  induction 1 as [|x l Hs IH Hall]; constructor; [done|].
  eapply Forall_impl; [exact Hall|]. by intros y [? _].
Qed.

Lemma sorted_lt_NoDup cats : StronglySorted label_lt cats → NoDup cats.
Proof.
  induction 1 as [|x l Hs IH Hall]; constructor; [|done].
  intros Hx. rewrite Forall_forall in Hall.
  by destruct (Hall x Hx) as [_ []].
Qed.

Lemma StronglySorted_filter {A} (R : relation A) (P : A → Prop)
    `{∀ x, Decision (P x)} l :
  StronglySorted R l → StronglySorted R (filter P l).
Proof.
  induction 1 as [|x l Hs IH Hall]; [constructor|].
  rewrite filter_cons. destruct (decide (P x)); [|done].
  constructor; [done|]. rewrite Forall_forall in Hall.
  apply Forall_forall. intros y Hy. apply list_elem_of_filter in Hy as [_ Hy].
  by apply Hall.
Qed.

Lemma remove_dups_NoDup {A} `{EqDecision A} (l : list A) :
  NoDup l → remove_dups l = l.
Proof.
  induction 1 as [|x l Hx Hnd IH]; simpl; [done|].
  destruct (decide_rel elem_of x l); [done|]. by f_equal.
Qed.

Lemma filter_length_all {A} (P : A → Prop) `{∀ x, Decision (P x)} l :
  length (filter P l) = length l → filter P l = l.
Proof.
  induction l as [|x l IH]; [done|].
  rewrite filter_cons. pose proof (length_filter P l) as Hle.
  destruct (decide (P x)); simpl; intros Hlen.
  - f_equal. apply IH. lia.
  - lia.
Qed.

Lemma list_find_middle {A} `{EqDecision A} (done todo : list A) x :
  x ∉ done →
  list_find (λ l, l = x) (done ++ x :: todo) = Some (length done, x).
Proof.
  intros Hx. rewrite list_find_app_r.
  2:{ apply list_find_None, Forall_forall. by intros y Hy ->. }
  simpl. by rewrite decide_True.
Qed.

(** *** Columns by label *)

Lemma column_None_iff t l : column t l = None ↔ l ∉ (columns t).*1.
Proof.
  split; [|apply column_None].
  intros Hnone Hl. destruct (column_is_Some t l Hl) as [? ?]. congruence.
Qed.

Lemma column_Some_iff t l cells :
  NoDup (columns t).*1 →
  column t l = Some cells ↔ (l, cells) ∈ columns t.
Proof.
  intros Hnd. split; [apply column_elem_of|].
  intros Hin.
  assert (l ∈ (columns t).*1) as Hl.
  { apply list_elem_of_fmap. by exists (l, cells). }
  destruct (column_is_Some t l Hl) as [cells' Hc]. rewrite Hc. f_equal.
  apply column_elem_of in Hc.
  apply list_elem_of_lookup in Hin as [i Hi].
  apply list_elem_of_lookup in Hc as [j Hj].
  assert (i = j) as ->.
  { eapply NoDup_lookup; [exact Hnd| |].
    - by rewrite list_lookup_fmap, Hi.
    - by rewrite list_lookup_fmap, Hj. }
  congruence.
Qed.

(** Two tables with distinct labels that hold the same columns read the
    same by label. *)
Lemma column_same_members t t' :
  NoDup (columns t).*1 → NoDup (columns t').*1 →
  (∀ c, c ∈ columns t' ↔ c ∈ columns t) →
  ∀ l, column t' l = column t l.
Proof.
  intros Hnd Hnd' Hsame l.
  destruct (column t l) as [cells|] eqn:Hc.
  - apply column_Some_iff; [done|]. apply Hsame.
    by apply column_Some_iff.
  - destruct (column t' l) as [cells'|] eqn:Hc'; [|done].
    apply column_Some_iff, Hsame, column_Some_iff in Hc'; [|done..].
    congruence.
Qed.

Lemma mapM_columns table ls :
  (∀ l, l ∈ ls → l ∈ (columns table).*1) →
  mapM (λ l, (λ cells, (l, cells)) <$> column table l) ls
  = Some ((λ l, (l, default [] (column table l))) <$> ls).
Proof.
  induction ls as [|l ls IH]; intros Hin; [done|].
  simpl.
  destruct (column_is_Some table l) as [cells Hc]; [apply Hin; left|].
  rewrite Hc. simpl. rewrite IH by (intros; apply Hin; by right). done.
Qed.

(** [table[col_list]] with all the labels of the table: the same columns,
    in the order of the list. *)
Lemma reorder_spec table col_list :
  NoDup (columns table).*1 → col_list ≡ₚ (columns table).*1 →
  ∃ t', reorder table col_list = Some t'
        ∧ COMID t' = COMID table
        ∧ (columns t').*1 = col_list
        ∧ ∀ l, column t' l = column table l.
Proof.
  intros Hnd Hp. unfold reorder.
  rewrite mapM_columns by (intros l; by rewrite Hp).
  simpl. eexists. split; [done|]. split; [done|].
  assert ((((λ l, (l, default [] (column table l))) <$> col_list).*1
           = col_list)) as Hlab.
  { rewrite <- list_fmap_compose. apply list_fmap_id. }
  split; [done|].
  apply column_same_members; simpl; [done|by rewrite Hlab, Hp|].
  intros [l cells]. rewrite list_elem_of_fmap. split.
  - intros (l' & [= -> ->] & Hl').
    rewrite Hp in Hl'. destruct (column_is_Some table l' Hl') as [c Hc].
    rewrite Hc. simpl. by apply column_elem_of.
  - intros Hin. exists l. split.
    + apply column_Some_iff in Hin; [|done]. by rewrite Hin.
    + rewrite Hp. apply list_elem_of_fmap. by exists (l, cells).
Qed.

(** *** Inserting a column of zeros *)

Lemma insert_zeros_labels loc s t t' :
  insert_zeros loc s t = Some t' →
  COMID t' = COMID t
  ∧ (columns t').*1
    = take loc (columns t).*1 ++ s :: drop loc (columns t).*1.
Proof.
  unfold insert_zeros. repeat case_decide; try done.
  intros [= <-]. simpl. split; [done|].
  by rewrite fmap_app, fmap_cons, fmap_take, fmap_drop.
Qed.

Lemma insert_zeros_keeps loc s t t' l :
  insert_zeros loc s t = Some t' →
  l ∈ (columns t).*1 → l ∈ (columns t').*1.
Proof.
  intros [_ ->]%insert_zeros_labels Hl.
  rewrite <- (take_drop loc (columns t).*1) in Hl.
  revert Hl. rewrite !elem_of_app, elem_of_cons. tauto.
Qed.

Lemma insert_zeros_spec loc s t :
  NoDup (columns t).*1 → s ∉ (columns t).*1 → loc ≤ length (columns t) →
  ∃ t', insert_zeros loc s t = Some t'
        ∧ NoDup (columns t').*1
        ∧ (∀ l, l ≠ s → column t' l = column t l)
        ∧ column t' s = Some (replicate (length (COMID t)) (Num 0)).
Proof.
  intros Hnd Hs Hloc.
  destruct (insert_zeros loc s t) as [t'|] eqn:Hins.
  2:{ unfold insert_zeros in Hins. by repeat case_decide. }
  exists t'. split; [done|].
  destruct (insert_zeros_labels _ _ _ _ Hins) as [_ Hlab].
  assert (NoDup (columns t').*1) as Hnd'.
  { rewrite Hlab.
    assert (take loc (columns t).*1 ++ s :: drop loc (columns t).*1
            ≡ₚ s :: (columns t).*1) as ->.
    { rewrite <- Permutation_middle. by rewrite take_drop. }
    by constructor. }
  assert (∀ c, c ∈ columns t' ↔
               c = (s, replicate (length (COMID t)) (Num 0)) ∨ c ∈ columns t)
    as Hmem.
  { intros c. unfold insert_zeros in Hins. repeat case_decide; try done.
    injection Hins as <-. simpl.
    rewrite <- (take_drop loc (columns t)) at 3.
    rewrite !elem_of_app, elem_of_cons. tauto. }
  split; [done|]. split.
  - intros l Hl. destruct (column t l) as [cells|] eqn:Hc.
    + apply column_Some_iff; [done|]. apply Hmem. right.
      by apply column_Some_iff.
    + destruct (column t' l) as [cells'|] eqn:Hc'; [|done].
      apply column_Some_iff, Hmem in Hc'; [|done].
      destruct Hc' as [[= -> _]|Hc']; [done|].
      apply column_Some_iff in Hc'; [|done]. congruence.
  - apply column_Some_iff; [done|]. apply Hmem. by left.
Qed.

(** The loop fills the gaps from left to right: with the labels before
    [todo] in place, it puts every missing label of [todo] where the list of
    all labels has it. *)
Lemma insert_loop_fill first (present : list string) cats todo :
  ∀ done t,
  cats = done ++ todo → NoDup cats → first ∉ cats →
  NoDup (columns t).*1 →
  (columns t).*1 = first :: done ++ filter (λ l, l ∈ present) todo →
  ∃ t', insert_loop cats (filter (λ l, l ∉ present) todo) t = Some t'
        ∧ COMID t' = COMID t
        ∧ (columns t').*1 = first :: cats
        ∧ (∀ l, l ∈ (columns t).*1 → column t' l = column t l)
        ∧ (∀ l, l ∈ todo → l ∉ present →
             column t' l = Some (replicate (length (COMID t)) (Num 0))).
Proof.
  induction todo as [|x todo IH]; intros done t Hcats Hnd Hfirst Hndt Hlab.
  - exists t. simpl. split; [done|]. split; [done|].
    split; [by rewrite Hlab, Hcats|]. split; [done|].
    intros l Hl. by apply elem_of_nil in Hl.
  - rewrite !filter_cons in *.
    assert ((x ∉ done) ∧ (x ∉ todo) ∧ (x ∈ cats)) as (Hxd & Hxt & Hxc).
    { subst cats. apply NoDup_app in Hnd as (_ & Hdis & Hnd).
      apply NoDup_cons in Hnd as [? _].
      split; [|split; [done|]].
      - intros Hx. apply (Hdis x Hx). left.
      - rewrite elem_of_app. right. left. }
    destruct (decide (x ∈ present)) as [Hx|Hx].
    + rewrite decide_False by tauto.
      destruct (IH (done ++ [x]) t) as (t' & Hrun & Hid & Hlab' & Hold & Hnew);
        [by rewrite <- app_assoc|done|done|done|by rewrite <- app_assoc|].
      exists t'. repeat split; try done.
      intros l Hl Hlp. apply Hnew; [|done].
      apply elem_of_cons in Hl as [->|Hl]; [done|done].
    + rewrite decide_True by done. cbn [insert_loop].
      assert (list_find (λ l, l = x) cats = Some (length done, x)) as ->.
      { rewrite Hcats. by apply list_find_middle. }
      simpl.
      assert (x ∉ (columns t).*1) as Hxl.
      { rewrite Hlab, elem_of_cons, elem_of_app, list_elem_of_filter.
        intros [->|[?|[? _]]]; done. }
      assert (S (length done) ≤ length (columns t)) as Hloc.
      { rewrite <- (length_fmap fst), Hlab. simpl. rewrite length_app. lia. }
      destruct (insert_zeros_spec (S (length done)) x t Hndt Hxl Hloc)
        as (t1 & Hins & Hnd1 & Hold1 & Hnew1).
      rewrite Hins. simpl.
      destruct (insert_zeros_labels _ _ _ _ Hins) as [Hid1 Hlab1].
      rewrite Hlab in Hlab1. simpl in Hlab1.
      rewrite take_app_length, drop_app_length in Hlab1.
      destruct (IH (done ++ [x]) t1) as (t' & Hrun & Hid & Hlab' & Hold & Hnew);
        [by rewrite <- app_assoc|done|done|done|by rewrite <- app_assoc|].
      exists t'. split; [done|]. split; [congruence|]. split; [done|].
      split.
      * intros l Hl. rewrite Hold by (by eapply insert_zeros_keeps).
        apply Hold1. by intros ->.
      * intros l Hl Hlp. apply elem_of_cons in Hl as [->|Hl].
        -- rewrite Hold, Hnew1; [done|].
           rewrite Hlab1, elem_of_cons, elem_of_app, elem_of_cons. tauto.
        -- rewrite Hnew by done. by rewrite Hid1.
Qed.

(** The loop raises once a label to insert is a label of the table. *)
Lemma insert_loop_existing cats diff : ∀ t spot,
  spot ∈ diff → spot ∈ (columns t).*1 → insert_loop cats diff t = None.
Proof.
  induction diff as [|s diff IH]; intros t spot Hin Hl.
  - by apply elem_of_nil in Hin.
  - cbn [insert_loop].
    destruct (list_find _ cats) as [[i y]|]; simpl; [|done].
    destruct (insert_zeros (S i) s t) as [t1|] eqn:Hins; simpl; [|done].
    apply elem_of_cons in Hin as [->|Hin].
    + unfold insert_zeros in Hins. by rewrite decide_True in Hins.
    + apply (IH t1 spot Hin). by eapply insert_zeros_keeps.
Qed.

(** X20: the column labels after the two sorts are the labels of the table,
    ordered by length and, among labels of one length, by characters. *)
Theorem sort_labels_order l :
  sort_labels l ≡ₚ l
  ∧ StronglySorted (λ a b, label_le a b = true) (sort_labels l).
Proof. split; [apply sort_labels_Permutation|apply sort_labels_sorted]. Qed.

(** X21: on a table whose labels are one key label, ordered before the
    others, and some of the category labels, and for categories whose
    labels are in increasing order, chkColumnLength returns a table with the
    key column followed by one column per category in the order of the
    categories; the columns the table had keep their cells and every added
    column holds zeros. *)
Theorem chkColumnLength_all_categories table AllCols first present :
  NoDup (columns table).*1 →
  StronglySorted label_lt (category_label <$> AllCols) →
  (columns table).*1 ≡ₚ first :: present →
  first ∉ category_label <$> AllCols →
  (∀ p, p ∈ present →
        p ∈ category_label <$> AllCols ∧ label_le first p = true) →
  ∃ t', chkColumnLength table AllCols = Some t'
        ∧ COMID t' = COMID table
        ∧ (columns t').*1 = first :: (category_label <$> AllCols)
        ∧ (∀ l, l ∈ (columns table).*1 → column t' l = column table l)
        ∧ (∀ l, l ∈ category_label <$> AllCols → l ∉ present →
             column t' l = Some (replicate (length (COMID table)) (Num 0))).
Proof.
  set (cats := category_label <$> AllCols).
  intros Hnd Hsorted Hperm Hfirst Hpres.
  pose proof (sorted_lt_NoDup _ Hsorted) as Hndc.
  pose proof (sorted_lt_le _ Hsorted) as Hle.
  assert (NoDup (first :: present)) as Hndp by (by rewrite <- Hperm).
  apply NoDup_cons in Hndp as [Hfp Hndp].
  set (kept := filter (λ l, l ∈ present) cats).
  assert (∀ l, l ∈ kept ↔ l ∈ present) as Hmem.
  { intros l. unfold kept. rewrite list_elem_of_filter.
    split; [tauto|]. intros Hl. split; [done|]. by apply Hpres. }
  assert (kept ≡ₚ present) as Hkept.
  { apply NoDup_Permutation; [by apply NoDup_filter|done|done]. }
  assert (sort_labels (columns table).*1 = first :: kept) as Hsort.
  { apply sort_labels_unique; [|by rewrite Hperm, Hkept].
    constructor; [by apply StronglySorted_filter|].
    apply Forall_forall. intros l Hl. apply Hpres. by apply Hmem. }
  unfold chkColumnLength. rewrite Hsort.
  destruct (reorder_spec table (first :: kept) Hnd)
    as (t1 & Hre & Hid1 & Hlab1 & Hcol1); [by rewrite Hperm, Hkept|].
  rewrite Hre. simpl.
  assert (NoDup (columns t1).*1) as Hnd1.
  { rewrite Hlab1, Hkept. by constructor. }
  fold cats.
  destruct (decide (length AllCols ≠ length kept)) as [Hne|Heq].
  - assert (sort_labels (remove_dups (filter (λ l, l ∉ kept) cats))
            = filter (λ l, l ∉ present) cats) as ->.
    { assert (filter (λ l, l ∉ kept) cats = filter (λ l, l ∉ present) cats)
        as ->.
      { apply list_filter_iff. intros l. by rewrite Hmem. }
      rewrite remove_dups_NoDup by (by apply NoDup_filter).
      apply sort_labels_unique; [by apply StronglySorted_filter|done]. }
    destruct (insert_loop_fill first present cats cats [] t1)
      as (t' & Hrun & Hid & Hlab & Hold & Hnew); [done..|].
    exists t'. split; [done|]. split; [congruence|]. split; [done|].
    split.
    + intros l Hl. rewrite Hold, Hcol1; [done|].
      rewrite Hlab1, Hkept, <- Hperm. done.
    + intros l Hl Hlp. rewrite Hnew by done. by rewrite Hid1.
  - apply dec_stable in Heq.
    assert (kept = cats) as Hall.
    { apply filter_length_all. fold kept. rewrite <- Heq.
      unfold cats. by rewrite length_fmap. }
    exists t1. split; [done|]. split; [done|].
    split; [by rewrite Hlab1, Hall|]. split; [by intros; apply Hcol1|].
    intros l Hl Hlp. exfalso. apply Hlp. apply Hmem. by rewrite Hall.
Qed.

Lemma chkColumnLength_all_categories_witness :
  ∃ t', chkColumnLength ColumnExamples.zonal ColumnExamples.categories
        = Some t'
        ∧ COMID t' = COMID ColumnExamples.zonal
        ∧ (columns t').*1
          = "VALUE" :: (category_label <$> ColumnExamples.categories)
        ∧ (∀ l, l ∈ (columns ColumnExamples.zonal).*1 →
             column t' l = column ColumnExamples.zonal l)
        ∧ (∀ l, l ∈ category_label <$> ColumnExamples.categories →
             l ∉ ["VALUE_21"; "VALUE_5"] →
             column t' l
             = Some (replicate (length (COMID ColumnExamples.zonal)) (Num 0))).
Proof.
  apply (chkColumnLength_all_categories ColumnExamples.zonal
           ColumnExamples.categories "VALUE" ["VALUE_21"; "VALUE_5"]).
  - compute_done.
  - vm_compute. repeat (constructor; [|repeat constructor; done]).
    constructor.
  - apply Permutation_swap.
  - compute_done.
  - apply Forall_forall. compute_done.
Defined.

(** X22: when the smallest label of the table is itself a category label and
    the counts differ, chkColumnLength raises: the first label is not
    counted among the present categories, so the loop tries to insert a
    label the table has. *)
Theorem chkColumnLength_key_sorts_late table AllCols first rest :
  NoDup (columns table).*1 →
  sort_labels (columns table).*1 = first :: rest →
  length AllCols ≠ length rest →
  first ∈ category_label <$> AllCols →
  chkColumnLength table AllCols = None.
Proof.
  intros Hnd Hsort Hne Hfirst. unfold chkColumnLength. rewrite Hsort.
  destruct (reorder_spec table (first :: rest) Hnd)
    as (t1 & Hre & _ & Hlab1 & _).
  { rewrite <- Hsort. apply sort_labels_Permutation. }
  rewrite Hre. simpl. rewrite decide_True by done.
  apply (insert_loop_existing _ _ t1 first).
  - rewrite sort_labels_Permutation, elem_of_remove_dups.
    apply list_elem_of_filter. split; [|done].
    assert (NoDup (first :: rest)) as Hnd'.
    { rewrite <- Hsort, sort_labels_Permutation. done. }
    by apply NoDup_cons in Hnd' as [? _].
  - rewrite Hlab1. left.
Qed.

Lemma chkColumnLength_key_sorts_late_witness :
  chkColumnLength ColumnExamples.zonal_long_key ColumnExamples.categories
  = None.
Proof.
  apply (chkColumnLength_key_sorts_late ColumnExamples.zonal_long_key
           ColumnExamples.categories "VALUE_5" ["ZONE_CODE"]).
  - compute_done.
  - vm_compute. reflexivity.
  - simpl. lia.
  - compute_done.
Defined.

(** X23: chkColumnLength compares counts only: when the table has one column
    more than there are categories, it returns the columns of the table in
    sorted order and adds none, whichever categories they are. *)
Theorem chkColumnLength_equal_counts table AllCols :
  NoDup (columns table).*1 →
  length AllCols = pred (length (columns table)) →
  ∃ t', chkColumnLength table AllCols = Some t'
        ∧ COMID t' = COMID table
        ∧ (columns t').*1 = sort_labels (columns table).*1
        ∧ ∀ l, column t' l = column table l.
Proof.
  intros Hnd Hlen. unfold chkColumnLength.
  destruct (reorder_spec table (sort_labels (columns table).*1) Hnd)
    as (t1 & Hre & Hid & Hlab & Hcol); [apply sort_labels_Permutation|].
  rewrite Hre. simpl. rewrite decide_False; [by exists t1|].
  intros Hne. apply Hne. rewrite Hlen.
  pose proof (Permutation_length (sort_labels_Permutation (columns table).*1))
    as Hl.
  rewrite length_fmap in Hl. rewrite <- Hl.
  by destruct (sort_labels _).
Qed.

Lemma chkColumnLength_equal_counts_witness :
  ∃ t', chkColumnLength ColumnExamples.zonal [5; 11]%Z = Some t'
        ∧ COMID t' = COMID ColumnExamples.zonal
        ∧ (columns t').*1 = sort_labels (columns ColumnExamples.zonal).*1
        ∧ ∀ l, column t' l = column ColumnExamples.zonal l.
Proof.
  apply (chkColumnLength_equal_counts ColumnExamples.zonal [5; 11]%Z).
  - compute_done.
  - reflexivity.
Defined.

End ColumnTheory.

(** ** The adjustments between zones *)

Module InterVPUTheory.
Import Double Adjust Frame InterVPU AdjustTheory ConnectorTheory.
Local Open Scope Z_scope.

Lemma adjust_loop_shape ls : ∀ tbl tbl2 c1 c2 tbl',
  adjust_loop ls tbl tbl2 c1 c2 = Some tbl' →
  COMID tbl' = COMID tbl ∧ (columns tbl').*1 = (columns tbl).*1.
Proof.
  induction ls as [|idx ls IH]; intros tbl tbl2 c1 c2 tbl'; simpl.
  - by intros [= <-].
  - destruct (get_cell tbl c1 idx) as [a|]; simpl; [|done].
    destruct (get_cell tbl2 c2 idx) as [b|]; simpl; [|done].
    destruct (set_cell tbl c1 idx (sub a b)) as [tbl1|] eqn:Hset; simpl;
      [|done].
    intros Hloop. apply IH in Hloop as [-> ->].
    by apply set_cell_shape in Hset.
Qed.

(** The loop of [AdjustCOMs] leaves the columns it does not list. *)
Lemma adjust_loop_other ls : ∀ tbl tbl2 c1 c2 tbl' c l,
  adjust_loop ls tbl tbl2 c1 c2 = Some tbl' →
  l ∉ ls → get_cell tbl' c l = get_cell tbl c l.
Proof.
  induction ls as [|idx ls IH]; intros tbl tbl2 c1 c2 tbl' c l; simpl.
  - by intros [= <-].
  - destruct (get_cell tbl c1 idx) as [a|] eqn:Ha; simpl; [|done].
    destruct (get_cell tbl2 c2 idx) as [b|]; simpl; [|done].
    destruct (set_cell tbl c1 idx (sub a b)) as [tbl1|] eqn:Hset; simpl;
      [|done].
    intros Hloop Hl. apply not_elem_of_cons in Hl as [Hne Hl].
    rewrite (IH _ _ _ _ _ c l Hloop Hl).
    rewrite (get_set_cell tbl c1 idx (sub a b) tbl1 c l); [|by eexists|done].
    rewrite decide_False; [done|]. tauto.
Qed.

Lemma AdjustCOMs_shape tbl c1 c2 tbl2 tbl' :
  AdjustCOMs tbl c1 c2 tbl2 = Some tbl' →
  COMID tbl' = COMID tbl ∧ (columns tbl').*1 = (columns tbl).*1.
Proof. apply adjust_loop_shape. Qed.

Lemma AdjustCOMs_last tbl c1 c2 tbl2 tbl' c l :
  NoDup (columns tbl).*1 →
  AdjustCOMs tbl c1 c2 tbl2 = Some tbl' →
  last (columns tbl).*1 = Some l →
  get_cell tbl' c l = get_cell tbl c l.
Proof.
  intros Hnd Hadj Hl. eapply adjust_loop_other; [exact Hadj|].
  by apply removelast_last_absent.
Qed.

Lemma drop_label_spec t label t' :
  drop_label t label = Some t' →
  COMID t' = filter (λ c, c ≠ label) (COMID t)
  ∧ (columns t').*1 = (columns t).*1
  ∧ ∀ c l, get_cell t' c l = if decide (c = label) then None else get_cell t c l.
Proof.
  unfold drop_label. case_decide; [|done]. intros [= <-].
  unfold drop_COMID. split; [|split].
  - rewrite COMID_filter_rows. apply filter_ext_in. intros c _.
    apply bool_decide_eq_true.
  - apply labels_filter_rows.
  - intros c l. rewrite get_cell_filter_rows.
    destruct (decide (c = label)) as [->|Hne].
    + by rewrite bool_decide_eq_false_2 by tauto.
    + by rewrite bool_decide_eq_true_2.
Qed.

Lemma filter_all {A} (P : A → Prop) `{∀ x, Decision (P x)} (l : list A) :
  (∀ x, x ∈ l → P x) → filter P l = l.
Proof.
  induction l as [|x l IH]; intros HP; [done|].
  rewrite filter_cons_True by (apply HP; left).
  f_equal. apply IH. intros y Hy. apply HP. by right.
Qed.

Lemma dropped_cons line lines :
  dropped (line :: lines) = dropped [line] ++ dropped lines.
Proof.
  unfold dropped. simpl. rewrite !filter_cons, filter_nil.
  by case_decide.
Qed.

Lemma dropped_single line c :
  c ∈ dropped [line] ↔ interLine5 line > 0 ∧ c = interLine5 line.
Proof.
  unfold dropped. simpl. rewrite filter_cons, filter_nil.
  case_decide; [rewrite list_elem_of_singleton|rewrite elem_of_nil]; split.
  - by intros ->.
  - by intros [_ ->].
  - done.
  - tauto.
Qed.

(** One turn of the loop on the table of through values. *)
Lemma adjust_through_spec th line th' :
  adjust_through th line = Some th' →
  COMID th' = filter (λ c, c ∉ dropped [line]) (COMID th)
  ∧ (columns th').*1 = (columns th).*1
  ∧ ∀ c l, NoDup (columns th).*1 → last (columns th).*1 = Some l →
      get_cell th' c l
      = if decide (c ∈ dropped [line]) then None else get_cell th c l.
Proof.
  unfold adjust_through. intros Hrun.
  assert (∃ th1,
            COMID th1 = COMID th ∧ (columns th1).*1 = (columns th).*1
            ∧ (∀ c l, NoDup (columns th).*1 →
                 last (columns th).*1 = Some l →
                 get_cell th1 c l = get_cell th c l)
            ∧ (if decide (interLine5 line > 0)
               then drop_label th1 (interLine5 line) else Some th1) = Some th')
    as (th1 & Hid1 & Hlab1 & Hcell1 & Hdrop).
  { destruct (decide (interLine3 line > 0)).
    - destruct (AdjustCOMs th _ _ None) as [th1|] eqn:Hadj; [|done].
      exists th1. destruct (AdjustCOMs_shape _ _ _ _ _ Hadj) as [-> ->].
      split_and!; try done.
      intros c l Hnd Hl. by eapply AdjustCOMs_last.
    - exists th. by split_and!. }
  clear Hrun. destruct (decide (interLine5 line > 0)) as [H5|H5].
  - apply drop_label_spec in Hdrop as (Hid & Hlab & Hcell).
    split_and!.
    + rewrite Hid, Hid1. apply filter_ext_in. intros c _.
      rewrite dropped_single. split; [|tauto]. intros ? [_ ?]. done.
    + congruence.
    + intros c l Hnd Hl. rewrite Hcell, Hcell1 by done.
      destruct (decide (c = interLine5 line)) as [->|Hne].
      * rewrite decide_True; [done|]. by apply dropped_single.
      * rewrite decide_False; [done|]. rewrite dropped_single. tauto.
  - injection Hdrop as <-. split_and!.
    + rewrite Hid1. symmetry. apply filter_all.
      intros c _. rewrite dropped_single. tauto.
    + done.
    + intros c l Hnd Hl. rewrite Hcell1 by done.
      rewrite decide_False; [done|]. rewrite dropped_single. tauto.
Qed.

(** One turn of the loop on the table of the receiving zone. *)
Lemma adjust_to_spec t th line to' :
  adjust_to (Some t) th line = Some to' →
  ∃ t', to' = Some t' ∧ COMID t' = COMID t
        ∧ (columns t').*1 = (columns t).*1
        ∧ ∀ c l, NoDup (columns t).*1 → last (columns t).*1 = Some l →
            get_cell t' c l = get_cell t c l.
Proof.
  unfold adjust_to. case_decide; simpl.
  - destruct (AdjustCOMs t _ _ _) as [t1|] eqn:Hadj; simpl; [|done].
    intros [= <-]. exists t1.
    destruct (AdjustCOMs_shape _ _ _ _ _ Hadj) as [-> ->].
    split_and!; try done. intros c l Hnd Hl. by eapply AdjustCOMs_last.
  - intros [= <-]. by exists t.
Qed.

(** X24: the loop of interVPU removes from the table of through values the
    rows of the positive COMIDs at position 5 of the lines and no other
    row, keeps the labels, and never changes the last column of a row it
    keeps. *)
Theorem adjust_lines_through lines : ∀ toVPUs th toVPUs' th',
  adjust_lines lines (toVPUs, th) = Some (toVPUs', th') →
  COMID th' = filter (λ c, c ∉ dropped lines) (COMID th)
  ∧ (columns th').*1 = (columns th).*1
  ∧ ∀ c l, NoDup (columns th).*1 → last (columns th).*1 = Some l →
      get_cell th' c l
      = if decide (c ∈ dropped lines) then None else get_cell th c l.
Proof.
  induction lines as [|line lines IH]; intros toVPUs th toVPUs' th'.
  - simpl. intros [= <- <-]. split_and!; [|done|].
    + symmetry. apply filter_all. intros c _. apply not_elem_of_nil.
    + done.
  - cbn [adjust_lines]. unfold loop_step. simpl.
    destruct (adjust_to toVPUs th line) as [to1|]; simpl; [|done].
    destruct (adjust_through th line) as [th1|] eqn:Hth; simpl; [|done].
    intros Hrest. apply IH in Hrest as (Hid & Hlab & Hcell).
    apply adjust_through_spec in Hth as (Hid1 & Hlab1 & Hcell1).
    split_and!.
    + rewrite Hid, Hid1, list_filter_filter. apply filter_ext_in.
      intros c _. rewrite (dropped_cons line lines), elem_of_app. tauto.
    + congruence.
    + intros c l Hnd Hl. rewrite Hcell by (by rewrite Hlab1).
      rewrite Hcell1 by done. rewrite (dropped_cons line lines).
      destruct (decide (c ∈ dropped lines)) as [Hc|Hc].
      * rewrite decide_True; [done|]. rewrite elem_of_app. tauto.
      * destruct (decide (c ∈ dropped [line])) as [Hc1|Hc1].
        -- rewrite decide_True; [done|]. rewrite elem_of_app. tauto.
        -- rewrite decide_False; [done|]. rewrite elem_of_app. tauto.
Qed.

Lemma adjust_lines_through_witness :
  ∃ st', adjust_lines InterVPUExamples.lines (None, Scenario.through)
         = Some st'
         ∧ COMID st'.2 = [1]
         ∧ get_cell st'.2 1 "CatPctFull"
           = get_cell Scenario.through 1 "CatPctFull".
Proof.
  destruct (adjust_lines InterVPUExamples.lines (None, Scenario.through))
    as [[to' th']|] eqn:Hrun; [|by vm_compute in Hrun].
  destruct (adjust_lines_through _ _ _ _ _ Hrun) as (Hid & _ & Hcell).
  exists (to', th'). split; [done|]. split; [exact Hid|]. simpl.
  by rewrite (Hcell 1 "CatPctFull"); [|compute_done|].
Defined.

(** X25: the loop of interVPU keeps the COMIDs and the labels of the table of
    the receiving zone, and never changes its last column. *)
Theorem adjust_lines_to lines : ∀ t th toVPUs' th',
  adjust_lines lines (Some t, th) = Some (toVPUs', th') →
  ∃ t', toVPUs' = Some t' ∧ COMID t' = COMID t
        ∧ (columns t').*1 = (columns t).*1
        ∧ ∀ c l, NoDup (columns t).*1 → last (columns t).*1 = Some l →
            get_cell t' c l = get_cell t c l.
Proof.
  induction lines as [|line lines IH]; intros t th toVPUs' th'.
  - simpl. intros [= <- <-]. by exists t.
  - cbn [adjust_lines]. unfold loop_step. simpl.
    destruct (adjust_to (Some t) th line) as [to1|] eqn:Hto; simpl; [|done].
    destruct (adjust_through th line) as [th1|]; simpl; [|done].
    apply adjust_to_spec in Hto as (t1 & -> & Hid1 & Hlab1 & Hcell1).
    intros Hrest. apply IH in Hrest as (t' & -> & Hid & Hlab & Hcell).
    exists t'. split_and!; [done|congruence|congruence|].
    intros c l Hnd Hl. rewrite Hcell by (by rewrite Hlab1). by apply Hcell1.
Qed.

Lemma adjust_lines_to_witness :
  ∃ t', fst <$> adjust_lines InterVPUExamples.lines_to
                  (Some Scenario.coverage, Scenario.through)
        = Some (Some t')
        ∧ COMID t' = COMID Scenario.coverage
        ∧ (columns t').*1 = (columns Scenario.coverage).*1
        ∧ ∀ c l, NoDup (columns Scenario.coverage).*1 →
            last (columns Scenario.coverage).*1 = Some l →
            get_cell t' c l = get_cell Scenario.coverage c l.
Proof.
  destruct (adjust_lines InterVPUExamples.lines_to
              (Some Scenario.coverage, Scenario.through))
    as [[to' th']|] eqn:Hrun; [|by vm_compute in Hrun].
  destruct (adjust_lines_to _ _ _ _ _ Hrun) as (t' & -> & H).
  by exists t'.
Defined.

End InterVPUTheory.

(** ** The array files *)

Module NpyTheory.
Import Accum Npy.

Lemma append_cons x (a b : string) : String x a +:+ b = String x (a +:+ b).
Proof. reflexivity. Qed.

Lemma append_nil (b : string) : "" +:+ b = b.
Proof. reflexivity. Qed.

Lemma append_assoc (a b c : string) : (a +:+ b) +:+ c = a +:+ (b +:+ c).
Proof.
  induction a as [|x a IH]; [done|]. rewrite !append_cons. by f_equal.
Qed.

Lemma length_append (a b : string) :
  String.length (a +:+ b) = String.length a + String.length b.
Proof.
  induction a as [|x a IH]; [done|]. rewrite append_cons. simpl. by f_equal.
Qed.

(** A name with a space after [comids] is another name. *)
Lemma space_name (zone rest : string) :
  " " +:+ zone +:+ rest ≠ zone +:+ rest.
Proof.
  intros H. apply (f_equal String.length) in H.
  rewrite append_cons, append_nil in H. simpl in H. lia.
Qed.

Ltac other_path :=
  intros Heq; rewrite !append_assoc in Heq;
  apply String.app_inj in Heq;
  rewrite ?append_cons, ?append_nil in Heq;
  first [ discriminate Heq
        | repeat (injection Heq as Heq); by apply space_name in Heq
        | repeat (injection Heq as Heq); symmetry in Heq;
          by apply space_name in Heq ].

Lemma to_nat_of_nat (l : list nat) : Z.to_nat <$> (Z.of_nat <$> l) = l.
Proof.
  rewrite <- list_fmap_compose. rewrite <- (list_fmap_id l) at 2.
  apply list_fmap_ext. intros i x _. simpl. apply Nat2Z.id.
Qed.

(** What [np.load] finds after the six [np.save] calls. *)
Lemma load_children_comids directory zone a b (files : gmap string (list Z)) :
  save_zone directory zone a b files
    !! ((directory +:+ "/children") +:+ "/comids" +:+ zone +:+ ".npy")
  = files !! ((directory +:+ "/children") +:+ "/comids" +:+ zone +:+ ".npy").
Proof.
  unfold save_zone. cbv zeta. by rewrite !lookup_insert_ne by other_path.
Qed.

Lemma load_bastards directory zone a b (files : gmap string (list Z)) :
  save_zone directory zone a b files
    !! ((directory +:+ "/bastards") +:+ "/comids" +:+ zone +:+ ".npy")
  = Some (comids a)
  ∧ save_zone directory zone a b files
      !! ((directory +:+ "/bastards") +:+ "/lengths" +:+ zone +:+ ".npy")
    = Some (Z.of_nat <$> lengths a)
  ∧ save_zone directory zone a b files
      !! ((directory +:+ "/bastards") +:+ "/upStream" +:+ zone +:+ ".npy")
    = Some (upStream a).
Proof.
  unfold save_zone. cbv zeta. split_and!.
  - rewrite !lookup_insert_ne by other_path. apply lookup_insert_eq.
  - rewrite !lookup_insert_ne by other_path. apply lookup_insert_eq.
  - rewrite !lookup_insert_ne by other_path. apply lookup_insert_eq.
Qed.

(** X26: on a directory that holds for the zone what [makeNumpyVectors]
    saved there, and had no [children] file of query ids for it before,
    [createAccumTable] raises for 'Ws': the query ids of [children] were
    saved under a name with a space after [comids], and the name that is
    loaded has none.  For 'UpCat' it runs [Accumulation] on the arrays of
    [bastards]. *)
Theorem createAccumTable_after_save files table directory zone a b :
  files !! ((directory +:+ "/children") +:+ "/comids" +:+ zone +:+ ".npy")
    = None →
  createAccumTable (save_zone directory zone a b files) table directory zone
    "Ws" = None
  ∧ createAccumTable (save_zone directory zone a b files) table directory zone
      "UpCat"
    = Accumulation table (comids a) (lengths a) (upStream a) "UpCat".
Proof.
  intros Hfresh. unfold createAccumTable. split.
  - destruct (decide ("Ws" = "UpCat")) as [?|_]; [discriminate|].
    destruct (decide ("Ws" = "Ws")) as [_|?]; [|done].
    by rewrite load_children_comids, Hfresh.
  - destruct (decide ("UpCat" = "UpCat")) as [_|?]; [|done].
    destruct (decide ("UpCat" = "Ws")) as [?|_]; [discriminate|].
    destruct (load_bastards directory zone a b files) as (-> & -> & ->).
    simpl. by rewrite to_nat_of_nat.
Qed.

Lemma createAccumTable_after_save_witness :
  createAccumTable
    (save_zone "npy" "01" Examples.bastards_arrays Examples.children_arrays ∅)
    Scenario.metrics "npy" "01" "Ws" = None
  ∧ createAccumTable
      (save_zone "npy" "01" Examples.bastards_arrays Examples.children_arrays
         ∅)
      Scenario.metrics "npy" "01" "UpCat"
    = Accumulation Scenario.metrics (comids Examples.bastards_arrays)
        (lengths Examples.bastards_arrays) (upStream Examples.bastards_arrays)
        "UpCat".
Proof.
  apply (createAccumTable_after_save ∅ Scenario.metrics "npy" "01"
           Examples.bastards_arrays Examples.children_arrays).
  apply lookup_empty.
Defined.

End NpyTheory.
